(** * EmmetToElement: a shallow embedding of [src/index.js]

    The library turns an Emmet-like shorthand such as
    [section#page>(header>h1{Header} + #content{Content})] into DOM
    elements.  This development embeds the two exported functions
    [emmetToElements] and [simplifiedEmmetToElement], together with the
    closures of the former ([splitEmmetIntoSections], [mapStringToId],
    [createParalel], [createParental], [createHTMLElement]), and proves
    properties of them.

    Modelling conventions.
    - A JavaScript string is a list of code units; code units are
      restricted to the range 0..255 and represented by [ascii].
    - Indices returned by [indexOf]/[lastIndexOf] are in [Z], with [-1]
      for "not found", and [substring] clamps and swaps its arguments as
      ECMAScript prescribes.
    - The DOM is a store of element records addressed by references;
      [appendChild] mutates the store, so that the aliasing between
      [traversalParent] and [children[0]] in [createParental] is kept.
      [document.createElement] and [setAttribute] record their arguments
      verbatim (the host's validation of names is not modelled).
    - A thrown exception is an explicit outcome.  The recursion
      [createParalel -> createParental -> createHTMLElement -> createParalel]
      is bounded by a call depth; exhausting it is the engine's
      [RangeError] (maximum call stack size exceeded).
    - [console.log] in [createParental] only writes to the console and is
      left out.

    Outline.  The embedding of the source comes first, then the notions
    the properties are stated with (the closed form of a leaf, the
    grouping relation, the composition on trees, templates that keep
    placeholders apart), then the supporting lemmas, then one theorem
    for each claim of the specification, C1 to C10, and last further
    properties of the code, X1 to X20. *)

From Stdlib Require Import ZArith Ascii String List Lia Bool.
From stdpp Require Import base option list gmap strings pretty.

Abbreviation str := (list ascii).

(** A string literal as a list of code units. *)
Definition lit (s : string) : str := list_ascii_of_string s.

(** ** ECMAScript string primitives used by the source *)
Module JS.

(** [WhiteSpace] and [LineTerminator] code units below 256: TAB, LF, VT,
    FF, CR, SP and NBSP.  This is the class matched by [\s] and removed
    by [String.prototype.trim]. *)
Definition isWhiteSpace (c : ascii) : bool :=
  let n := nat_of_ascii c in
  (n =? 9)%nat || (n =? 10)%nat || (n =? 11)%nat || (n =? 12)%nat
  || (n =? 13)%nat || (n =? 32)%nat || (n =? 160)%nat.

(** The class [[\t\n\r]]. *)
Definition isTabNlCr (c : ascii) : bool :=
  let n := nat_of_ascii c in
  (n =? 9)%nat || (n =? 10)%nat || (n =? 13)%nat.

(** [s.replace(/[\t\n\r]/g, empty)], [empty] being the empty string. *)
Definition removeTabNlCr (s : str) : str :=
  List.filter (fun c => negb (isTabNlCr c)) s.

(** [s.replace(/\s+/g, " ")]: every maximal run of white space becomes
    one space.  A white-space unit followed by another one is dropped,
    the last unit of a run is replaced by a space. *)
Fixpoint collapseWhiteSpace (s : str) : str :=
  match s with
  | [] => []
  | c :: r =>
      if isWhiteSpace c then
        match r with
        | c' :: _ => if isWhiteSpace c' then collapseWhiteSpace r
                     else " "%char :: collapseWhiteSpace r
        | [] => [" "%char]
        end
      else c :: collapseWhiteSpace r
  end.

(** [s.indexOf(c)] for a one-unit search string. *)
Fixpoint indexOfFrom (c : ascii) (s : str) (i : Z) : Z :=
  match s with
  | [] => (-1)%Z
  | x :: r => if Ascii.eqb x c then i else indexOfFrom c r (i + 1)%Z
  end.

Definition indexOf (c : ascii) (s : str) : Z := indexOfFrom c s 0.

(** [s.lastIndexOf(c)] for a one-unit search string. *)
Fixpoint lastIndexOfFrom (c : ascii) (s : str) (i found : Z) : Z :=
  match s with
  | [] => found
  | x :: r => lastIndexOfFrom c r (i + 1)%Z (if Ascii.eqb x c then i else found)
  end.

Definition lastIndexOf (c : ascii) (s : str) : Z :=
  lastIndexOfFrom c s 0 (-1).

(** [s.substring(a, b)]: both arguments are clamped to [0, length] and
    swapped when the first exceeds the second. *)
Definition clamp (len i : Z) : Z := Z.max 0 (Z.min i len).

Definition substring (s : str) (a b : Z) : str :=
  let len := Z.of_nat (length s) in
  let a' := clamp len a in
  let b' := clamp len b in
  let lo := Z.min a' b' in
  let hi := Z.max a' b' in
  take (Z.to_nat (hi - lo)) (drop (Z.to_nat lo) s).

(** [s.split(sep)] for a one-unit separator; the result is never empty
    (one empty piece for the empty string). *)
Fixpoint split (sep : ascii) (s : str) : list str :=
  match s with
  | [] => [[]]
  | c :: r =>
      if Ascii.eqb c sep then [] :: split sep r
      else match split sep r with
           | p :: ps => (c :: p) :: ps
           | [] => [[c]]
           end
  end.

(** [l.join(sep)] *)
Fixpoint join (sep : str) (l : list str) : str :=
  match l with
  | [] => []
  | x :: r => match r with
              | [] => x
              | _ :: _ => x ++ sep ++ join sep r
              end
  end.

(** [s.trim()] *)
Fixpoint trimStart (s : str) : str :=
  match s with
  | [] => []
  | c :: r => if isWhiteSpace c then trimStart r else s
  end.

Definition trimEnd (s : str) : str := rev (trimStart (rev s)).

Definition trim (s : str) : str := trimEnd (trimStart s).

(** [s.replace(pat, rep)] with a string pattern: the first occurrence of
    [pat] is replaced.  The replacement strings of the source (a
    placeholder token, the empty string) hold no [$], so no replacement
    pattern is expanded. *)
Fixpoint stripPrefix (p s : str) : option str :=
  match p, s with
  | [], _ => Some s
  | _ :: _, [] => None
  | a :: p', b :: s' => if Ascii.eqb a b then stripPrefix p' s' else None
  end.

Fixpoint replace (pat rep s : str) : str :=
  match stripPrefix pat s with
  | Some rest => rep ++ rest
  | None => match s with
            | [] => []
            | c :: r => c :: replace pat rep r
            end
  end.

(** Truthiness of a string: non-empty. *)
Definition truthy (s : str) : bool :=
  match s with [] => false | _ :: _ => true end.

(** Number to string, as in [`${n}`] or ["segment_" + n]. *)
Definition numberToString (n : nat) : str := lit (pretty n).

End JS.

(** ** Whole-input normalisation, shared by both entry points

    Tabs, line feeds and carriage returns are removed, then every run of
    white space becomes one space. *)
Definition normalize (emmetString : str) : str :=
  JS.collapseWhiteSpace (JS.removeTabNlCr emmetString).

(** ** Exceptions and the store-passing monad *)

(** The exceptions the source can raise: [new Error("Invalid Emmet string
    provided")] (the specification's InvalidExpression), the [TypeError]
    of a property access on [undefined] (raised for an attribute token
    without [=], the specification's AttributeSyntaxError), and the
    [RangeError] of an exhausted call stack. *)
Inductive exn : Type :=
| InvalidEmmetString
| TypeError
| RangeError.

Inductive outcome (A : Type) : Type :=
| Return (a : A)
| Throw (e : exn).
Arguments Return {A} a.
Arguments Throw {A} e.

Definition isThrow {A} (o : outcome A) : bool :=
  match o with Return _ => false | Throw _ => true end.

(** [Array.prototype.map] with a callback that may throw: the elements
    are visited from left to right and the first exception wins. *)
Fixpoint mapOutcome {A B} (f : A -> outcome B) (l : list A) : outcome (list B) :=
  match l with
  | [] => Return []
  | x :: r =>
      match f x with
      | Throw e => Throw e
      | Return y =>
          match mapOutcome f r with
          | Throw e => Throw e
          | Return ys => Return (y :: ys)
          end
      end
  end.

(** *** The DOM store *)

Abbreviation ref := nat.

(** What the source sets or reads on an [HTMLElement].  A field that was
    never assigned is [None]. *)
Record element : Type := mkElement {
  tagName : str;
  id : option str;
  className : option str;
  textContent : option str;
  attributes : list (str * str);
  childNodes : list ref;
  parentNode : option ref
}.

Abbreviation dom := (list element).

Definition M (A : Type) : Type := dom -> outcome (A * dom).

Definition ret {A} (a : A) : M A := fun h => Return (a, h).
Definition throw {A} (e : exn) : M A := fun _ => Throw e.
Definition bind {A B} (m : M A) (k : A -> M B) : M B :=
  fun h => match m h with
           | Return (a, h') => k a h'
           | Throw e => Throw e
           end.
Definition lift {A} (o : outcome A) : M A :=
  fun h => match o with
           | Return a => Return (a, h)
           | Throw e => Throw e
           end.

Notation "x <- m ;; k" := (bind m (fun x => k))
  (at level 100, m at next level, right associativity).
Notation "m ;;; k" := (bind m (fun _ => k))
  (at level 100, right associativity).

Fixpoint arrayMap {A B} (f : A -> M B) (l : list A) : M (list B) :=
  match l with
  | [] => ret []
  | x :: r => y <- f x ;; ys <- arrayMap f r ;; ret (y :: ys)
  end.

Fixpoint forEach {A} (f : A -> M unit) (l : list A) : M unit :=
  match l with
  | [] => ret tt
  | x :: r => f x ;;; forEach f r
  end.

(** *** DOM operations *)
Module DOM.

Definition withId (v : str) (e : element) : element :=
  mkElement (tagName e) (Some v) (className e) (textContent e)
            (attributes e) (childNodes e) (parentNode e).
Definition withClassName (v : str) (e : element) : element :=
  mkElement (tagName e) (id e) (Some v) (textContent e)
            (attributes e) (childNodes e) (parentNode e).
Definition withTextContent (v : str) (e : element) : element :=
  mkElement (tagName e) (id e) (className e) (Some v)
            (attributes e) (childNodes e) (parentNode e).
Definition withAttribute (a : str * str) (e : element) : element :=
  mkElement (tagName e) (id e) (className e) (textContent e)
            (attributes e ++ [a]) (childNodes e) (parentNode e).
Definition withChildNodes (l : list ref) (e : element) : element :=
  mkElement (tagName e) (id e) (className e) (textContent e)
            (attributes e) l (parentNode e).
Definition withParentNode (p : option ref) (e : element) : element :=
  mkElement (tagName e) (id e) (className e) (textContent e)
            (attributes e) (childNodes e) p.

(** [document.createElement(tagName)]: a fresh, detached element. *)
Definition createElement (tag : str) : M ref :=
  fun h => Return (length h, h ++ [mkElement tag None None None [] [] None]).

(** A property assignment or method call on the element [r]. *)
Definition update (r : ref) (f : element -> element) : M unit :=
  fun h => match h !! r with
           | Some e => Return (tt, <[r := f e]> h)
           | None => Throw TypeError
           end.

Definition setId (r : ref) (v : str) : M unit := update r (withId v).
Definition setClassName (r : ref) (v : str) : M unit := update r (withClassName v).
Definition setTextContent (r : ref) (v : str) : M unit := update r (withTextContent v).
Definition setAttribute (r : ref) (n v : str) : M unit := update r (withAttribute (n, v)).

(** A node has at most one parent: a child that is attached somewhere is
    removed from its parent's child list first. *)
Definition detach (c : ref) (h : dom) : dom :=
  match h !! c with
  | Some ce =>
      match parentNode ce with
      | Some q =>
          match h !! q with
          | Some qe =>
              <[q := withChildNodes
                       (List.filter (fun x => negb (x =? c)%nat) (childNodes qe)) qe]> h
          | None => h
          end
      | None => h
      end
  | None => h
  end.

(** [parent.appendChild(child)]; either may be [undefined] ([None]),
    which raises a [TypeError]. *)
Definition appendChild (parent child : option ref) : M unit :=
  match parent, child with
  | Some p, Some c =>
      fun h =>
        match h !! p, h !! c with
        | Some _, Some _ =>
            (update p (fun pe => withChildNodes (childNodes pe ++ [c]) pe) ;;;
             update c (withParentNode (Some p))) (detach c h)
        | _, _ => Throw TypeError
        end
  | _, _ => throw TypeError
  end.

End DOM.

(** ** [simplifiedEmmetToElement] *)

(** The block commented [// Inner text]: returns [innerText] and the
    shortened [emmetString]. *)
Definition innerTextStep (emmetString : str) : str * str :=
  let textIndex := JS.lastIndexOf "{"%char emmetString in
  if negb (textIndex =? -1)%Z then
    (JS.substring emmetString (textIndex + 1) (JS.indexOf "}"%char emmetString),
     JS.substring emmetString 0 textIndex)
  else ([], emmetString).

(** The callback of [.map((attr) => ...)]: [parts[1]] is [undefined] when
    the token holds no [=], and [parts[1].indexOf] then raises a
    [TypeError].  Code unit 34 is the double quote. *)
Definition parseAttribute (attr : str) : outcome (str * str) :=
  match JS.split "="%char (JS.trim attr) with
  | p0 :: p1 :: _ =>
      if negb (JS.indexOf "034"%char p1 =? -1)%Z then
        Return (p0, JS.substring p1 1 (JS.lastIndexOf "034"%char p1))
      else Return (p0, p1)
  | _ => Throw TypeError
  end.

(** The tokens of an attribute text:
    [attributeText.trim().split(" ").filter((i) => i.trim())]. *)
Definition attributeTokens (attributeText : str) : list str :=
  List.filter (fun i => JS.truthy (JS.trim i))
              (JS.split " "%char (JS.trim attributeText)).

(** The block commented [// Attributes]: returns [attributes] and the
    shortened [emmetString]. *)
Definition attributesStep (emmetString : str) : outcome (list (str * str) * str) :=
  let attributeIndex := JS.lastIndexOf "["%char emmetString in
  if negb (attributeIndex =? -1)%Z then
    let attributeText :=
      JS.substring emmetString (attributeIndex + 1) (JS.indexOf "]"%char emmetString) in
    match mapOutcome parseAttribute (attributeTokens attributeText) with
    | Throw e => Throw e
    | Return attributes =>
        Return (attributes,
                JS.replace ("["%char :: attributeText ++ ["]"%char]) [] emmetString)
    end
  else Return ([], emmetString).

(** The block commented [// Tag, id, class]: returns [tagName], [id]
    ([None] for [undefined]) and [classes].  The two [TypeError] branches
    stand for destructuring an empty array, which [split] never
    returns. *)
Definition tagIdClassStep (emmetString : str) : outcome (str * option str * list str) :=
  match JS.split "."%char emmetString with
  | beforeClasses :: classes =>
      match JS.split "#"%char beforeClasses with
      | tagName :: rest =>
          let id := head rest in
          let tagName := if JS.truthy (JS.trim tagName) then JS.trim tagName
                         else lit "div" in
          let classes := map JS.trim classes in
          Return (tagName, id, classes)
      | [] => Throw TypeError
      end
  | [] => Throw TypeError
  end.

(** The block commented [// Convert to HTMLElements]. *)
Definition convertToHTMLElement (tagName : str) (id : option str)
    (classes : list str) (innerText : str) (attributes : list (str * str)) : M ref :=
  element <- DOM.createElement tagName ;;
  match id with
  | Some i => if JS.truthy i then DOM.setId element (JS.trim i) else ret tt
  | None => ret tt
  end ;;;
  (if (0 <? length classes)%nat
   then DOM.setClassName element (JS.join (lit " ") classes) else ret tt) ;;;
  (if JS.truthy innerText then DOM.setTextContent element innerText else ret tt) ;;;
  forEach (fun attr => DOM.setAttribute element (fst attr) (snd attr)) attributes ;;;
  ret element.

Definition simplifiedEmmetToElement (emmetString : str) : M ref :=
  let emmetString := normalize emmetString in
  let '(innerText, emmetString) := innerTextStep emmetString in
  a <- lift (attributesStep emmetString) ;;
  let '(attributes, emmetString) := a in
  t <- lift (tagIdClassStep emmetString) ;;
  let '(tagName, id, classes) := t in
  convertToHTMLElement tagName id classes innerText attributes.

(** ** [emmetToElements] and its closures *)

(** [regPattern.exec(s)], for the pattern "an opening parenthesis, a
    captured run of units that are not parentheses, a closing
    parenthesis": the match starts at the leftmost opening parenthesis
    whose following run of non-parenthesis units ends at a closing one;
    the result is the captured group [matchedGroup[1]]. *)
Definition isParen (c : ascii) : bool :=
  Ascii.eqb c "("%char || Ascii.eqb c ")"%char.

Fixpoint spanNoParen (s : str) : str * str :=
  match s with
  | [] => ([], [])
  | c :: r => if isParen c then ([], s)
              else let '(a, b) := spanNoParen r in (c :: a, b)
  end.

Fixpoint regPatternExec (s : str) : option str :=
  match s with
  | [] => None
  | c :: r =>
      if Ascii.eqb c "("%char then
        match spanNoParen r with
        | (inner, c' :: _) =>
            if Ascii.eqb c' ")"%char then Some inner else regPatternExec r
        | (_, []) => regPatternExec r
        end
      else regPatternExec r
  end.

Section Closures.

(** ["segment_" + parseInt(Math.random()*1000)] *)
Variable segment : str.

(** [mapStringToId], on the pair of [dividedSections] and
    [identifierCount] it closes over. *)
Definition mapStringToId (emmetString : str) (st : gmap str str * nat)
  : str * (gmap str str * nat) :=
  let uniqueIdentifier := segment ++ JS.numberToString (snd st) in
  (uniqueIdentifier, (<[uniqueIdentifier := emmetString]> (fst st), S (snd st))).

(** The [while] loop of [splitEmmetIntoSections]; [fuel] bounds the
    number of iterations. *)
Fixpoint sectionsLoop (fuel : nat) (emmetString : str) (st : gmap str str * nat)
  : str * gmap str str :=
  match fuel with
  | O => (emmetString, fst st)
  | S fuel' =>
      match regPatternExec emmetString with
      | None => (emmetString, fst st)
      | Some matchedGroup1 =>
          let '(uniqueIdentifier, st') := mapStringToId matchedGroup1 st in
          sectionsLoop fuel'
            (JS.replace ("("%char :: matchedGroup1 ++ [")"%char])
                        uniqueIdentifier emmetString)
            st'
      end
  end.

(** Returns [dataString] and [dividedSections].  Every iteration removes
    one [(], so [length emmetString] iterations are never used up (see
    [sectionsLoop_Grouping]). *)
Definition splitEmmetIntoSections (emmetString : str) : str * gmap str str :=
  sectionsLoop (S (length emmetString)) emmetString (∅, O).

Variable dividedSections : gmap str str.

(** The recursive occurrence of [createParalel], one call deeper. *)
Variable createParalelRec : str -> M (list (option ref)).

Definition createHTMLElement (component : str) : M (list (option ref)) :=
  match dividedSections !! component with
  | Some section => createParalelRec section
  | None => element <- simplifiedEmmetToElement component ;; ret [Some element]
  end.

(** The body of [components.forEach((component) => ...)], threading
    [traversalParent]. *)
Fixpoint componentsLoop (components : list str) (traversalParent : option ref)
  : M unit :=
  match components with
  | [] => ret tt
  | component :: rest =>
      children <- createHTMLElement component ;;
      forEach (fun child => DOM.appendChild traversalParent child) children ;;;
      componentsLoop rest (mjoin (head children))
  end.

(** [components.shift()] of an empty array is [undefined], which is
    falsy like the empty string; [[0]] of an empty array is
    [undefined]. *)
Definition createParental (emmetString : str) : M (option ref) :=
  let components := map JS.trim (JS.split ">"%char emmetString) in
  match components with
  | [] => throw InvalidEmmetString
  | firstComponent :: components =>
      if negb (JS.truthy firstComponent) then throw InvalidEmmetString
      else
        first <- createHTMLElement firstComponent ;;
        let parentComponent := mjoin (head first) in
        componentsLoop components parentComponent ;;;
        ret parentComponent
  end.

Definition createParalelBody (emmetString : str) : M (list (option ref)) :=
  let elements := map JS.trim (JS.split "+"%char emmetString) in
  arrayMap createParental elements.

End Closures.

(** [createParalel] at call depth [depth]. *)
Fixpoint createParalel (dividedSections : gmap str str) (depth : nat)
    (emmetString : str) : M (list (option ref)) :=
  match depth with
  | O => throw RangeError
  | S d =>
      createParalelBody dividedSections (createParalel dividedSections d) emmetString
  end.

(** [const segment = "segment_" + parseInt(Math.random()*1000)], where
    [rnd] is the value of [parseInt(Math.random()*1000)], a natural
    number below 1000. *)
Definition segmentOf (rnd : nat) : str :=
  lit "segment_" ++ JS.numberToString rnd.

Definition emmetToElements (depth rnd : nat) (emmetString : str)
  : M (list (option ref)) :=
  let segment := segmentOf rnd in
  let emmetString := normalize emmetString in
  let '(dataString, dividedSections) := splitEmmetIntoSections segment emmetString in
  createParalel dividedSections depth dataString.

(** ** Reading a result back as a tree *)

(** The element tree below a reference: the fields of the element and
    the trees of its children, in order. *)
#[local] Set Warnings "-register-all".
Inductive tree : Type :=
| Node (tag : str) (ident cls text : option str)
       (attrs : list (str * str)) (children : list tree).

Definition optionMap {A B} (f : A -> option B) : list A -> option (list B) :=
  fix go l :=
    match l with
    | [] => Some []
    | x :: r => match f x, go r with
                | Some y, Some ys => Some (y :: ys)
                | _, _ => None
                end
    end.

Fixpoint reify (fuel : nat) (h : dom) (r : ref) : option tree :=
  match fuel with
  | O => None
  | S f =>
      match h !! r with
      | None => None
      | Some e =>
          match optionMap (reify f h) (childNodes e) with
          | Some ts => Some (Node (tagName e) (id e) (className e)
                                  (textContent e) (attributes e) ts)
          | None => None
          end
      end
  end.

(** The forest of a returned array; [None] when an entry is
    [undefined] or dangling. *)
Definition reifyAll (h : dom) (l : list (option ref)) : option (list tree) :=
  optionMap (fun v => match v with
                      | Some r => reify (S (length h)) h r
                      | None => None
                      end) l.

(** Running an entry point in an empty document and reading the result
    back. *)
Definition expand (depth rnd : nat) (emmetString : str) : outcome (option (list tree)) :=
  match emmetToElements depth rnd emmetString [] with
  | Return (l, h) => Return (reifyAll h l)
  | Throw e => Throw e
  end.

Definition expandSingle (emmetString : str) : outcome (option tree) :=
  match simplifiedEmmetToElement emmetString [] with
  | Return (r, h) => Return (reify (S (length h)) h r)
  | Throw e => Throw e
  end.

(** * Specification-level notions

    The definitions below are not part of the source.  They name what the
    properties talk about: the closed form of a leaf, the grouping
    relation, and the tree-level semantics the store-level code is
    compared with. *)

(** ** Leaves *)

(** The element that [convertToHTMLElement] builds. *)
Definition leafElement (tagName : str) (id : option str) (classes : list str)
    (innerText : str) (attributes : list (str * str)) : element :=
  mkElement tagName
    (match id with
     | Some i => if JS.truthy i then Some (JS.trim i) else None
     | None => None
     end)
    (if (0 <? length classes)%nat then Some (JS.join (lit " ") classes) else None)
    (if JS.truthy innerText then Some innerText else None)
    attributes [] None.

(** The three parsing blocks of [simplifiedEmmetToElement] without the
    store. *)
Definition leafOf (emmetString : str) : outcome element :=
  let '(innerText, w1) := innerTextStep (normalize emmetString) in
  match attributesStep w1 with
  | Throw e => Throw e
  | Return (attributes, w2) =>
      match tagIdClassStep w2 with
      | Throw e => Throw e
      | Return (tagName, id, classes) =>
          Return (leafElement tagName id classes innerText attributes)
      end
  end.

(** The working string on which the attribute block operates, and the
    attribute text cut out of it. *)
Definition afterInnerText (emmetString : str) : str :=
  snd (innerTextStep (normalize emmetString)).

Definition attributeTextOf (w : str) : str :=
  JS.substring w (JS.lastIndexOf "["%char w + 1) (JS.indexOf "]"%char w).

Definition allWhite (s : str) : Prop :=
  Forall (fun c => JS.isWhiteSpace c = true) s.

Definition defaultDiv : element :=
  mkElement (lit "div") None None None [] [] None.

(** ** Resolution results *)

(** A non-empty array without [undefined] entries. *)
Definition populated (l : list (option ref)) : Prop :=
  l <> [] /\ Forall is_Some l.

(** The first piece of a descendant chain is empty after trimming. *)
Definition chainRootEmpty (piece : str) : bool :=
  negb (JS.truthy (hd [] (map JS.trim (JS.split ">"%char piece)))).

(** The pieces [createParalel] maps over at the top level of an input:
    the sibling split of [dataString]. *)
Definition topLevelPieces (rnd : nat) (emmetString : str) : list str :=
  map JS.trim
      (JS.split "+"%char
         (fst (splitEmmetIntoSections (segmentOf rnd) (normalize emmetString)))).

Definition topLevelSections (rnd : nat) (emmetString : str) : gmap str str :=
  snd (splitEmmetIntoSections (segmentOf rnd) (normalize emmetString)).

(** ** Grouping *)

Definition noParen (s : str) : Prop := Forall (fun c => isParen c = false) s.

(** [s] splits around its first innermost group: [inner] holds no
    parenthesis and no innermost group starts further left. *)
Definition firstGroup (s pre inner post : str) : Prop :=
  s = pre ++ "("%char :: inner ++ ")"%char :: post /\
  noParen inner /\
  forall pre' inner' post',
    s = pre' ++ "("%char :: inner' ++ ")"%char :: post' -> noParen inner' ->
    (length pre <= length pre')%nat.

Definition noGroup (s : str) : Prop :=
  forall pre inner post,
    s = pre ++ "("%char :: inner ++ ")"%char :: post -> ~ noParen inner.

(** The [k]-th placeholder token. *)
Definition tokenOf (segment : str) (k : nat) : str :=
  segment ++ JS.numberToString k.

(** Grouping preprocessing in the words of the specification: while a
    first innermost group exists, it is replaced, parentheses included,
    by the next token, which is not yet a key of the map, and the token is
    recorded with the inner text; the process stops when no group is
    left.  [Grouping segment k s m s' m'] runs from string [s], map [m]
    and counter [k] to the final string [s'] and map [m']. *)
Inductive Grouping (segment : str)
  : nat -> str -> gmap str str -> str -> gmap str str -> Prop :=
| Grouping_done k s m :
    noGroup s -> Grouping segment k s m s m
| Grouping_step k s m pre inner post s' m' :
    firstGroup s pre inner post ->
    m !! tokenOf segment k = None ->
    Grouping segment (S k)
      (pre ++ tokenOf segment k ++ post)
      (<[tokenOf segment k := inner]> m) s' m' ->
    Grouping segment k s m s' m'.

Definition isDigit (c : ascii) : bool :=
  (48 <=? nat_of_ascii c)%nat && (nat_of_ascii c <=? 57)%nat.

Definition digits (s : str) : Prop := Forall (fun c => isDigit c = true) s.

Definition countOf (c : ascii) (s : str) : nat := count_occ ascii_dec s c.

(** ** Tree-level semantics of composition

    The descendant and sibling composition on trees, without a store:
    every piece of a chain resolves to a forest, and the forest of a
    piece becomes the children of the first tree of the previous
    piece. *)

Definition leafTree (e : element) : tree :=
  Node (tagName e) (id e) (className e) (textContent e) (attributes e) [].

Definition addChildren (t : tree) (ts : list tree) : tree :=
  match t with
  | Node tag i c tx at_ ch => Node tag i c tx at_ (ch ++ ts)
  end.

Section TreeSemantics.
Variable dividedSections : gmap str str.
Variable recT : str -> outcome (list tree).

(** A piece is a placeholder (resolved by a recursive sibling expansion
    of its text) or a leaf. *)
Definition resolveT (component : str) : outcome (list tree) :=
  match dividedSections !! component with
  | Some section => recT section
  | None => match leafOf component with
            | Return e => Return [leafTree e]
            | Throw x => Throw x
            end
  end.

(** The forest hanging below the previous piece: the forest of the next
    piece, whose first tree receives the rest of the chain. *)
Fixpoint chainT (components : list str) : outcome (list tree) :=
  match components with
  | [] => Return []
  | component :: rest =>
      match resolveT component with
      | Throw x => Throw x
      | Return level =>
          match chainT rest with
          | Throw x => Throw x
          | Return below =>
              Return (match level with
                      | first :: others => addChildren first below :: others
                      | [] => []
                      end)
          end
      end
  end.

(** The chain returns the first tree of its first piece. *)
Definition createParentalT (emmetString : str) : outcome tree :=
  match map JS.trim (JS.split ">"%char emmetString) with
  | [] => Throw InvalidEmmetString
  | firstComponent :: components =>
      if negb (JS.truthy firstComponent) then Throw InvalidEmmetString
      else
        match resolveT firstComponent with
        | Throw x => Throw x
        | Return level =>
            match chainT components with
            | Throw x => Throw x
            | Return below =>
                match level with
                | first :: _ => Return (addChildren first below)
                | [] => Throw TypeError
                end
            end
        end
  end.

Definition createParalelBodyT (emmetString : str) : outcome (list tree) :=
  mapOutcome createParentalT (map JS.trim (JS.split "+"%char emmetString)).

End TreeSemantics.

Fixpoint createParalelT (dividedSections : gmap str str) (depth : nat)
    (emmetString : str) : outcome (list tree) :=
  match depth with
  | O => Throw RangeError
  | S d => createParalelBodyT dividedSections (createParalelT dividedSections d) emmetString
  end.

Definition expandT (depth rnd : nat) (emmetString : str) : outcome (list tree) :=
  let '(dataString, dividedSections) :=
    splitEmmetIntoSections (segmentOf rnd) (normalize emmetString) in
  createParalelT dividedSections depth dataString.

(** ** Trees in the store *)

(** [reprTo h hi r t]: below the bound [hi], the element at [r] and its
    descendants form the tree [t]; children are allocated after their
    parent. *)
Inductive reprTo (h : dom) (hi : nat) : ref -> tree -> Prop :=
| reprTo_node r e ts :
    (r < hi)%nat ->
    h !! r = Some e ->
    Forall (fun r' => (r < r')%nat) (childNodes e) ->
    Forall2 (reprTo h hi) (childNodes e) ts ->
    reprTo h hi r (Node (tagName e) (id e) (className e) (textContent e)
                        (attributes e) ts).

(** Everything of an element but its parent link. *)
Definition content (e : element) :=
  (tagName e, id e, className e, textContent e, attributes e, childNodes e).

Definition detached (h : dom) (r : ref) : Prop :=
  exists e, h !! r = Some e /\ parentNode e = None.

Definition rootAt (h : dom) (r : ref) (t : tree) : Prop :=
  reprTo h (length h) r t /\ detached h r.

(** [h'] keeps every element of [h] as it is. *)
Definition extends (h h' : dom) : Prop :=
  (length h <= length h')%nat /\ forall i, (i < length h)%nat -> h' !! i = h !! i.

Fixpoint increasingFrom (lo : nat) (rs : list ref) : Prop :=
  match rs with
  | [] => True
  | r :: rs' => (lo <= r)%nat /\ increasingFrom (S r) rs'
  end.

(** The result [l] of a resolution started in [h] and ended in [h']
    is a non-empty array of fresh detached roots of the trees [ts]. *)
Definition forestPost (h : dom) (l : list (option ref)) (h' : dom) (ts : list tree) : Prop :=
  exists rs, l = map Some rs /\ rs <> [] /\ extends h h' /\
             increasingFrom (length h) rs /\ Forall2 (rootAt h') rs ts.

Definition simulates (m : M (list (option ref))) (o : outcome (list tree)) : Prop :=
  forall h, match m h with
            | Throw e => o = Throw e
            | Return (l, h') => exists ts, o = Return ts /\ forestPost h l h' ts
            end.

Definition simulatesOne (m : M (option ref)) (o : outcome tree) : Prop :=
  forall h, match m h with
            | Throw x => o = Throw x
            | Return (v, h') =>
                exists r t, v = Some r /\ o = Return t /\ extends h h' /\
                            (length h <= r)%nat /\ rootAt h' r t
            end.

(** ** Comparing results *)

(** Boolean equality of trees, used to check an expansion for every
    possible draw of the random segment number. *)
Fixpoint treeEqb (t1 t2 : tree) : bool :=
  match t1, t2 with
  | Node a1 b1 c1 d1 e1 ch1, Node a2 b2 c2 d2 e2 ch2 =>
      bool_decide (a1 = a2) && bool_decide (b1 = b2) && bool_decide (c1 = c2)
      && bool_decide (d1 = d2) && bool_decide (e1 = e2)
      && (fix go (l1 l2 : list tree) : bool :=
            match l1, l2 with
            | [], [] => true
            | x :: r1, y :: r2 => treeEqb x y && go r1 r2
            | _, _ => false
            end) ch1 ch2
  end.

(** [expand depth rnd s] returns exactly the one tree [t]. *)
Definition expandsTo (depth : nat) (s : str) (t : nat -> tree) (rnd : nat) : bool :=
  match expand depth rnd s with
  | Return (Some [t']) => treeEqb t' (t rnd)
  | _ => false
  end.

(** ** Templates: strings with placeholders kept apart *)

(** A unit of the working string: a code unit of the input, or the
    [k]-th placeholder. *)
Inductive item : Type :=
| Ch (c : ascii)
| Hole (k : nat).

Abbreviation template := (list item).

(** The string a template stands for under a given segment. *)
Fixpoint inst (segment : str) (t : template) : str :=
  match t with
  | [] => []
  | Ch c :: r => c :: inst segment r
  | Hole k :: r => tokenOf segment k ++ inst segment r
  end.

Definition isParenItem (i : item) : bool :=
  match i with Ch c => isParen c | Hole _ => false end.

Definition isWhiteItem (i : item) : bool :=
  match i with Ch c => JS.isWhiteSpace c | Hole _ => false end.

Definition isCh (c : ascii) (i : item) : bool :=
  match i with Ch c' => Ascii.eqb c' c | Hole _ => false end.

Fixpoint spanNoParenT (t : template) : template * template :=
  match t with
  | [] => ([], [])
  | i :: r => if isParenItem i then ([], t)
              else let '(a, b) := spanNoParenT r in (i :: a, b)
  end.

(** The first innermost group of a template, with what precedes and
    follows it. *)
Fixpoint groupOf (t : template) : option (template * template * template) :=
  match t with
  | [] => None
  | i :: r =>
      let later := match groupOf r with
                   | Some (pre, inner, post) => Some (i :: pre, inner, post)
                   | None => None
                   end in
      if isCh "("%char i then
        match spanNoParenT r with
        | (inner, i' :: post) => if isCh ")"%char i' then Some ([], inner, post) else later
        | (_, []) => later
        end
      else later
  end.

(** Grouping on templates: the [k]-th group found is replaced by
    [Hole k] and its inner template is appended to the list. *)
Fixpoint groupLoopT (fuel : nat) (t : template) (sections : list template)
  : template * list template :=
  match fuel with
  | O => (t, sections)
  | S fuel' =>
      match groupOf t with
      | None => (t, sections)
      | Some (pre, inner, post) =>
          groupLoopT fuel' (pre ++ Hole (length sections) :: post) (sections ++ [inner])
      end
  end.

Definition groupT (s : str) : template * list template :=
  groupLoopT (S (length s)) (map Ch s) [].

Fixpoint splitT (sep : ascii) (t : template) : list template :=
  match t with
  | [] => [[]]
  | i :: r =>
      if isCh sep i then [] :: splitT sep r
      else match splitT sep r with
           | p :: ps => (i :: p) :: ps
           | [] => [[i]]
           end
  end.

Fixpoint trimStartT (t : template) : template :=
  match t with
  | [] => []
  | i :: r => if isWhiteItem i then trimStartT r else t
  end.

Definition trimT (t : template) : template :=
  rev (trimStartT (rev (trimStartT t))).

(** The chain pieces visited in a template: the trimmed [>]-pieces of
    its trimmed [+]-pieces. *)
Definition componentsT (t : template) : list template :=
  flat_map (fun p => map trimT (splitT ">"%char (trimT p)))
           (splitT "+"%char t).

Fixpoint charsOf (t : template) : option str :=
  match t with
  | [] => Some []
  | Ch c :: r => match charsOf r with Some s => Some (c :: s) | None => None end
  | Hole _ :: _ => None
  end.

(** A piece is fine when it is one placeholder of the list, or holds
    no placeholder and does not start like one. *)
Definition pieceOK (n : nat) (c : template) : bool :=
  match c with
  | [Hole k] => (k <? n)%nat
  | _ => match charsOf c with
         | Some s => negb (bool_decide (JS.stripPrefix (lit "segment_") s <> None))
         | None => false
         end
  end.

Definition templateOK (n : nat) (t : template) : bool :=
  forallb (pieceOK n) (componentsT t).

(** Every group of the input is by itself a whole chain piece, and no
    other piece starts with [segment_]. *)
Definition wellGrouped (emmetString : str) : bool :=
  let '(t, sections) := groupT (normalize emmetString) in
  templateOK (length sections) t && forallb (templateOK (length sections)) sections.


(** A code unit that is neither a parenthesis, white space, [+] nor [>]. *)
Definition plain (c : ascii) : bool :=
  negb (isParen c || JS.isWhiteSpace c
        || Ascii.eqb c "+"%char || Ascii.eqb c ">"%char).

(** What the properties need of a segment: plain units only, and the
    prefix [segment_]. *)
Definition goodSegment (segment : str) : Prop :=
  Forall (fun c => plain c = true) segment /\
  exists rest, segment = lit "segment_" ++ rest.

(** The map holds exactly the placeholders of the list, each with the
    string of its template. *)
Definition represents (segment : str) (sections : list template) (m : gmap str str) : Prop :=
  forall key v,
    m !! key = Some v <->
    exists k t, sections !! k = Some t /\ key = tokenOf segment k /\ v = inst segment t.

(** ** Notions for the further properties *)

(** *** Normal form *)

(** A string in normal form: the only white-space unit is the space, and
    no space is followed by white space. *)
Fixpoint tidy (s : str) : bool :=
  match s with
  | [] => true
  | c :: r =>
      (if JS.isWhiteSpace c
       then Ascii.eqb c " "%char
            && match r with
               | c' :: _ => negb (JS.isWhiteSpace c')
               | [] => true
               end
       else true) && tidy r
  end.

(** *** Written form of a leaf

    The shorthand that spells out a tag name, an id, classes, attributes
    and a text, used to state what the leaf expander reads back. *)









(** *** Balanced parentheses *)

(** The nesting depth after reading [s] at depth [d]; [None] when a
    closing parenthesis has no opening one. *)
Fixpoint nesting (d : nat) (s : str) : option nat :=
  match s with
  | [] => Some d
  | c :: r =>
      if Ascii.eqb c "("%char then nesting (S d) r
      else if Ascii.eqb c ")"%char then
             match d with
             | O => None
             | S d' => nesting d' r
             end
           else nesting d r
  end.

Definition balanced (s : str) : bool :=
  match nesting 0 s with
  | Some O => true
  | _ => false
  end.

(** *** Placeholder numbers in a template *)

(** Every placeholder of the template has a number below [b]. *)
Definition holeBelow (b : nat) (i : item) : bool :=
  match i with
  | Hole k => (k <? b)%nat
  | Ch _ => true
  end.

Definition holesBelow (b : nat) (t : template) : bool := forallb (holeBelow b) t.

(** * Properties *)

(** ** Facts about the string primitives *)

Module JSFacts.
Import JS.

Lemma eqb_true_iff (a b : ascii) : Ascii.eqb a b = true <-> a = b.
Proof. apply Ascii.eqb_eq. Qed.

Lemma split_nonempty sep s : split sep s <> [].
Proof.
  destruct s as [|c r]; simpl; [discriminate|].
  destruct (Ascii.eqb c sep); [discriminate|].
  destruct (split sep r); discriminate.
Qed.

Lemma split_cons_sep sep r : split sep (sep :: r) = [] :: split sep r.
Proof. simpl. now rewrite Ascii.eqb_refl. Qed.

Lemma split_cons_other sep c r :
  c <> sep ->
  exists p ps, split sep r = p :: ps /\ split sep (c :: r) = (c :: p) :: ps.
Proof.
  intros Hne. simpl.
  destruct (Ascii.eqb_spec c sep) as [->|_]; [contradiction|].
  destruct (split sep r) as [|p ps] eqn:E.
  - now apply split_nonempty in E.
  - eauto.
Qed.

Lemma split_notin sep s : ~ In sep s -> split sep s = [s].
Proof.
  induction s as [|c r IH]; intros Hn; [reflexivity|].
  simpl in *.
  destruct (Ascii.eqb_spec c sep) as [->|Hne]; [tauto|].
  rewrite IH by tauto. reflexivity.
Qed.

Lemma split_app sep x y :
  ~ In sep x -> split sep (x ++ sep :: y) = x :: split sep y.
Proof.
  induction x as [|c r IH]; intros Hn.
  - apply split_cons_sep.
  - simpl in *.
    destruct (Ascii.eqb_spec c sep) as [->|Hne]; [tauto|].
    rewrite IH by tauto. reflexivity.
Qed.

Lemma split_app_general sep x y :
  split sep (x ++ sep :: y) = split sep x ++ split sep y.
Proof.
  induction x as [|c r IH].
  - apply split_cons_sep.
  - simpl. destruct (Ascii.eqb c sep).
    + now rewrite IH.
    + rewrite IH.
      destruct (split sep r) as [|p ps] eqn:E; [now apply split_nonempty in E|].
      reflexivity.
Qed.

Lemma split_pieces_free sep s : Forall (fun p => ~ In sep p) (split sep s).
Proof.
  induction s as [|c r IH]; simpl.
  - constructor; [tauto|constructor].
  - destruct (Ascii.eqb_spec c sep) as [->|Hne].
    + constructor; [tauto|exact IH].
    + destruct (split sep r) as [|p ps]; inversion IH; subst.
      * constructor; [|constructor]. simpl. tauto.
      * constructor; [|assumption]. simpl. tauto.
Qed.

Lemma join_split sep s : join [sep] (split sep s) = s.
Proof.
  induction s as [|c r IH]; [reflexivity|].
  simpl. destruct (Ascii.eqb_spec c sep) as [->|Hne].
  - pose proof (split_nonempty sep r) as Hne.
    destruct (split sep r) as [|p ps]; [contradiction|].
    simpl in *. now rewrite IH.
  - pose proof (split_nonempty sep r) as Hn.
    destruct (split sep r) as [|p ps]; [contradiction|].
    simpl in *. destruct ps; simpl in *; now rewrite <- IH.
Qed.

Lemma split_length sep s :
  length (split sep s) = S (count_occ ascii_dec s sep).
Proof.
  induction s as [|c r IH]; [reflexivity|].
  simpl. destruct (Ascii.eqb_spec c sep) as [->|Hne].
  - simpl. rewrite IH. now destruct (ascii_dec sep sep).
  - destruct (ascii_dec c sep); [contradiction|].
    pose proof (split_nonempty sep r) as Hn.
    destruct (split sep r) as [|p ps]; [contradiction|]. exact IH.
Qed.

(** trim *)
Lemma trimStart_suffix s : exists w, s = w ++ trimStart s /\ Forall (fun c => isWhiteSpace c = true) w.
Proof.
  induction s as [|c r [w [IH1 IH2]]]; simpl.
  - exists []. split; [reflexivity|constructor].
  - destruct (isWhiteSpace c) eqn:E.
    + exists (c :: w). split; [simpl; now rewrite <- IH1|constructor; assumption].
    + exists []. split; [reflexivity|constructor].
Qed.

Lemma trim_infix s : exists w1 w2, s = w1 ++ trim s ++ w2
  /\ Forall (fun c => isWhiteSpace c = true) w1
  /\ Forall (fun c => isWhiteSpace c = true) w2.
Proof.
  unfold trim, trimEnd.
  destruct (trimStart_suffix s) as [w1 [H1 F1]].
  destruct (trimStart_suffix (rev (trimStart s))) as [w2 [H2 F2]].
  exists w1, (rev w2). split; [|split; [assumption|]].
  - rewrite H1 at 1. f_equal.
    rewrite <- (rev_involutive (trimStart s)) at 1.
    rewrite H2 at 1. now rewrite rev_app_distr.
  - apply List.Forall_forall. intros x Hx. apply in_rev in Hx.
    rewrite List.Forall_forall in F2. auto.
Qed.

Lemma trim_in c s : In c (trim s) -> In c s.
Proof.
  destruct (trim_infix s) as [w1 [w2 [H _]]]. intros Hc.
  rewrite H. apply in_or_app. right. apply in_or_app. now left.
Qed.

Lemma trimStart_white s :
  Forall (fun c => isWhiteSpace c = true) s -> trimStart s = [].
Proof. induction 1 as [|c r Hc _ IH]; simpl; [reflexivity|]. rewrite Hc. exact IH. Qed.

Lemma trim_white s :
  Forall (fun c => isWhiteSpace c = true) s -> trim s = [].
Proof. intros H. unfold trim, trimEnd. rewrite (trimStart_white s) by assumption. reflexivity. Qed.

(** indexOf, lastIndexOf *)
Lemma indexOfFrom_notin c s i : ~ In c s -> indexOfFrom c s i = (-1)%Z.
Proof.
  revert i. induction s as [|x r IH]; intros i Hn; [reflexivity|].
  simpl in *. destruct (Ascii.eqb_spec x c) as [->|Hne]; [tauto|].
  apply IH. tauto.
Qed.

Lemma indexOfFrom_app c pre post i :
  ~ In c pre ->
  indexOfFrom c (pre ++ c :: post) i = (i + Z.of_nat (length pre))%Z.
Proof.
  revert i. induction pre as [|x r IH]; intros i Hn; simpl in *.
  - rewrite Ascii.eqb_refl. lia.
  - destruct (Ascii.eqb_spec x c) as [->|Hne]; [tauto|].
    rewrite IH by tauto. lia.
Qed.

Lemma indexOf_notin c s : ~ In c s -> indexOf c s = (-1)%Z.
Proof. apply indexOfFrom_notin. Qed.

Lemma indexOf_app c pre post :
  ~ In c pre -> indexOf c (pre ++ c :: post) = Z.of_nat (length pre).
Proof. intros H. unfold indexOf. now rewrite indexOfFrom_app. Qed.

Lemma in_split_first (c : ascii) s :
  In c s -> exists pre post, s = pre ++ c :: post /\ ~ In c pre.
Proof.
  induction s as [|x r IH]; intros Hin; [destruct Hin|].
  destruct (ascii_dec x c) as [->|Hne].
  - exists [], r. split; [reflexivity|intros []].
  - destruct Hin as [->|Hin]; [contradiction|].
    destruct (IH Hin) as [pre [post [-> Hn]]].
    exists (x :: pre), post. split; [reflexivity|].
    simpl. tauto.
Qed.

Lemma in_split_last (c : ascii) s :
  In c s -> exists pre post, s = pre ++ c :: post /\ ~ In c post.
Proof.
  induction s as [|x r IH]; intros Hin; [destruct Hin|].
  destruct (in_dec ascii_dec c r) as [Hr|Hr].
  - destruct (IH Hr) as [pre [post [-> Hn]]].
    exists (x :: pre), post. split; [reflexivity|assumption].
  - destruct Hin as [->|Hin]; [|contradiction].
    exists [], r. split; [reflexivity|assumption].
Qed.

Lemma indexOf_found c s : indexOf c s <> (-1)%Z -> In c s.
Proof.
  intros H. destruct (in_dec ascii_dec c s) as [Hin|Hn]; [assumption|].
  now rewrite indexOf_notin in H.
Qed.


Lemma lastIndexOfFrom_notin c s i found :
  ~ In c s -> lastIndexOfFrom c s i found = found.
Proof.
  revert i found. induction s as [|x r IH]; intros i found Hn; [reflexivity|].
  simpl in *. destruct (Ascii.eqb_spec x c) as [->|Hne]; [tauto|].
  apply IH. tauto.
Qed.

Lemma lastIndexOfFrom_app c pre post i found :
  ~ In c post ->
  lastIndexOfFrom c (pre ++ c :: post) i found = (i + Z.of_nat (length pre))%Z.
Proof.
  revert i found. induction pre as [|x r IH]; intros i found Hn; simpl.
  - rewrite Ascii.eqb_refl. rewrite lastIndexOfFrom_notin by assumption. lia.
  - rewrite IH by assumption. lia.
Qed.

Lemma lastIndexOf_notin c s : ~ In c s -> lastIndexOf c s = (-1)%Z.
Proof. apply lastIndexOfFrom_notin. Qed.

Lemma lastIndexOf_app c pre post :
  ~ In c post -> lastIndexOf c (pre ++ c :: post) = Z.of_nat (length pre).
Proof. intros H. unfold lastIndexOf. now rewrite lastIndexOfFrom_app. Qed.


Lemma lastIndexOf_in c s : In c s -> lastIndexOf c s <> (-1)%Z.
Proof.
  intros Hin. destruct (in_split_last c s Hin) as [pre [post [-> Hn]]].
  rewrite lastIndexOf_app by assumption. lia.
Qed.

(** substring *)
Lemma substring_range (s : str) (a b : nat) :
  (a <= b <= length s)%nat ->
  substring s (Z.of_nat a) (Z.of_nat b) = take (b - a) (drop a s).
Proof.
  intros H. unfold substring, clamp. cbv zeta.
  replace (Z.max 0 (Z.min (Z.of_nat a) (Z.of_nat (length s)))) with (Z.of_nat a) by lia.
  replace (Z.max 0 (Z.min (Z.of_nat b) (Z.of_nat (length s)))) with (Z.of_nat b) by lia.
  replace (Z.min (Z.of_nat a) (Z.of_nat b)) with (Z.of_nat a) by lia.
  replace (Z.max (Z.of_nat a) (Z.of_nat b)) with (Z.of_nat b) by lia.
  rewrite Nat2Z.id. f_equal. lia.
Qed.


Lemma substring_middle (pre mid post : str) :
  substring (pre ++ mid ++ post)
            (Z.of_nat (length pre)) (Z.of_nat (length pre + length mid)) = mid.
Proof.
  rewrite substring_range by (rewrite !length_app; lia).
  rewrite drop_app_length.
  replace (length pre + length mid - length pre)%nat with (length mid) by lia.
  now rewrite take_app_length.
Qed.

End JSFacts.

Import JSFacts.

(** ** The leaf expander *)

Lemma innerTextStep_none w :
  ~ In "{"%char w -> innerTextStep w = ([], w).
Proof.
  intros H. unfold innerTextStep. now rewrite lastIndexOf_notin.
Qed.



Lemma update_last (h : dom) (e : element) f :
  DOM.update (length h) f (h ++ [e]) = Return (tt, h ++ [f e]).
Proof.
  unfold DOM.update. rewrite list_lookup_middle by reflexivity.
  rewrite (insert_app_r_alt h [e] (length h)) by lia.
  now rewrite Nat.sub_diag.
Qed.

Lemma forEach_setAttribute (h : dom) (e : element) attrs :
  forEach (fun attr => DOM.setAttribute (length h) (fst attr) (snd attr)) attrs (h ++ [e])
  = Return (tt, h ++ [mkElement (tagName e) (id e) (className e) (textContent e)
                                (attributes e ++ attrs) (childNodes e) (parentNode e)]).
Proof.
  revert e. induction attrs as [|[n v] r IH]; intros e; simpl.
  - unfold ret. rewrite app_nil_r. now destruct e.
  - unfold bind, DOM.setAttribute. rewrite update_last.
    rewrite IH. simpl. now rewrite <- app_assoc.
Qed.

Lemma convertToHTMLElement_spec tag ident classes innerText attrs (h : dom) :
  convertToHTMLElement tag ident classes innerText attrs h
  = Return (length h, h ++ [leafElement tag ident classes innerText attrs]).
Proof.
  unfold convertToHTMLElement, bind, DOM.createElement, leafElement.
  assert (Hid : forall e : element,
    match ident with
    | Some i => if JS.truthy i then DOM.setId (length h) (JS.trim i) else ret tt
    | None => ret tt
    end (h ++ [e])
    = Return (tt, h ++ [mkElement (tagName e)
         (match ident with
          | Some i => if JS.truthy i then Some (JS.trim i) else id e
          | None => id e end)
         (className e) (textContent e) (attributes e)
         (childNodes e) (parentNode e)])).
  { intros e. destruct ident as [i|]; [destruct (JS.truthy i)|];
      try (unfold ret; now destruct e).
    unfold DOM.setId. now rewrite update_last. }
  rewrite Hid. simpl.
  destruct (0 <? length classes)%nat.
  - unfold DOM.setClassName. rewrite update_last. simpl.
    destruct (JS.truthy innerText).
    + unfold DOM.setTextContent. rewrite update_last. simpl.
      rewrite forEach_setAttribute. reflexivity.
    + unfold ret at 1. rewrite forEach_setAttribute. reflexivity.
  - unfold ret at 1.
    destruct (JS.truthy innerText).
    + unfold DOM.setTextContent. rewrite update_last. simpl.
      rewrite forEach_setAttribute. reflexivity.
    + unfold ret at 1. rewrite forEach_setAttribute. reflexivity.
Qed.

Lemma simplifiedEmmetToElement_leafOf s (h : dom) :
  simplifiedEmmetToElement s h =
  match leafOf s with
  | Return e => Return (length h, h ++ [e])
  | Throw x => Throw x
  end.
Proof.
  unfold simplifiedEmmetToElement, leafOf.
  destruct (innerTextStep (normalize s)) as [innerText w1].
  unfold bind, lift.
  destruct (attributesStep w1) as [[attributes w2]|x]; [|reflexivity].
  destruct (tagIdClassStep w2) as [[[tagName id] classes]|x]; [|reflexivity].
  apply convertToHTMLElement_spec.
Qed.

Lemma collapseWhiteSpace_white s :
  allWhite s -> s <> [] -> JS.collapseWhiteSpace s = [" "%char].
Proof.
  induction 1 as [|c r Hc Hr IH]; intros Hne; [contradiction|].
  simpl. rewrite Hc. destruct r as [|c' r']; [reflexivity|].
  inversion Hr as [|? ? Hc' _]; subst. rewrite Hc'. apply IH. discriminate.
Qed.

Lemma removeTabNlCr_white s : allWhite s -> allWhite (JS.removeTabNlCr s).
Proof.
  unfold allWhite, JS.removeTabNlCr. rewrite !List.Forall_forall.
  intros H x Hx. apply List.filter_In in Hx. apply H, Hx.
Qed.

Lemma normalize_white s :
  allWhite s -> normalize s = [] \/ normalize s = [" "%char].
Proof.
  intros H. unfold normalize.
  destruct (JS.removeTabNlCr s) as [|c r] eqn:E; [now left|right].
  apply collapseWhiteSpace_white; [|discriminate].
  rewrite <- E. now apply removeTabNlCr_white.
Qed.

(** attributes *)
Lemma parseAttribute_no_eq tok :
  ~ In "="%char tok -> parseAttribute tok = Throw TypeError.
Proof.
  intros H. unfold parseAttribute.
  rewrite split_notin; [reflexivity|].
  intros Hin. apply H. now apply trim_in.
Qed.

Lemma parseAttribute_exn tok e : parseAttribute tok = Throw e -> e = TypeError.
Proof.
  unfold parseAttribute.
  destruct (JS.split "="%char (JS.trim tok)) as [|p0 [|p1 ps]]; try congruence.
  destruct (negb _); discriminate.
Qed.

Lemma mapOutcome_throw {A B} (f : A -> outcome B) (l : list A) (x : A) (e : exn) :
  In x l -> f x = Throw e ->
  (forall y e', f y = Throw e' -> e' = e) ->
  mapOutcome f l = Throw e.
Proof.
  intros Hin Hx Hall. induction l as [|y r IH]; [destruct Hin|].
  simpl. destruct (f y) as [b|e'] eqn:E.
  - destruct Hin as [->|Hin]; [congruence|].
    now rewrite IH.
  - f_equal. eauto.
Qed.

Lemma attributesStep_throw w tok :
  JS.lastIndexOf "["%char w <> (-1)%Z ->
  In tok (attributeTokens
            (JS.substring w (JS.lastIndexOf "["%char w + 1) (JS.indexOf "]"%char w))) ->
  ~ In "="%char tok ->
  attributesStep w = Throw TypeError.
Proof.
  intros Hidx Hin Hne. unfold attributesStep.
  destruct (Z.eqb_spec (JS.lastIndexOf "["%char w) (-1)) as [E|_]; [contradiction|].
  simpl negb. cbv iota.
  rewrite (mapOutcome_throw parseAttribute _ tok TypeError Hin);
    [reflexivity|now apply parseAttribute_no_eq|apply parseAttribute_exn].
Qed.

Lemma attribute_without_equals (s : str) (h : dom) (tok : str) :
  let w := snd (innerTextStep (normalize s)) in
  JS.lastIndexOf "["%char w <> (-1)%Z ->
  In tok (attributeTokens
            (JS.substring w (JS.lastIndexOf "["%char w + 1) (JS.indexOf "]"%char w))) ->
  ~ In "="%char tok ->
  simplifiedEmmetToElement s h = Throw TypeError.
Proof.
  intros w Hidx Hin Hne.
  rewrite simplifiedEmmetToElement_leafOf. unfold leafOf.
  subst w. destruct (innerTextStep (normalize s)) as [innerText w1]. simpl in *.
  now rewrite (attributesStep_throw w1 tok).
Qed.

(** The attribute text of a well-formed block. *)
Lemma attributeText_block pre body post :
  ~ In "["%char body -> ~ In "["%char post ->
  ~ In "]"%char pre -> ~ In "]"%char body ->
  let w := pre ++ "["%char :: body ++ "]"%char :: post in
  JS.lastIndexOf "["%char w <> (-1)%Z /\ attributeTextOf w = body.
Proof.
  intros H1 H2 H3 H4 w. subst w. unfold attributeTextOf.
  rewrite lastIndexOf_app.
  2:{ rewrite in_app_iff. simpl. intros [?|[Heq|?]]; try tauto. discriminate. }
  split; [lia|].
  set (pre' := pre ++ ["["%char]).
  assert (HS : pre ++ "["%char :: body ++ "]"%char :: post
               = pre' ++ body ++ "]"%char :: post)
    by (unfold pre'; now rewrite <- app_assoc).
  assert (Hi : JS.indexOf "]"%char (pre' ++ body ++ "]"%char :: post)
               = Z.of_nat (length pre' + length body)).
  { rewrite app_assoc, indexOf_app; [now rewrite length_app|].
    unfold pre'. rewrite !in_app_iff. simpl.
    intros [[?|[Heq|[]]]|?]; try tauto. discriminate. }
  rewrite HS, Hi.
  replace (Z.of_nat (length pre) + 1)%Z with (Z.of_nat (length pre'))
    by (unfold pre'; rewrite length_app; simpl; lia).
  apply substring_middle.
Qed.




(** tag, id, classes *)
Lemma tagIdClassStep_spec w :
  exists beforeClasses rawClasses tag rest,
    JS.split "."%char w = beforeClasses :: rawClasses /\
    JS.split "#"%char beforeClasses = tag :: rest /\
    tagIdClassStep w =
      Return (if JS.truthy (JS.trim tag) then JS.trim tag else lit "div",
              head rest, map JS.trim rawClasses).
Proof.
  unfold tagIdClassStep.
  destruct (JS.split "."%char w) as [|b cs] eqn:E1;
    [now apply split_nonempty in E1|].
  destruct (JS.split "#"%char b) as [|t rest] eqn:E2;
    [now apply split_nonempty in E2|].
  exists b, cs, t, rest. rewrite E2. repeat split; reflexivity.
Qed.

Lemma count_occ_split_index (x y : str) :
  JS.split "."%char (x ++ "."%char :: "."%char :: y) !! S (count_occ ascii_dec x "."%char)
  = Some [].
Proof.
  rewrite split_app_general, split_cons_sep.
  rewrite <- split_length.
  rewrite lookup_app_r by lia. now rewrite Nat.sub_diag.
Qed.

(** ** Arrays of results *)

Lemma arrayMap_app {A B} (f : A -> M B) (l1 l2 : list A) (h : dom) :
  arrayMap f (l1 ++ l2) h =
  match arrayMap f l1 h with
  | Return (vs, h1) =>
      match arrayMap f l2 h1 with
      | Return (ws, h2) => Return (vs ++ ws, h2)
      | Throw e => Throw e
      end
  | Throw e => Throw e
  end.
Proof.
  revert h. induction l1 as [|x r IH]; intros h; simpl.
  - unfold ret. destruct (arrayMap f l2 h) as [[ws h2]|e]; reflexivity.
  - unfold bind, ret. destruct (f x h) as [[y h1]|e]; [|reflexivity].
    rewrite IH. destruct (arrayMap f r h1) as [[vs h2]|e]; [|reflexivity].
    destruct (arrayMap f l2 h2) as [[ws h3]|e]; reflexivity.
Qed.

Lemma arrayMap_Forall2 {A B} (f : A -> M B) (P : A -> B -> Prop) (l : list A) :
  (forall x h v h', In x l -> f x h = Return (v, h') -> P x v) ->
  forall h vs h', arrayMap f l h = Return (vs, h') -> Forall2 P l vs.
Proof.
  induction l as [|x r IH]; intros Hf h vs h' H; simpl in H.
  - injection H as <- <-. constructor.
  - unfold bind in H. destruct (f x h) as [[y h1]|e] eqn:E; [|discriminate].
    destruct (arrayMap f r h1) as [[ys h2]|e] eqn:E'; [|discriminate].
    injection H as <- <-. constructor.
    + eapply Hf; [now left|eassumption].
    + eapply IH; [|eassumption]. intros; eapply Hf; [now right|eassumption].
Qed.

Lemma arrayMap_throw_at {A B} (f : A -> M B) (l : list A) (x : A) (h : dom) :
  In x l -> (forall h0, isThrow (f x h0) = true) ->
  isThrow (arrayMap f l h) = true.
Proof.
  intros Hin Hx. revert h. induction l as [|y r IH]; intros h; [destruct Hin|].
  simpl. unfold bind. destruct (f y h) as [[v h1]|e] eqn:E; [|reflexivity].
  destruct Hin as [->|Hin].
  - specialize (Hx h). now rewrite E in Hx.
  - specialize (IH Hin h1). destruct (arrayMap f r h1) as [[vs h2]|e]; [discriminate|reflexivity].
Qed.

(** ** Resolution never returns an empty array *)
Section Resolution.
Variable dividedSections : gmap str str.

Lemma populated_head l : populated l -> exists r, mjoin (head l) = Some r.
Proof.
  intros [Hne Hall]. destruct l as [|v l']; [contradiction|].
  inversion Hall as [|? ? [r ->] _]; subst. now exists r.
Qed.

Section Step.
Variable rec : str -> M (list (option ref)).
Hypothesis rec_populated :
  forall s h l h', rec s h = Return (l, h') -> populated l.

Lemma createHTMLElement_populated c h l h' :
  createHTMLElement dividedSections rec c h = Return (l, h') -> populated l.
Proof.
  unfold createHTMLElement.
  destruct (dividedSections !! c) as [section|]; [apply rec_populated|].
  unfold bind. rewrite simplifiedEmmetToElement_leafOf.
  destruct (leafOf c) as [e|x]; [|discriminate].
  intros H. injection H as <- <-.
  split; [discriminate|]. constructor; [now eexists|constructor].
Qed.

Lemma createParental_some s h v h' :
  createParental dividedSections rec s h = Return (v, h') -> is_Some v.
Proof.
  unfold createParental.
  destruct (map JS.trim (JS.split ">"%char s)) as [|c cs]; [discriminate|].
  destruct (negb (JS.truthy c)); [discriminate|].
  unfold bind.
  destruct (createHTMLElement dividedSections rec c h) as [[l h1]|x] eqn:E; [|discriminate].
  destruct (componentsLoop dividedSections rec cs (mjoin (head l)) h1) as [[[] h2]|x];
    [|discriminate].
  intros H. injection H as <- <-.
  apply createHTMLElement_populated in E.
  destruct (populated_head l E) as [r ->]. now eexists.
Qed.

Lemma createParalelBody_populated s h l h' :
  createParalelBody dividedSections rec s h = Return (l, h') ->
  populated l /\ length l = length (JS.split "+"%char s).
Proof.
  unfold createParalelBody. intros H.
  pose proof (arrayMap_Forall2 _ (fun _ v => is_Some v) _
    (fun x h v h' _ => createParental_some x h v h') _ _ _ H) as HF.
  pose proof (Forall2_length _ _ _ HF) as HL. rewrite length_map in HL.
  split; [split|congruence].
  - intros ->. simpl in HL.
    pose proof (split_nonempty "+"%char s). destruct (JS.split "+"%char s); [contradiction|discriminate].
  - clear -HF. induction HF; constructor; assumption.
Qed.
End Step.

Lemma createParalel_populated depth s h l h' :
  createParalel dividedSections depth s h = Return (l, h') ->
  populated l /\ length l = length (JS.split "+"%char s).
Proof.
  revert s h l h'. induction depth as [|d IH]; intros s h l h'; [discriminate|].
  simpl. apply createParalelBody_populated.
  intros s0 h0 l0 h0' H0. now apply IH in H0.
Qed.

End Resolution.

Lemma createParental_rootEmpty ds rec piece h :
  chainRootEmpty piece = true ->
  createParental ds rec piece h = Throw InvalidEmmetString.
Proof.
  unfold chainRootEmpty, createParental.
  destruct (map JS.trim (JS.split ">"%char piece)) as [|c cs]; [reflexivity|].
  simpl. now intros ->.
Qed.

(** ** The grouping preprocessor *)

Lemma spanNoParen_spec s :
  s = fst (spanNoParen s) ++ snd (spanNoParen s) /\
  noParen (fst (spanNoParen s)) /\
  (snd (spanNoParen s) = [] \/
   exists c b, snd (spanNoParen s) = c :: b /\ isParen c = true).
Proof.
  induction s as [|c r [IH1 [IH2 IH3]]]; simpl.
  - repeat split; [constructor|now left].
  - destruct (isParen c) eqn:E; simpl.
    + repeat split; [constructor|right; eauto].
    + destruct (spanNoParen r) as [a b]; simpl in *.
      repeat split; [congruence|constructor; assumption|assumption].
Qed.

Lemma spanNoParen_app a c b :
  noParen a -> isParen c = true -> spanNoParen (a ++ c :: b) = (a, c :: b).
Proof.
  intros Ha Hc. induction Ha as [|x a Hx Ha IH]; simpl.
  - now rewrite Hc.
  - now rewrite Hx, IH.
Qed.

Lemma regPatternExec_head inner post :
  noParen inner ->
  regPatternExec ("("%char :: inner ++ ")"%char :: post) = Some inner.
Proof.
  intros H. simpl. now rewrite spanNoParen_app.
Qed.

Lemma regPatternExec_cons c r :
  (forall inner post, noParen inner -> c :: r <> "("%char :: inner ++ ")"%char :: post) ->
  regPatternExec (c :: r) = regPatternExec r.
Proof.
  intros H. simpl. destruct (Ascii.eqb_spec c "("%char) as [->|Hne]; [|reflexivity].
  destruct (spanNoParen_spec r) as [H1 [H2 H3]].
  destruct (spanNoParen r) as [a b]; simpl in *.
  destruct b as [|c' b']; [reflexivity|].
  destruct (Ascii.eqb_spec c' ")"%char) as [->|Hne']; [|reflexivity].
  exfalso. apply (H a b' H2). now rewrite H1.
Qed.

Lemma noParen_app a b : noParen (a ++ b) <-> noParen a /\ noParen b.
Proof. apply Forall_app. Qed.

Lemma headGroup_dec (s : str) :
  (exists inner post, noParen inner /\ s = "("%char :: inner ++ ")"%char :: post) \/
  (forall inner post, noParen inner -> s <> "("%char :: inner ++ ")"%char :: post).
Proof.
  destruct s as [|c r]; [right; intros; discriminate|].
  destruct (Ascii.eqb_spec c "("%char) as [->|Hne];
    [|right; intros inner post _ H; injection H as H _; contradiction].
  destruct (spanNoParen_spec r) as [H1 [H2 H3]].
  destruct (spanNoParen r) as [a b] eqn:E; simpl in *.
  destruct b as [|c' b'].
  - right. intros inner post Hn H. injection H as H.
    rewrite H, spanNoParen_app in E by (assumption || reflexivity). discriminate.
  - destruct (Ascii.eqb_spec c' ")"%char) as [->|Hne'].
    + left. exists a, b'. split; [assumption|now rewrite H1].
    + right. intros inner post Hn H. injection H as H.
      rewrite H, spanNoParen_app in E by (assumption || reflexivity).
      injection E as _ E. congruence.
Qed.

Lemma firstGroup_head inner post :
  noParen inner -> firstGroup ("("%char :: inner ++ ")"%char :: post) [] inner post.
Proof. intros H. split; [reflexivity|]. split; [assumption|]. intros; simpl; lia. Qed.

Lemma firstGroup_cons c r pre inner post :
  (forall inner' post', noParen inner' -> c :: r <> "("%char :: inner' ++ ")"%char :: post') ->
  firstGroup r pre inner post -> firstGroup (c :: r) (c :: pre) inner post.
Proof.
  intros Hno [H1 [H2 H3]]. split; [now rewrite H1|]. split; [assumption|].
  intros pre' inner' post' Heq Hn.
  destruct pre' as [|c0 pre'']; [exfalso; now apply (Hno inner' post')|].
  injection Heq as _ Heq. simpl. apply le_n_S. eauto.
Qed.

Lemma noGroup_cons c r :
  (forall inner' post', noParen inner' -> c :: r <> "("%char :: inner' ++ ")"%char :: post') ->
  noGroup r -> noGroup (c :: r).
Proof.
  intros Hno H pre inner post Heq Hn.
  destruct pre as [|c0 pre']; [now apply (Hno inner post)|].
  injection Heq as _ Heq. now apply (H pre' inner post).
Qed.

Lemma regPatternExec_Some s inner :
  regPatternExec s = Some inner -> exists pre post, firstGroup s pre inner post.
Proof.
  induction s as [|c r IH]; intros H; [discriminate|].
  destruct (headGroup_dec (c :: r)) as [[inner0 [post0 [Hn0 Heq]]]|Hno].
  - rewrite Heq, regPatternExec_head in H by assumption. injection H as <-.
    exists [], post0. rewrite Heq. now apply firstGroup_head.
  - rewrite regPatternExec_cons in H by assumption.
    destruct (IH H) as [pre [post HF]].
    exists (c :: pre), post. now apply firstGroup_cons.
Qed.

Lemma regPatternExec_None s : regPatternExec s = None -> noGroup s.
Proof.
  induction s as [|c r IH]; intros H.
  - intros [|? ?] ? ? Heq; discriminate.
  - destruct (headGroup_dec (c :: r)) as [[inner0 [post0 [Hn0 Heq]]]|Hno].
    + rewrite Heq, regPatternExec_head in H by assumption. discriminate.
    + rewrite regPatternExec_cons in H by assumption.
      apply noGroup_cons; auto.
Qed.

Lemma noGroup_regPatternExec s : noGroup s -> regPatternExec s = None.
Proof.
  intros H. destruct (regPatternExec s) as [inner|] eqn:E; [|reflexivity].
  destruct (regPatternExec_Some s inner E) as [pre [post [H1 [H2 _]]]].
  now destruct (H pre inner post).
Qed.

(** replace *)
Lemma stripPrefix_app p s : JS.stripPrefix p (p ++ s) = Some s.
Proof. induction p as [|a p IH]; simpl; [reflexivity|]. now rewrite Ascii.eqb_refl. Qed.

Lemma stripPrefix_Some p s rest : JS.stripPrefix p s = Some rest -> s = p ++ rest.
Proof.
  revert s. induction p as [|a p IH]; intros s H; simpl in H.
  - now injection H as ->.
  - destruct s as [|b s']; [discriminate|].
    destruct (Ascii.eqb_spec a b) as [->|_]; [|discriminate].
    simpl. f_equal. now apply IH.
Qed.

Lemma replace_unfold pat rep s :
  JS.replace pat rep s =
  match JS.stripPrefix pat s with
  | Some rest => rep ++ rest
  | None => match s with
            | [] => []
            | c :: r => c :: JS.replace pat rep r
            end
  end.
Proof. destruct s; reflexivity. Qed.

Lemma group_as_pattern (inner post : str) :
  "("%char :: inner ++ ")"%char :: post = ("("%char :: inner ++ [")"%char]) ++ post.
Proof. simpl. now rewrite <- app_assoc. Qed.

Lemma replace_firstGroup s pre inner post tok :
  firstGroup s pre inner post ->
  JS.replace ("("%char :: inner ++ [")"%char]) tok s = pre ++ tok ++ post.
Proof.
  revert s. induction pre as [|c pre IH]; intros s [H1 [H2 H3]].
  - rewrite H1. simpl app at 2. rewrite replace_unfold, (group_as_pattern inner post).
    now rewrite stripPrefix_app.
  - rewrite H1, replace_unfold.
    destruct (JS.stripPrefix _ _) as [rest|] eqn:E.
    + exfalso. apply stripPrefix_Some in E.
      rewrite <- (group_as_pattern inner rest) in E.
      specialize (H3 [] inner rest). rewrite H1 in H3.
      specialize (H3 E H2). simpl in H3. lia.
    + simpl. f_equal. apply IH. split; [reflexivity|]. split; [assumption|].
      intros pre' inner' post' Heq Hn.
      specialize (H3 (c :: pre') inner' post'). rewrite H1 in H3. simpl in H3.
      rewrite Heq in H3. specialize (H3 eq_refl Hn). lia.
Qed.

Lemma pretty_N_char_digit x : isDigit (pretty_N_char x) = true.
Proof. unfold pretty_N_char. repeat case_match; reflexivity. Qed.

Lemma pretty_N_go_digits x s :
  digits (lit s) -> digits (lit (pretty_N_go x s)).
Proof.
  revert s. induction (N.lt_wf_0 x) as [x _ IH]; intros s Hs.
  assert (x = 0 \/ 0 < x)%N as [->|Hx] by lia.
  - now rewrite pretty_N_go_0.
  - rewrite pretty_N_go_step by assumption. apply IH.
    + now apply N.div_lt.
    + constructor; [apply pretty_N_char_digit|assumption].
Qed.

Lemma numberToString_digits n : digits (JS.numberToString n).
Proof.
  unfold JS.numberToString, pretty, pretty_nat, pretty, pretty_N.
  case_decide.
  - constructor; [reflexivity|constructor].
  - apply pretty_N_go_digits. constructor.
Qed.

Lemma numberToString_inj n m : JS.numberToString n = JS.numberToString m -> n = m.
Proof.
  unfold JS.numberToString, lit. intros H.
  apply (f_equal string_of_list_ascii) in H.
  rewrite !string_of_list_ascii_of_string in H.
  now apply pretty_nat_inj in H.
Qed.

Lemma digit_noParen c : isDigit c = true -> isParen c = false.
Proof.
  unfold isDigit, isParen. intros H.
  destruct (Ascii.eqb_spec c "("%char) as [->|_]; [discriminate|].
  destruct (Ascii.eqb_spec c ")"%char) as [->|_]; [discriminate|reflexivity].
Qed.

Lemma digits_noParen s : digits s -> noParen s.
Proof. apply List.Forall_impl. exact digit_noParen. Qed.

Lemma segmentOf_noParen rnd : noParen (segmentOf rnd).
Proof.
  unfold segmentOf. apply noParen_app. split.
  - repeat constructor.
  - apply digits_noParen, numberToString_digits.
Qed.

Lemma countOf_app c a b : countOf c (a ++ b) = (countOf c a + countOf c b)%nat.
Proof. apply count_occ_app. Qed.

Lemma countOf_noParen_open s : noParen s -> countOf "("%char s = O.
Proof.
  intros H. apply count_occ_not_In. intros Hin.
  unfold noParen in H. rewrite List.Forall_forall in H. now apply H in Hin.
Qed.

Lemma countOf_noParen_close s : noParen s -> countOf ")"%char s = O.
Proof.
  intros H. apply count_occ_not_In. intros Hin.
  unfold noParen in H. rewrite List.Forall_forall in H. now apply H in Hin.
Qed.

Lemma countOf_group c pre inner post tok :
  noParen inner -> noParen tok -> isParen c = true ->
  countOf c (pre ++ "("%char :: inner ++ ")"%char :: post)
  = S (countOf c (pre ++ tok ++ post)).
Proof.
  intros Hi Ht Hc.
  change ("("%char :: inner ++ ")"%char :: post)
    with (["("%char] ++ inner ++ [")"%char] ++ post).
  rewrite !countOf_app.
  unfold isParen in Hc.
  destruct (Ascii.eqb_spec c "("%char) as [->|H1].
  - rewrite (countOf_noParen_open inner), (countOf_noParen_open tok) by assumption.
    simpl. lia.
  - destruct (Ascii.eqb_spec c ")"%char) as [->|H2]; [|discriminate].
    rewrite (countOf_noParen_close inner), (countOf_noParen_close tok) by assumption.
    simpl. lia.
Qed.

(** the loop *)
Section Loop.
Variable segment : str.
Hypothesis segment_noParen : noParen segment.

Lemma token_noParen k : noParen (tokenOf segment k).
Proof.
  apply noParen_app. split; [assumption|].
  apply digits_noParen, numberToString_digits.
Qed.

Lemma token_inj i j : tokenOf segment i = tokenOf segment j -> i = j.
Proof. intros H. apply app_inv_head in H. now apply numberToString_inj. Qed.

Lemma sectionsLoop_Grouping (fuel : nat) (s : str) (m : gmap str str) (k : nat) :
  (countOf "("%char s < fuel)%nat ->
  (forall j, (k <= j)%nat -> m !! tokenOf segment j = None) ->
  Grouping segment k s m
    (fst (sectionsLoop segment fuel s (m, k)))
    (snd (sectionsLoop segment fuel s (m, k))).
Proof.
  revert s m k. induction fuel as [|fuel IH]; intros s m k Hfuel Hfresh; [lia|].
  simpl. destruct (regPatternExec s) as [inner|] eqn:E.
  - destruct (regPatternExec_Some s inner E) as [pre [post HF]].
    rewrite (replace_firstGroup s pre inner post _ HF).
    apply (Grouping_step segment k s m pre inner post); [assumption|now apply Hfresh|].
    apply IH.
    + destruct HF as [H1 [H2 _]]. rewrite H1 in Hfuel.
      rewrite (countOf_group _ pre inner post (tokenOf segment k)) in Hfuel;
        [|assumption|apply token_noParen|reflexivity].
      fold (tokenOf segment k). lia.
    + intros j Hj. rewrite lookup_insert_ne; [apply Hfresh; lia|].
      intros H. apply token_inj in H. lia.
  - apply Grouping_done. now apply regPatternExec_None.
Qed.

Lemma Grouping_result (k : nat) (s : str) (m : gmap str str) (s' : str) (m' : gmap str str) :
  Grouping segment k s m s' m' ->
  (forall j, (k <= j)%nat -> m !! tokenOf segment j = None) ->
  noGroup s' /\
  exists n,
    countOf "("%char s = (countOf "("%char s' + n)%nat /\
    countOf ")"%char s = (countOf ")"%char s' + n)%nat /\
    size m' = (size m + n)%nat.
Proof.
  induction 1 as [k s m Hno | k s m pre inner post s' m' HF Hnone _ IH]; intros Hfresh.
  - split; [assumption|]. exists O. lia.
  - destruct IH as [Hno [n [H1 [H2 H3]]]].
    + intros j Hj. rewrite lookup_insert_ne; [apply Hfresh; lia|].
      intros H. apply token_inj in H. lia.
    + split; [assumption|]. exists (S n).
      destruct HF as [-> [Hi _]].
      rewrite (countOf_group "("%char pre inner post (tokenOf segment k));
        [|assumption|apply token_noParen|reflexivity].
      rewrite (countOf_group ")"%char pre inner post (tokenOf segment k));
        [|assumption|apply token_noParen|reflexivity].
      fold (tokenOf segment k) in H1, H2, H3.
      rewrite map_size_insert_None in H3 by assumption. lia.
Qed.

Lemma splitEmmetIntoSections_Grouping (s : str) :
  Grouping segment O s ∅
    (fst (splitEmmetIntoSections segment s)) (snd (splitEmmetIntoSections segment s)).
Proof.
  unfold splitEmmetIntoSections. apply sectionsLoop_Grouping.
  - unfold countOf. pose proof (count_occ_bound ascii_dec "("%char s). lia.
  - intros j _. apply lookup_empty.
Qed.

Lemma splitEmmetIntoSections_noGroup_id (s : str) :
  noGroup s -> splitEmmetIntoSections segment s = (s, ∅).
Proof.
  intros H. unfold splitEmmetIntoSections. simpl.
  now rewrite noGroup_regPatternExec.
Qed.

End Loop.

(** ** Trees in the store *)

Section ReprInd.
Variables (h : dom) (hi : nat) (P : ref -> tree -> Prop).
Hypothesis step : forall r e ts,
  (r < hi)%nat -> h !! r = Some e ->
  Forall (fun r' => (r < r')%nat) (childNodes e) ->
  Forall2 (reprTo h hi) (childNodes e) ts ->
  Forall2 P (childNodes e) ts ->
  P r (Node (tagName e) (id e) (className e) (textContent e) (attributes e) ts).

Lemma reprTo_induction : forall r t, reprTo h hi r t -> P r t.
Proof.
  fix IH 3. intros r t [r0 e ts Hlt He Hord Hch].
  apply step; try assumption.
  clear Hlt He Hord.
  induction Hch as [|x y l l' Hx Hl IHl]; constructor.
  - apply IH, Hx.
  - apply IHl.
Qed.
End ReprInd.

Lemma extends_refl h : extends h h.
Proof. split; auto. Qed.

Lemma extends_trans h1 h2 h3 : extends h1 h2 -> extends h2 h3 -> extends h1 h3.
Proof.
  intros [L1 E1] [L2 E2]. split; [lia|].
  intros i Hi. rewrite E2 by lia. now apply E1.
Qed.

Lemma reprTo_frame (h h' : dom) hi hi' r t :
  reprTo h hi r t ->
  (forall i, (r <= i < hi)%nat -> content <$> (h' !! i) = content <$> (h !! i)) ->
  (hi <= hi')%nat ->
  reprTo h' hi' r t.
Proof.
  intros H. revert r t H.
  refine (reprTo_induction h hi _ _).
  intros r e ts Hlt He Hord Hch IH Hagree Hhi.
  pose proof (Hagree r ltac:(lia)) as Hr. rewrite He in Hr.
  destruct (h' !! r) as [e'|] eqn:He'; [|discriminate].
  simpl in Hr. injection Hr as H1 H2 H3 H4 H5 H6.
  rewrite <- H1, <- H2, <- H3, <- H4, <- H5.
  constructor; [lia|assumption|now rewrite H6|].
  rewrite H6. clear He He' H6 Hch.
  induction IH as [|x y l l' Hx Hl IHl]; constructor.
  - inversion Hord; subst. apply Hx; [|assumption].
    intros i Hi. apply Hagree. lia.
  - inversion Hord; subst. now apply IHl.
Qed.

Lemma reprTo_extend (h h' : dom) hi hi' r e t news below :
  reprTo h hi r t ->
  h !! r = Some e ->
  (forall i, (r < i < hi)%nat -> content <$> (h' !! i) = content <$> (h !! i)) ->
  (exists e', h' !! r = Some e' /\ tagName e' = tagName e /\ id e' = id e /\
              className e' = className e /\ textContent e' = textContent e /\
              attributes e' = attributes e /\ childNodes e' = childNodes e ++ news) ->
  Forall (fun r' => (r < r')%nat) news ->
  Forall2 (reprTo h' hi') news below ->
  (hi <= hi')%nat ->
  reprTo h' hi' r (addChildren t below).
Proof.
  intros H He Hagree [e' [He' [H1 [H2 [H3 [H4 [H5 H6]]]]]]] Hnews Hbelow Hhi.
  inversion H as [r0 e0 ts Hlt He0 Hord Hch]; subst.
  assert (e0 = e) as -> by congruence.
  simpl. rewrite <- H1, <- H2, <- H3, <- H4, <- H5.
  constructor; [lia|assumption| |].
  - rewrite H6. apply Forall_app. now split.
  - rewrite H6. apply Forall2_app; [|assumption].
    clear He He' H6 H.
    induction Hch as [|x y l l' Hx Hl IHl]; constructor.
    + inversion Hord; subst. eapply reprTo_frame; [eassumption| |assumption].
      intros i Hi. apply Hagree. lia.
    + inversion Hord; subst. now apply IHl.
Qed.

Lemma withChildNodes_id (e : element) : DOM.withChildNodes (childNodes e ++ []) e = e.
Proof. destruct e. unfold DOM.withChildNodes. simpl. now rewrite app_nil_r. Qed.

(** One [appendChild] of a detached child. *)
Lemma appendChild_detached (h : dom) (p c : ref) (pe ce : element) :
  h !! p = Some pe -> h !! c = Some ce -> parentNode ce = None -> p <> c ->
  DOM.appendChild (Some p) (Some c) h =
  Return (tt, <[c := DOM.withParentNode (Some p) ce]>
                (<[p := DOM.withChildNodes (childNodes pe ++ [c]) pe]> h)).
Proof.
  intros Hp Hc Hdet Hne. unfold DOM.appendChild. rewrite Hp, Hc.
  unfold DOM.detach. rewrite Hc, Hdet.
  unfold bind, DOM.update. rewrite Hp.
  rewrite list_lookup_insert_ne by assumption. now rewrite Hc.
Qed.

Lemma forEach_cons {A} (f : A -> M unit) (x : A) (l : list A) (h : dom) :
  forEach f (x :: l) h =
  match f x h with
  | Return (_, h') => forEach f l h'
  | Throw e => Throw e
  end.
Proof. reflexivity. Qed.

Lemma forEach_appendChild (rs : list ref) : forall (h : dom) (p : ref) (pe : element),
  h !! p = Some pe ->
  Forall (fun r => (p < r)%nat) rs ->
  NoDup rs ->
  Forall (detached h) rs ->
  exists h2,
    forEach (fun child => DOM.appendChild (Some p) child) (map Some rs) h = Return (tt, h2) /\
    length h2 = length h /\
    h2 !! p = Some (DOM.withChildNodes (childNodes pe ++ rs) pe) /\
    (forall i, i <> p -> content <$> (h2 !! i) = content <$> (h !! i)) /\
    (forall i, i <> p -> ~ In i rs -> h2 !! i = h !! i).
Proof.
  induction rs as [|r rs IH]; intros h p pe Hp Hlt Hnd Hdet.
  - exists h. simpl. unfold ret. rewrite withChildNodes_id. auto.
  - inversion Hlt as [|? ? Hr Hlt']; subst.
    inversion Hnd as [|? ? Hnotin Hnd']; subst.
    rewrite list_elem_of_In in Hnotin.
    inversion Hdet as [|? ? [ce [Hc Hpar]] Hdet']; subst.
    change (map Some (r :: rs)) with (Some r :: map Some rs).
    rewrite forEach_cons.
    rewrite (appendChild_detached h p r pe ce) by (assumption || lia).
    set (h1 := <[r := DOM.withParentNode (Some p) ce]>
                 (<[p := DOM.withChildNodes (childNodes pe ++ [r]) pe]> h)).
    assert (Hlen1 : length h1 = length h) by (unfold h1; now rewrite !length_insert).
    assert (Hp1 : h1 !! p = Some (DOM.withChildNodes (childNodes pe ++ [r]) pe)).
    { unfold h1. rewrite list_lookup_insert_ne by lia.
      apply list_lookup_insert_eq. now apply lookup_lt_Some in Hp. }
    assert (Hother : forall i, i <> p -> i <> r -> h1 !! i = h !! i).
    { intros i H1 H2. unfold h1. now rewrite !list_lookup_insert_ne by congruence. }
    assert (Hr1 : h1 !! r = Some (DOM.withParentNode (Some p) ce)).
    { unfold h1. apply list_lookup_insert_eq. rewrite length_insert.
      now apply lookup_lt_Some in Hc. }
    destruct (IH h1 p _ Hp1 Hlt' Hnd') as [h2 [Hrun [Hlen2 [Hp2 [Hcont Hexact]]]]].
    { rewrite List.Forall_forall in Hdet'. apply List.Forall_forall.
      intros x Hx. destruct (Hdet' x Hx) as [xe [Hxe Hxp]].
      exists xe. split; [|assumption]. rewrite Hother; [assumption| |].
      - rewrite List.Forall_forall in Hlt'. specialize (Hlt' x Hx). lia.
      - intros ->. contradiction. }
    exists h2. split; [exact Hrun|]. split; [lia|]. split.
    { rewrite Hp2. f_equal. destruct pe. unfold DOM.withChildNodes. simpl.
      now rewrite <- app_assoc. }
    split.
    + intros i Hi. rewrite Hcont by assumption.
      destruct (Nat.eq_dec i r) as [->|Hir].
      * now rewrite Hr1, Hc.
      * now rewrite Hother.
    + intros i Hi Hnin. simpl in Hnin.
      rewrite Hexact by tauto. apply Hother; [assumption|]. intros ->. tauto.
Qed.

Lemma increasingFrom_weaken lo lo' rs :
  (lo' <= lo)%nat -> increasingFrom lo rs -> increasingFrom lo' rs.
Proof. destruct rs as [|r rs]; simpl; [auto|]. intros ? [? ?]. split; [lia|assumption]. Qed.

Lemma increasingFrom_Forall lo rs :
  increasingFrom lo rs -> Forall (fun r => (lo <= r)%nat) rs.
Proof.
  revert lo. induction rs as [|r rs IH]; intros lo H; [constructor|].
  destruct H as [H1 H2]. constructor; [assumption|].
  apply IH. eapply increasingFrom_weaken; [|eassumption]. lia.
Qed.

Lemma increasingFrom_NoDup lo rs : increasingFrom lo rs -> NoDup rs.
Proof.
  revert lo. induction rs as [|r rs IH]; intros lo H; [constructor|].
  destruct H as [H1 H2]. constructor; [|eauto].
  rewrite list_elem_of_In. intros Hin.
  apply increasingFrom_Forall in H2. rewrite List.Forall_forall in H2.
  specialize (H2 r Hin). lia.
Qed.

Lemma detached_extends h h' r : detached h r -> extends h h' -> detached h' r.
Proof.
  intros [e [He Hp]] [_ Hx]. exists e. split; [|assumption].
  rewrite Hx; [assumption|]. now apply lookup_lt_Some in He.
Qed.

Lemma rootAt_extends h h' r t : rootAt h r t -> extends h h' -> rootAt h' r t.
Proof.
  intros [Hr Hd] Hx. split; [|now apply (detached_extends h)].
  destruct Hx as [Hl Hx].
  eapply reprTo_frame; [eassumption| |assumption].
  intros i Hi. rewrite Hx by lia. reflexivity.
Qed.

Lemma reprTo_lookup h hi r t : reprTo h hi r t -> exists e, h !! r = Some e /\ (r < hi)%nat.
Proof. intros H. inversion H; subst. eauto. Qed.

Lemma leafOf_shape s e : leafOf s = Return e -> childNodes e = [] /\ parentNode e = None.
Proof.
  unfold leafOf. destruct (innerTextStep (normalize s)) as [innerText w1].
  destruct (attributesStep w1) as [[attributes w2]|x]; [|discriminate].
  destruct (tagIdClassStep w2) as [[[tagName id] classes]|x]; [|discriminate].
  intros H. injection H as <-. split; reflexivity.
Qed.

Lemma extends_snoc (h : dom) e : extends h (h ++ [e]).
Proof.
  split; [rewrite length_app; lia|].
  intros i Hi. now apply lookup_app_l.
Qed.

Section Simulation.
Variable dividedSections : gmap str str.
Variable rec : str -> M (list (option ref)).
Variable recT : str -> outcome (list tree).
Hypothesis rec_simulates : forall s, simulates (rec s) (recT s).

Lemma createHTMLElement_simulates c :
  simulates (createHTMLElement dividedSections rec c) (resolveT dividedSections recT c).
Proof.
  unfold createHTMLElement, resolveT.
  destruct (dividedSections !! c) as [section|]; [apply rec_simulates|].
  intros h. unfold bind. rewrite simplifiedEmmetToElement_leafOf.
  destruct (leafOf c) as [e|x] eqn:E; [|reflexivity].
  unfold ret. exists [leafTree e]. split; [reflexivity|].
  destruct (leafOf_shape c e E) as [Hch Hpar].
  exists [length h]. split; [reflexivity|]. split; [discriminate|].
  split; [apply extends_snoc|]. split; [simpl; lia|].
  constructor; [|constructor].
  split.
  - unfold leafTree. constructor.
    + rewrite length_app. simpl. lia.
    + now apply list_lookup_middle.
    + rewrite Hch. constructor.
    + rewrite Hch. constructor.
  - exists e. split; [now apply list_lookup_middle|assumption].
Qed.

Lemma componentsLoop_cons c rest tp (h : dom) :
  componentsLoop dividedSections rec (c :: rest) tp h =
  match createHTMLElement dividedSections rec c h with
  | Throw x => Throw x
  | Return (children, h1) =>
      match forEach (fun child => DOM.appendChild tp child) children h1 with
      | Throw x => Throw x
      | Return (_, h2) =>
          componentsLoop dividedSections rec rest (mjoin (head children)) h2
      end
  end.
Proof.
  simpl. unfold bind.
  destruct (createHTMLElement dividedSections rec c h) as [[l h1]|x]; reflexivity.
Qed.

Lemma componentsLoop_simulates cs : forall (h : dom) (p : ref) (pe : element),
  h !! p = Some pe ->
  match componentsLoop dividedSections rec cs (Some p) h with
  | Throw x => chainT dividedSections recT cs = Throw x
  | Return (_, h') =>
      exists below news,
        chainT dividedSections recT cs = Return below /\
        (length h <= length h')%nat /\
        h' !! p = Some (DOM.withChildNodes (childNodes pe ++ news) pe) /\
        (forall i, (i < length h)%nat -> i <> p -> h' !! i = h !! i) /\
        Forall (fun r => (length h <= r)%nat) news /\
        Forall2 (reprTo h' (length h')) news below
  end.
Proof.
  induction cs as [|c rest IH]; intros h p pe Hp.
  - simpl. unfold ret. exists [], []. rewrite withChildNodes_id.
    repeat split; auto; constructor.
  - rewrite componentsLoop_cons.
    pose proof (createHTMLElement_simulates c h) as Hc.
    destruct (createHTMLElement dividedSections rec c h) as [[l h1]|x];
      [|simpl; now rewrite Hc].
    destruct Hc as [level [Hlevel [rs [-> [Hne [[Hlen Hext] [Hinc Hroots]]]]]]].
    simpl chainT. rewrite Hlevel.
    assert (Hp' : (p < length h)%nat) by (now apply lookup_lt_Some in Hp).
    assert (Hp1 : h1 !! p = Some pe) by (now rewrite Hext).
    pose proof (increasingFrom_Forall _ _ Hinc) as Hge.
    destruct (forEach_appendChild rs h1 p pe Hp1) as [h2 [Hrun [Hlen2 [Hp2 [Hcont Hexact]]]]].
    { eapply List.Forall_impl; [|exact Hge]. simpl. intros; lia. }
    { eapply increasingFrom_NoDup; eassumption. }
    { clear -Hroots. induction Hroots as [|? ? ? ? [_ Hd]]; constructor; assumption. }
    rewrite Hrun.
    destruct rs as [|r0 rs']; [contradiction|].
    inversion Hroots as [|? t0 ? ts' [Hr0 Hd0] Hroots']; subst.
    destruct (reprTo_lookup _ _ _ _ Hr0) as [e0 [He0 Hr0lt]].
    simpl head. simpl mjoin.
    assert (Hr0ge : (length h <= r0)%nat) by (inversion Hge; assumption).
    assert (Hcont0 : content <$> (h2 !! r0) = content <$> (h1 !! r0))
      by (apply Hcont; lia).
    rewrite He0 in Hcont0.
    destruct (h2 !! r0) as [e0'|] eqn:He0'; [|discriminate].
    simpl in Hcont0. injection Hcont0 as C1 C2 C3 C4 C5 C6.
    specialize (IH h2 r0 e0' He0').
    destruct (componentsLoop dividedSections rec rest (Some r0) h2) as [[[] h']|x];
      [|now rewrite IH].
    destruct IH as [below' [news' [Hbelow [Hlen' [Hr0' [Hsame [Hnews Hrepr]]]]]]].
    rewrite Hbelow.
    exists (addChildren t0 below' :: ts'), (r0 :: rs').
    split; [reflexivity|]. split; [lia|]. split.
    { rewrite Hsame by lia. exact Hp2. }
    split.
    { intros i Hi Hip. rewrite Hsame by lia.
      rewrite Hexact; [now apply Hext|assumption|].
      intros Hin. rewrite List.Forall_forall in Hge. specialize (Hge i Hin). lia. }
    split; [assumption|].
    assert (Hagree : forall i, (r0 < i < length h1)%nat ->
              content <$> (h' !! i) = content <$> (h1 !! i)).
    { intros i Hi. rewrite Hsame by lia. apply Hcont. lia. }
    constructor.
    + eapply (reprTo_extend h1 h' (length h1) (length h') r0 e0 t0 news' below');
        try eassumption; [|eapply List.Forall_impl; [|exact Hnews]; simpl; intros; lia|lia].
      eexists. split; [exact Hr0'|]. simpl. rewrite C6. repeat split; assumption || reflexivity.
    + destruct Hinc as [_ Hinc'].
      pose proof (increasingFrom_Forall _ _ Hinc') as Hgt.
      clear -Hroots' Hgt Hagree Hlen' Hlen2.
      induction Hroots' as [|r t rs ts [Hr _] _ IHr]; constructor.
      * inversion Hgt; subst.
        eapply reprTo_frame; [exact Hr| |lia].
        intros i Hi. apply Hagree. lia.
      * inversion Hgt; subst. now apply IHr.
Qed.

Lemma createParental_simulates s :
  simulatesOne (createParental dividedSections rec s)
               (createParentalT dividedSections recT s).
Proof.
  intros h. unfold createParental, createParentalT.
  destruct (map JS.trim (JS.split ">"%char s)) as [|c cs]; [reflexivity|].
  destruct (negb (JS.truthy c)); [reflexivity|].
  unfold bind.
  pose proof (createHTMLElement_simulates c h) as Hc.
  destruct (createHTMLElement dividedSections rec c h) as [[l h1]|x];
    [|now rewrite Hc].
  destruct Hc as [level [Hlevel [rs [-> [Hne [[Hlen Hext] [Hinc Hroots]]]]]]].
  rewrite Hlevel.
  destruct rs as [|r0 rs']; [contradiction|].
  inversion Hroots as [|? t0 ? ts' [Hr0 [d0 [Hd0 Hpar0]]] Hroots']; subst.
  simpl head. simpl mjoin.
  destruct Hinc as [Hr0ge _].
  pose proof (componentsLoop_simulates cs h1 r0 d0 Hd0) as Hloop.
  destruct (componentsLoop dividedSections rec cs (Some r0) h1) as [[[] h']|x];
    [|now rewrite Hloop].
  destruct Hloop as [below [news [Hbelow [Hlen' [Hr0' [Hsame [Hnews Hrepr]]]]]]].
  rewrite Hbelow. unfold ret.
  exists r0, (addChildren t0 below).
  split; [reflexivity|]. split; [reflexivity|]. split.
  { split; [lia|]. intros i Hi. rewrite Hsame by lia. now apply Hext. }
  split; [assumption|]. split.
  - destruct (reprTo_lookup _ _ _ _ Hr0) as [e0 [He0 Hr0lt]].
    assert (e0 = d0) as -> by congruence.
    eapply (reprTo_extend h1 h' (length h1) (length h') r0 d0 t0 news below);
      try eassumption; [| |eapply List.Forall_impl; [|exact Hnews]; simpl; intros; lia].
    + intros i Hi. rewrite Hsame by lia. reflexivity.
    + eexists. split; [exact Hr0'|]. simpl. repeat split; reflexivity.
  - eexists. split; [exact Hr0'|]. exact Hpar0.
Qed.

Lemma arrayMap_createParental_simulates pieces : forall (h : dom),
  match arrayMap (createParental dividedSections rec) pieces h with
  | Throw x => mapOutcome (createParentalT dividedSections recT) pieces = Throw x
  | Return (l, h') =>
      exists ts rs,
        mapOutcome (createParentalT dividedSections recT) pieces = Return ts /\
        l = map Some rs /\ length rs = length pieces /\ extends h h' /\
        increasingFrom (length h) rs /\ Forall2 (rootAt h') rs ts
  end.
Proof.
  induction pieces as [|p rest IH]; intros h.
  - simpl. unfold ret. exists [], []. repeat split; auto; constructor.
  - simpl. unfold bind.
    pose proof (createParental_simulates p h) as Hp.
    destruct (createParental dividedSections rec p h) as [[v h1]|x];
      [|now rewrite Hp].
    destruct Hp as [r [t [-> [Ht [Hext [Hge Hroot]]]]]]. rewrite Ht.
    specialize (IH h1).
    destruct (arrayMap (createParental dividedSections rec) rest h1) as [[l h']|x];
      [|now rewrite IH].
    destruct IH as [ts [rs [Hts [-> [Hlen [Hext' [Hinc Hroots]]]]]]].
    rewrite Hts. unfold ret.
    exists (t :: ts), (r :: rs).
    split; [reflexivity|]. split; [reflexivity|]. split; [simpl; lia|].
    split; [eapply extends_trans; eassumption|]. split.
    + split; [assumption|]. eapply increasingFrom_weaken; [|exact Hinc].
      destruct Hroot as [Hr _]. apply reprTo_lookup in Hr.
      destruct Hr as [_ [_ Hr]]. lia.
    + constructor; [|assumption]. now apply (rootAt_extends h1).
Qed.

Lemma createParalelBody_simulates s :
  simulates (createParalelBody dividedSections rec s)
            (createParalelBodyT dividedSections recT s).
Proof.
  intros h. unfold createParalelBody, createParalelBodyT.
  pose proof (arrayMap_createParental_simulates
                (map JS.trim (JS.split "+"%char s)) h) as H.
  destruct (arrayMap _ _ h) as [[l h']|x]; [|assumption].
  destruct H as [ts [rs [Hts [-> [Hlen [Hext [Hinc Hroots]]]]]]].
  exists ts. split; [assumption|]. exists rs.
  repeat split; try assumption; try apply Hext.
  intros ->. rewrite length_map in Hlen.
  pose proof (split_nonempty "+"%char s).
  destruct (JS.split "+"%char s); [contradiction|discriminate].
Qed.
End Simulation.

Lemma createParalel_simulates ds depth s :
  simulates (createParalel ds depth s) (createParalelT ds depth s).
Proof.
  revert s. induction depth as [|d IH]; intros s.
  - intros h. reflexivity.
  - simpl. apply createParalelBody_simulates. exact IH.
Qed.

(** reading back *)
Lemma optionMap_Forall2 {A B} (f : A -> option B) l ys :
  Forall2 (fun x y => f x = Some y) l ys -> optionMap f l = Some ys.
Proof.
  induction 1 as [|x y l ys Hx _ IH]; simpl; [reflexivity|].
  now rewrite Hx, IH.
Qed.

Lemma reprTo_reify (h : dom) hi r t :
  reprTo h hi r t -> forall fuel, (hi - r <= fuel)%nat -> reify fuel h r = Some t.
Proof.
  intros H. revert r t H.
  refine (reprTo_induction h hi _ _).
  intros r e ts Hlt He Hord Hch IH fuel Hfuel.
  destruct fuel as [|f]; [lia|].
  simpl. rewrite He.
  rewrite (optionMap_Forall2 _ _ ts); [reflexivity|].
  clear He Hch.
  induction IH as [|x y l l' Hx Hl IHl]; constructor.
  - inversion Hord; subst. apply Hx. lia.
  - inversion Hord; subst. now apply IHl.
Qed.

Lemma expand_expandT depth rnd s :
  expand depth rnd s =
  match expandT depth rnd s with
  | Return ts => Return (Some ts)
  | Throw x => Throw x
  end.
Proof.
  unfold expand, expandT, emmetToElements. fold (segmentOf rnd).
  destruct (splitEmmetIntoSections (segmentOf rnd) (normalize s)) as [dataString ds].
  pose proof (createParalel_simulates ds depth dataString []) as H.
  destruct (createParalel ds depth dataString []) as [[l h']|x]; [|now rewrite H].
  destruct H as [ts [-> [rs [-> [_ [_ [_ Hroots]]]]]]].
  f_equal. unfold reifyAll. apply optionMap_Forall2.
  clear -Hroots. induction Hroots as [|r t rs ts [Hr _] _ IH]; constructor.
  - apply (reprTo_reify h' (length h')); [assumption|lia].
  - exact IH.
Qed.

(** ** Checking every draw *)

Lemma tree_induction (P : tree -> Prop) :
  (forall tag i c tx at_ ch, Forall P ch -> P (Node tag i c tx at_ ch)) ->
  forall t, P t.
Proof.
  intros step. fix IH 1. intros [tag i c tx at_ ch]. apply step.
  induction ch as [|x r IHr]; constructor; [apply IH|exact IHr].
Qed.

Lemma treeEqb_eq t1 : forall t2, treeEqb t1 t2 = true -> t1 = t2.
Proof.
  induction t1 as [a1 b1 c1 d1 e1 ch1 IH] using tree_induction.
  intros [a2 b2 c2 d2 e2 ch2] H. simpl in H.
  repeat (apply andb_prop in H; destruct H as [H ?]).
  repeat match goal with
         | E : bool_decide _ = true |- _ => apply bool_decide_eq_true in E
         end.
  subst. f_equal.
  match goal with E : _ ch1 ch2 = true |- _ => rename E into Hch end.
  revert ch2 Hch. induction IH as [|x r Hx _ IHr]; intros [|y r2] Hch;
    try discriminate; [reflexivity|].
  apply andb_prop in Hch. destruct Hch as [H1 H2].
  f_equal; [now apply Hx|now apply IHr].
Qed.

Lemma expandsTo_sound depth s t rnd :
  expandsTo depth s t rnd = true -> expand depth rnd s = Return (Some [t rnd]).
Proof.
  unfold expandsTo.
  destruct (expand depth rnd s) as [[[|t' [|? ?]]|]|x]; try discriminate.
  intros H. apply treeEqb_eq in H. now subst.
Qed.

Lemma forallb_below (f : nat -> bool) (n : nat) :
  forallb f (seq 0 n) = true -> forall i, (i < n)%nat -> f i = true.
Proof.
  intros H i Hi. rewrite forallb_forall in H. apply H, in_seq. lia.
Qed.

(** Without any group the draw plays no role. *)
Lemma groupless_independent depth r1 r2 s (h : dom) :
  noGroup (normalize s) ->
  emmetToElements depth r1 s h = emmetToElements depth r2 s h.
Proof.
  intros H. unfold emmetToElements.
  now rewrite !splitEmmetIntoSections_noGroup_id.
Qed.

(** ** Independence of the draw *)

Lemma inst_app segment a b : inst segment (a ++ b) = inst segment a ++ inst segment b.
Proof.
  induction a as [|[c|k] a IH]; simpl; [reflexivity| |].
  - now rewrite IH.
  - now rewrite IH, app_assoc.
Qed.

Lemma inst_map_Ch segment s : inst segment (map Ch s) = s.
Proof. induction s as [|c s IH]; simpl; [reflexivity|now rewrite IH]. Qed.

Lemma charsOf_inst segment t s : charsOf t = Some s -> inst segment t = s.
Proof.
  revert s. induction t as [|[c|k] t IH]; intros s H; simpl in *.
  - now injection H as <-.
  - destruct (charsOf t) as [s'|]; [|discriminate]. injection H as <-.
    now rewrite (IH s').
  - discriminate.
Qed.

Lemma digit_plain c : isDigit c = true -> plain c = true.
Proof.
  destruct c as [[] [] [] [] [] [] [] []]; vm_compute; intros H;
    (reflexivity || discriminate H).
Qed.

Lemma plain_facts c :
  plain c = true ->
  isParen c = false /\ JS.isWhiteSpace c = false /\ c <> "+"%char /\ c <> ">"%char.
Proof.
  unfold plain. intros H. apply negb_true_iff in H.
  apply orb_false_iff in H. destruct H as [H H4].
  apply orb_false_iff in H. destruct H as [H H3].
  apply orb_false_iff in H. destruct H as [H1 H2].
  repeat split; try assumption.
  - intros ->. discriminate.
  - intros ->. discriminate.
Qed.

Lemma segmentOf_good rnd : goodSegment (segmentOf rnd).
Proof.
  split; [|now exists (JS.numberToString rnd)].
  unfold segmentOf. apply Forall_app. split.
  - repeat constructor.
  - eapply List.Forall_impl; [|apply numberToString_digits]. apply digit_plain.
Qed.

Section Segment.
Variable segment : str.
Hypothesis segment_good : goodSegment segment.

Lemma token_plain k : Forall (fun c => plain c = true) (tokenOf segment k).
Proof.
  unfold tokenOf. apply Forall_app. split; [apply segment_good|].
  eapply List.Forall_impl; [|apply numberToString_digits]. apply digit_plain.
Qed.

Lemma token_prefix k : exists rest, tokenOf segment k = lit "segment_" ++ rest.
Proof.
  destruct segment_good as [_ [rest ->]]. unfold tokenOf.
  exists (rest ++ JS.numberToString k). now rewrite app_assoc.
Qed.

Lemma token_cons k : exists tk, tokenOf segment k = "s"%char :: tk.
Proof. destruct (token_prefix k) as [rest ->]. simpl. eauto. Qed.

Lemma token_free k c : plain c = false -> ~ In c (tokenOf segment k).
Proof.
  intros Hc Hin. pose proof (token_plain k) as H.
  rewrite List.Forall_forall in H. specialize (H c Hin). congruence.
Qed.

Lemma token_noParen' k : noParen (tokenOf segment k).
Proof.
  eapply List.Forall_impl; [|apply token_plain].
  intros c Hc. now apply plain_facts in Hc.
Qed.

Lemma token_equal i j : tokenOf segment i = tokenOf segment j -> i = j.
Proof. intros H. apply app_inv_head in H. now apply numberToString_inj. Qed.

Lemma inst_nonparen t :
  Forall (fun i => isParenItem i = false) t -> noParen (inst segment t).
Proof.
  induction 1 as [|[c|k] t Hi _ IH]; simpl.
  - constructor.
  - constructor; assumption.
  - apply noParen_app. split; [apply token_noParen'|assumption].
Qed.

(** grouping commutes with instantiation *)
Lemma spanNoParenT_spec t :
  t = fst (spanNoParenT t) ++ snd (spanNoParenT t) /\
  Forall (fun i => isParenItem i = false) (fst (spanNoParenT t)) /\
  (snd (spanNoParenT t) = [] \/
   exists i b, snd (spanNoParenT t) = i :: b /\ isParenItem i = true).
Proof.
  induction t as [|i r [IH1 [IH2 IH3]]]; simpl.
  - repeat split; [constructor|now left].
  - destruct (isParenItem i) eqn:E; simpl.
    + repeat split; [constructor|right; eauto].
    + destruct (spanNoParenT r) as [a b]; simpl in *.
      repeat split; [congruence|constructor; assumption|assumption].
Qed.

Lemma firstGroup_skip p s pre inner post :
  noParen p -> firstGroup s pre inner post ->
  firstGroup (p ++ s) (p ++ pre) inner post.
Proof.
  induction 1 as [|c p Hc _ IH]; intros HF; [exact HF|].
  simpl. apply firstGroup_cons; [|now apply IH].
  intros inner' post' _ Heq. injection Heq as -> _. discriminate.
Qed.

Lemma noGroup_skip p s : noParen p -> noGroup s -> noGroup (p ++ s).
Proof.
  induction 1 as [|c p Hc _ IH]; intros HF; [exact HF|].
  simpl. apply noGroup_cons; [|now apply IH].
  intros inner' post' _ Heq. injection Heq as -> _. discriminate.
Qed.

Lemma isCh_true c i : isCh c i = true -> i = Ch c.
Proof.
  destruct i as [c'|k]; simpl; [|discriminate].
  intros H. apply Ascii.eqb_eq in H. now subst.
Qed.

(** No group starts at the head of ["(" :: inst r] when the run after it
    does not end at a closing parenthesis. *)
Lemma no_head_group r :
  (forall inner post, spanNoParenT r = (inner, Ch ")"%char :: post) -> False) ->
  forall inner' post', noParen inner' ->
    "("%char :: inst segment r <> "("%char :: inner' ++ ")"%char :: post'.
Proof.
  intros Hspan inner' post' Hn Heq. injection Heq as Heq.
  destruct (spanNoParenT_spec r) as [H1 [H2 H3]].
  destruct (spanNoParenT r) as [a b] eqn:E; simpl in *.
  assert (Hs : spanNoParen (inst segment r) = (inner', ")"%char :: post'))
    by (rewrite Heq; now apply spanNoParen_app).
  rewrite H1, inst_app in Hs.
  destruct H3 as [->|[i [b' [-> Hi]]]].
  - simpl in Hs. rewrite app_nil_r in Hs.
    pose proof (inst_nonparen a H2) as Ha.
    destruct (spanNoParen_spec (inst segment a)) as [S1 [S2 S3]].
    rewrite Hs in S1, S2. simpl in *.
    rewrite S1 in Ha. apply noParen_app in Ha. destruct Ha as [_ Ha].
    inversion Ha; subst. discriminate.
  - destruct i as [c'|k]; [|discriminate]. simpl in Hs, Hi.
    rewrite spanNoParen_app in Hs by (now apply inst_nonparen || assumption).
    injection Hs as _ Hc' _. subst c'. now apply (Hspan a b').
Qed.

Lemma groupOf_spec t :
  match groupOf t with
  | Some (pre, inner, post) =>
      t = pre ++ Ch "("%char :: inner ++ Ch ")"%char :: post /\
      firstGroup (inst segment t) (inst segment pre) (inst segment inner)
                 (inst segment post)
  | None => noGroup (inst segment t)
  end.
Proof.
  induction t as [|i r IH].
  - simpl. intros [|? ?] ? ? Heq; discriminate.
  - assert (Hlater :
      (forall inner' post', noParen inner' ->
         inst segment (i :: r) <> "("%char :: inner' ++ ")"%char :: post') ->
      match (match groupOf r with
             | Some (pre, inner, post) => Some (i :: pre, inner, post)
             | None => None
             end) with
      | Some (pre, inner, post) =>
          i :: r = pre ++ Ch "("%char :: inner ++ Ch ")"%char :: post /\
          firstGroup (inst segment (i :: r)) (inst segment pre) (inst segment inner)
                     (inst segment post)
      | None => noGroup (inst segment (i :: r))
      end).
    { intros Hno. destruct (groupOf r) as [[[pre inner] post]|].
      - destruct IH as [-> IH]. split; [reflexivity|].
        destruct i as [c|k]; simpl in *.
        + now apply firstGroup_cons.
        + apply firstGroup_skip; [apply token_noParen'|exact IH].
      - destruct i as [c|k]; simpl in *.
        + now apply noGroup_cons.
        + apply noGroup_skip; [apply token_noParen'|exact IH]. }
    simpl groupOf.
    destruct (isCh "("%char i) eqn:Ei.
    + apply isCh_true in Ei. subst i.
      destruct (spanNoParenT_spec r) as [H1 [H2 H3]].
      destruct (spanNoParenT r) as [inner b] eqn:E; simpl in H1, H2, H3.
      assert (Hother : (forall inner0 post0,
                 (inner, b) = (inner0, Ch ")"%char :: post0) -> False) ->
               forall inner' post', noParen inner' ->
                 inst segment (Ch "("%char :: r) <> "("%char :: inner' ++ ")"%char :: post').
      { intros Hb inner' post' Hn. simpl.
        apply (no_head_group r); [rewrite E; exact Hb|assumption]. }
      destruct b as [|i' post].
      * apply Hlater, Hother. intros ? ? Hx. discriminate.
      * destruct (isCh ")"%char i') eqn:Ei'.
        -- apply isCh_true in Ei'. subst i'. split; [now rewrite H1|].
           rewrite H1. simpl. rewrite inst_app. simpl.
           apply firstGroup_head. now apply inst_nonparen.
        -- apply Hlater, Hother. intros ? ? Hx. injection Hx as _ -> _.
           simpl in Ei'. discriminate.
    + apply Hlater. intros inner' post' _ Heq.
      destruct i as [c|k]; simpl in *.
      * injection Heq as -> _. discriminate.
      * destruct (token_cons k) as [tk Hk]. rewrite Hk in Heq. discriminate.
Qed.

Lemma firstGroup_regPatternExec s pre inner post :
  firstGroup s pre inner post -> regPatternExec s = Some inner.
Proof.
  revert s. induction pre as [|c pre IH]; intros s [H1 [H2 H3]].
  - rewrite H1. now apply regPatternExec_head.
  - rewrite H1. simpl app. rewrite regPatternExec_cons.
    + apply IH. split; [reflexivity|]. split; [assumption|].
      intros pre' inner' post' Heq Hn.
      specialize (H3 (c :: pre') inner' post'). rewrite H1 in H3. simpl in H3.
      rewrite Heq in H3. specialize (H3 eq_refl Hn). lia.
    + intros inner' post' Hn Heq.
      specialize (H3 [] inner' post'). rewrite H1 in H3.
      specialize (H3 Heq Hn). simpl in H3. lia.
Qed.

Lemma represents_empty : represents segment [] ∅.
Proof.
  intros key v. rewrite lookup_empty. split; [discriminate|].
  intros [k [t [H _]]]. discriminate.
Qed.

Lemma represents_snoc sections m t :
  represents segment sections m ->
  represents segment (sections ++ [t])
    (<[tokenOf segment (length sections) := inst segment t]> m).
Proof.
  intros H key v. split.
  - intros Hl. destruct (decide (tokenOf segment (length sections) = key)) as [<-|Hne].
    + rewrite lookup_insert_eq in Hl. injection Hl as <-.
      exists (length sections), t. split; [|auto].
      rewrite lookup_app_r by lia. now rewrite Nat.sub_diag.
    + rewrite lookup_insert_ne in Hl by assumption.
      apply H in Hl. destruct Hl as [k [t' [Hk [-> ->]]]].
      exists k, t'. split; [|auto].
      apply lookup_app_l_Some. exact Hk.
  - intros [k [t' [Hk [-> ->]]]].
    destruct (decide (k = length sections)) as [->|Hne].
    + rewrite lookup_app_r in Hk by lia. rewrite Nat.sub_diag in Hk.
      injection Hk as <-. apply lookup_insert_eq.
    + rewrite lookup_insert_ne
        by (intros Heq; apply token_equal in Heq; congruence).
      apply H. exists k, t'. split; [|auto].
      assert (k < length (sections ++ [t]))%nat by (now apply lookup_lt_Some in Hk).
      rewrite length_app in *. simpl in *.
      rewrite lookup_app_l in Hk by lia. exact Hk.
Qed.

Lemma sectionsLoop_groupLoopT fuel : forall t sections (m : gmap str str),
  represents segment sections m ->
  fst (sectionsLoop segment fuel (inst segment t) (m, length sections))
    = inst segment (fst (groupLoopT fuel t sections)) /\
  represents segment (snd (groupLoopT fuel t sections))
    (snd (sectionsLoop segment fuel (inst segment t) (m, length sections))).
Proof.
  induction fuel as [|fuel IH]; intros t sections m Hm; [now split|].
  simpl. pose proof (groupOf_spec t) as Hg.
  destruct (groupOf t) as [[[pre inner] post]|].
  - destruct Hg as [Ht HF].
    rewrite (firstGroup_regPatternExec _ _ _ _ HF).
    rewrite (replace_firstGroup _ _ _ _ _ HF).
    specialize (IH (pre ++ Hole (length sections) :: post) (sections ++ [inner])
                   (<[tokenOf segment (length sections) := inst segment inner]> m)
                   (represents_snoc sections m inner Hm)).
    rewrite inst_app in IH. simpl inst in IH.
    rewrite length_app in IH. simpl length in IH.
    replace (length sections + 1)%nat with (S (length sections)) in IH by lia.
    exact IH.
  - rewrite (noGroup_regPatternExec _ Hg). now split.
Qed.

Lemma splitEmmetIntoSections_groupT w :
  fst (splitEmmetIntoSections segment w) = inst segment (fst (groupT w)) /\
  represents segment (snd (groupT w)) (snd (splitEmmetIntoSections segment w)).
Proof.
  unfold splitEmmetIntoSections, groupT.
  pose proof (sectionsLoop_groupLoopT (S (length w)) (map Ch w) [] ∅ represents_empty) as H.
  rewrite inst_map_Ch in H. exact H.
Qed.

(** splitting and trimming commute with instantiation *)
Lemma split_skip sep p s :
  ~ In sep p ->
  JS.split sep (p ++ s) =
  match JS.split sep s with
  | x :: xs => (p ++ x) :: xs
  | [] => [p]
  end.
Proof.
  induction p as [|c p IH]; intros Hn; simpl.
  - destruct (JS.split sep s) eqn:E; [now apply split_nonempty in E|reflexivity].
  - simpl in Hn. destruct (Ascii.eqb_spec c sep) as [->|Hne]; [tauto|].
    rewrite IH by tauto.
    destruct (JS.split sep s); reflexivity.
Qed.

Lemma splitT_nonempty sep t : splitT sep t <> [].
Proof.
  destruct t as [|i r]; simpl; [discriminate|].
  destruct (isCh sep i); [discriminate|].
  destruct (splitT sep r); discriminate.
Qed.

Lemma split_inst sep t :
  plain sep = false ->
  JS.split sep (inst segment t) = map (inst segment) (splitT sep t).
Proof.
  intros Hsep. induction t as [|[c|k] r IH]; [reflexivity| |].
  - simpl. destruct (Ascii.eqb c sep); simpl; [now rewrite IH|].
    rewrite IH.
    destruct (splitT sep r) as [|x xs] eqn:E; [now apply splitT_nonempty in E|].
    reflexivity.
  - simpl. rewrite split_skip by (now apply token_free).
    rewrite IH.
    destruct (splitT sep r) as [|x xs] eqn:E; [now apply splitT_nonempty in E|].
    reflexivity.
Qed.

Lemma token_white k : Forall (fun c => JS.isWhiteSpace c = false) (tokenOf segment k).
Proof.
  eapply List.Forall_impl; [|apply token_plain].
  intros c Hc. now apply plain_facts in Hc.
Qed.

Lemma trimStart_stop p s :
  p <> [] -> Forall (fun c => JS.isWhiteSpace c = false) p ->
  JS.trimStart (p ++ s) = p ++ s.
Proof.
  intros Hne Hp. destruct p as [|c p]; [contradiction|].
  inversion Hp as [|? ? Hc _]; subst. simpl. now rewrite Hc.
Qed.

Lemma token_nonempty k : tokenOf segment k <> [].
Proof. destruct (token_cons k) as [tk ->]. discriminate. Qed.

Lemma trimStart_inst t :
  JS.trimStart (inst segment t) = inst segment (trimStartT t).
Proof.
  induction t as [|[c|k] r IH]; [reflexivity| |].
  - simpl. destruct (JS.isWhiteSpace c); [exact IH|reflexivity].
  - simpl. apply trimStart_stop; [apply token_nonempty|apply token_white].
Qed.

Lemma trimEnd_inst t :
  JS.trimEnd (inst segment t) = inst segment (rev (trimStartT (rev t))).
Proof.
  induction t as [|i t IH] using rev_ind; [reflexivity|].
  rewrite inst_app, rev_app_distr. unfold JS.trimEnd. rewrite rev_app_distr.
  destruct i as [c|k]; simpl.
  - destruct (JS.isWhiteSpace c).
    + exact IH.
    + simpl. rewrite !rev_involutive, inst_app. reflexivity.
  - rewrite app_nil_r.
    rewrite trimStart_stop.
    + rewrite rev_app_distr, !rev_involutive. simpl.
      rewrite inst_app. simpl. now rewrite app_nil_r.
    + intros H. apply (f_equal (@rev ascii)) in H. rewrite rev_involutive in H.
      now apply token_nonempty in H.
    + apply Forall_rev, token_white.
Qed.

Lemma trim_inst t : JS.trim (inst segment t) = inst segment (trimT t).
Proof.
  unfold JS.trim, trimT. rewrite trimStart_inst. apply trimEnd_inst.
Qed.

End Segment.

(** two runs on the same template *)
Lemma mapOutcome_agree {A B C} (f1 f2 : A -> outcome B) (g1 g2 : C -> A) (l : list C) :
  (forall x, In x l -> f1 (g1 x) = f2 (g2 x)) ->
  mapOutcome f1 (map g1 l) = mapOutcome f2 (map g2 l).
Proof.
  induction l as [|x r IH]; intros H; [reflexivity|].
  simpl. rewrite (H x) by now left.
  rewrite IH by (intros; apply H; now right). reflexivity.
Qed.

Section TwoRuns.
Variables seg1 seg2 : str.
Hypothesis good1 : goodSegment seg1.
Hypothesis good2 : goodSegment seg2.
Variable sections : list template.
Variables m1 m2 : gmap str str.
Hypothesis rep1 : represents seg1 sections m1.
Hypothesis rep2 : represents seg2 sections m2.

Lemma lookup_not_token (segment : str) (m : gmap str str) (s : str) :
  goodSegment segment -> represents segment sections m ->
  JS.stripPrefix (lit "segment_") s = None -> m !! s = None.
Proof.
  intros Hgood Hrep Hs. destruct (m !! s) as [v|] eqn:E; [|reflexivity].
  apply Hrep in E. destruct E as [k [t [_ [-> _]]]].
  destruct (token_prefix segment Hgood k) as [rest Hrest].
  rewrite Hrest, stripPrefix_app in Hs. discriminate.
Qed.

Section Step.
Variables rec1 rec2 : str -> outcome (list tree).
Hypothesis rec_agree :
  forall k t, sections !! k = Some t -> rec1 (inst seg1 t) = rec2 (inst seg2 t).

Lemma piece_agree c :
  pieceOK (length sections) c = true ->
  resolveT m1 rec1 (inst seg1 c) = resolveT m2 rec2 (inst seg2 c) /\
  JS.truthy (inst seg1 c) = JS.truthy (inst seg2 c).
Proof.
  intros Hok.
  assert (Hchars : forall s, charsOf c = Some s ->
            JS.stripPrefix (lit "segment_") s = None ->
            resolveT m1 rec1 (inst seg1 c) = resolveT m2 rec2 (inst seg2 c) /\
            JS.truthy (inst seg1 c) = JS.truthy (inst seg2 c)).
  { intros s Hc Hs.
    rewrite (charsOf_inst seg1 c s Hc), (charsOf_inst seg2 c s Hc).
    split; [|reflexivity]. unfold resolveT.
    rewrite (lookup_not_token seg1 m1 s good1 rep1 Hs).
    rewrite (lookup_not_token seg2 m2 s good2 rep2 Hs). reflexivity. }
  assert (Hplain : match charsOf c with
                   | Some s => negb (bool_decide (JS.stripPrefix (lit "segment_") s <> None))
                   | None => false
                   end = true ->
            resolveT m1 rec1 (inst seg1 c) = resolveT m2 rec2 (inst seg2 c) /\
            JS.truthy (inst seg1 c) = JS.truthy (inst seg2 c)).
  { destruct (charsOf c) as [s|] eqn:Ec; [|discriminate].
    intros H. apply negb_true_iff, bool_decide_eq_false in H.
    apply (Hchars s eq_refl).
    destruct (JS.stripPrefix (lit "segment_") s); [|reflexivity].
    exfalso. apply H. discriminate. }
  destruct c as [|[ch|k] [|i r]]; try (apply Hplain; exact Hok).
  simpl in Hok. apply Nat.ltb_lt in Hok.
  destruct (lookup_lt_is_Some_2 sections k Hok) as [t Ht].
  simpl. rewrite !app_nil_r. split.
  - unfold resolveT.
    assert (H1 : m1 !! tokenOf seg1 k = Some (inst seg1 t)) by (apply rep1; eauto).
    assert (H2 : m2 !! tokenOf seg2 k = Some (inst seg2 t)) by (apply rep2; eauto).
    rewrite H1, H2. now apply (rec_agree k).
  - destruct (token_cons seg1 good1 k) as [tk1 ->].
    destruct (token_cons seg2 good2 k) as [tk2 ->]. reflexivity.
Qed.

Lemma chain_agree cs :
  Forall (fun c => pieceOK (length sections) c = true) cs ->
  chainT m1 rec1 (map (inst seg1) cs) = chainT m2 rec2 (map (inst seg2) cs).
Proof.
  induction 1 as [|c cs Hc _ IH]; [reflexivity|].
  simpl. destruct (piece_agree c Hc) as [-> _]. now rewrite IH.
Qed.

Lemma components_inst (segment : str) (p : template) :
  goodSegment segment ->
  map JS.trim (JS.split ">"%char (inst segment p))
  = map (inst segment) (map trimT (splitT ">"%char p)).
Proof.
  intros Hgood. rewrite split_inst by (assumption || reflexivity).
  rewrite !map_map. apply map_ext. intros c. now apply trim_inst.
Qed.

Lemma parental_agree p :
  Forall (fun c => pieceOK (length sections) c = true) (map trimT (splitT ">"%char p)) ->
  createParentalT m1 rec1 (inst seg1 p) = createParentalT m2 rec2 (inst seg2 p).
Proof.
  intros Hok. unfold createParentalT.
  rewrite (components_inst seg1 p good1), (components_inst seg2 p good2).
  destruct (map trimT (splitT ">"%char p)) as [|c cs]; [reflexivity|].
  inversion Hok as [|? ? Hc Hcs]; subst. simpl map.
  destruct (piece_agree c Hc) as [-> ->].
  now rewrite (chain_agree cs Hcs).
Qed.

Lemma body_agree t :
  templateOK (length sections) t = true ->
  createParalelBodyT m1 rec1 (inst seg1 t) = createParalelBodyT m2 rec2 (inst seg2 t).
Proof.
  intros Hok. unfold createParalelBodyT.
  rewrite (split_inst seg1 good1) by reflexivity.
  rewrite (split_inst seg2 good2) by reflexivity.
  rewrite !map_map.
  rewrite (map_ext (fun x => JS.trim (inst seg1 x)) (fun x => inst seg1 (trimT x)))
    by (intros; now apply trim_inst).
  rewrite (map_ext (fun x => JS.trim (inst seg2 x)) (fun x => inst seg2 (trimT x)))
    by (intros; now apply trim_inst).
  rewrite <- (map_map trimT (inst seg1)), <- (map_map trimT (inst seg2)).
  apply mapOutcome_agree. intros p Hp.
  apply parental_agree.
  unfold templateOK, componentsT in Hok. rewrite forallb_forall in Hok.
  apply List.Forall_forall. intros c Hc. apply Hok.
  apply in_map_iff in Hp. destruct Hp as [p0 [<- Hp0]].
  apply in_flat_map. exists p0. split; assumption.
Qed.
End Step.

Hypothesis sections_ok :
  forallb (templateOK (length sections)) sections = true.

Lemma createParalelT_agree depth : forall t,
  templateOK (length sections) t = true ->
  createParalelT m1 depth (inst seg1 t) = createParalelT m2 depth (inst seg2 t).
Proof.
  induction depth as [|d IH]; intros t Hok; [reflexivity|].
  simpl. apply body_agree; [|assumption].
  intros k t' Hk. apply IH.
  rewrite forallb_forall in sections_ok. apply sections_ok.
  apply list_elem_of_In. eapply list_elem_of_lookup_2. exact Hk.
Qed.

End TwoRuns.

Lemma expandT_independent depth rnd1 rnd2 s :
  wellGrouped s = true -> expandT depth rnd1 s = expandT depth rnd2 s.
Proof.
  unfold wellGrouped, expandT. intros H.
  pose proof (splitEmmetIntoSections_groupT (segmentOf rnd1) (segmentOf_good rnd1)
                (normalize s)) as [E1 R1].
  pose proof (splitEmmetIntoSections_groupT (segmentOf rnd2) (segmentOf_good rnd2)
                (normalize s)) as [E2 R2].
  destruct (splitEmmetIntoSections (segmentOf rnd1) (normalize s)) as [d1 m1].
  destruct (splitEmmetIntoSections (segmentOf rnd2) (normalize s)) as [d2 m2].
  destruct (groupT (normalize s)) as [t sections].
  simpl in *. subst d1 d2.
  apply andb_prop in H. destruct H as [Ht Hs].
  apply (createParalelT_agree _ _ (segmentOf_good rnd1) (segmentOf_good rnd2)
           sections m1 m2 R1 R2 Hs depth t Ht).
Qed.

(** * The claims of the specification *)


(** C1. In a descendant chain split on [>], the elements produced by
    resolving a piece (a placeholder expanded recursively, or a leaf)
    are appended as children of exactly the first element produced by
    the previous piece, and the chain returns the root of its first
    piece: read back as trees, what [emmetToElements] leaves in the
    store is what the tree-level composition [expandT] computes, with
    the same exception otherwise.  For instance
    [section>(header>h1{H}+p{P})] gives one [section] whose children are
    [header] (with child [h1] of text [H]) and [p] (of text [P]). *)
Theorem chain_children_attach_to_first (depth rnd : nat) (s : str) :
  expand depth rnd s =
    match expandT depth rnd s with
    | Return ts => Return (Some ts)
    | Throw x => Throw x
    end
  /\ (forall ds recT c rest first others below,
        resolveT ds recT c = Return (first :: others) ->
        chainT ds recT rest = Return below ->
        chainT ds recT (c :: rest) = Return (addChildren first below :: others))
  /\ (forall ds recT piece c rest first others below,
        map JS.trim (JS.split ">"%char piece) = c :: rest ->
        JS.truthy c = true ->
        resolveT ds recT c = Return (first :: others) ->
        chainT ds recT rest = Return below ->
        createParentalT ds recT piece = Return (addChildren first below))
  /\ (forall draw, (draw < 1000)%nat ->
        expand 2 draw (lit "section>(header>h1{H}+p{P})") =
        Return (Some
          [Node (lit "section") None None None []
             [Node (lit "header") None None None []
                [Node (lit "h1") None None (Some (lit "H")) [] []];
              Node (lit "p") None None (Some (lit "P")) [] []]])).
Proof.
  split; [apply expand_expandT|]. split; [|split].
  - intros ds recT c rest first others below Hc Hrest. simpl.
    now rewrite Hc, Hrest.
  - intros ds recT piece c rest first others below Hp Hc Hr Hrest.
    unfold createParentalT. now rewrite Hp, Hc, Hr, Hrest.
  - intros draw Hdraw.
    apply (expandsTo_sound 2 _ (fun _ => _)).
    revert draw Hdraw. apply forallb_below. vm_compute. reflexivity.
Qed.




(** C3. Grouping preprocessing replaces, again and again, the first
    innermost parenthesised group, parentheses included, by the next
    placeholder token, which is fresh for the map, and records the token
    with the inner text, until no group is left.  Every replacement
    removes one opening and one closing parenthesis, so parentheses
    that belong to no group stay in the string; a string without any
    group is returned as it is with an empty map; nothing is raised
    (an unbalanced input still expands). *)
Theorem grouping_preprocessing (rnd : nat) (s : str) :
  let r := splitEmmetIntoSections (segmentOf rnd) s in
  Grouping (segmentOf rnd) O s ∅ (fst r) (snd r)
  /\ noGroup (fst r)
  /\ regPatternExec (fst r) = None
  /\ countOf "("%char s = (countOf "("%char (fst r) + size (snd r))%nat
  /\ countOf ")"%char s = (countOf ")"%char (fst r) + size (snd r))%nat
  /\ (noGroup s -> r = (s, ∅))
  /\ splitEmmetIntoSections (segmentOf 5) (lit "((a)+(b))>(c))") =
       (lit "segment_52>segment_53)",
        <[lit "segment_53" := lit "c"]>
          (<[lit "segment_52" := lit "segment_50+segment_51"]>
             (<[lit "segment_51" := lit "b"]>
                (<[lit "segment_50" := lit "a"]> ∅))))
  /\ expand 1 5 (lit "a(b") =
       Return (Some [Node (lit "a(b") None None None [] []]).
Proof.
  cbv zeta.
  pose proof (splitEmmetIntoSections_Grouping (segmentOf rnd)
                (segmentOf_noParen rnd) s) as HG.
  destruct (Grouping_result (segmentOf rnd) (segmentOf_noParen rnd) _ _ _ _ _ HG)
    as [Hno [n [H1 [H2 H3]]]]; [intros j _; apply lookup_empty|].
  rewrite map_size_empty in H3. simpl in H3. subst n.
  split; [exact HG|]. split; [exact Hno|].
  split; [now apply noGroup_regPatternExec|].
  split; [exact H1|]. split; [exact H2|].
  split; [apply splitEmmetIntoSections_noGroup_id|].
  split; vm_compute; reflexivity.
Qed.

(** C4, as amended.  When the sibling split of the flattened input has
    a piece whose descendant chain starts with an empty first piece
    after trimming (in particular an empty sibling piece, as for the
    empty input or a trailing [+]), [emmetToElements] raises an
    exception instead of returning elements, and the exception is the
    invalid-expression error unless an earlier sibling piece already
    raised another one.  An empty piece further down a chain is not
    rejected: resolving it gives a default [div]. *)
Theorem empty_piece_fails (depth rnd : nat) (s : str) (h : dom) (piece : str) :
  In piece (topLevelPieces rnd s) ->
  chainRootEmpty piece = true ->
  isThrow (emmetToElements depth rnd s h) = true
  /\ (forall before after r,
        topLevelPieces rnd s = before ++ piece :: after ->
        arrayMap (createParental (topLevelSections rnd s)
                    (createParalel (topLevelSections rnd s) depth)) before h
          = Return r ->
        emmetToElements (S depth) rnd s h = Throw InvalidEmmetString)
  /\ (forall rec h0,
        createHTMLElement (topLevelSections rnd s) rec [] h0
        = Return ([Some (length h0)], h0 ++ [defaultDiv])).
Proof.
  intros Hin Hempty. split; [|split].
  - revert Hin. unfold topLevelPieces, emmetToElements.
    destruct (splitEmmetIntoSections (segmentOf rnd) (normalize s)) as [dataString ds].
    simpl fst. intros Hin.
    destruct depth as [|d]; [reflexivity|].
    simpl. unfold createParalelBody.
    apply (arrayMap_throw_at _ _ piece); [assumption|].
    intros h0. now rewrite createParental_rootEmpty.
  - unfold topLevelPieces, topLevelSections, emmetToElements.
    destruct (splitEmmetIntoSections (segmentOf rnd) (normalize s)) as [dataString ds].
    simpl fst. simpl snd.
    intros before after [vs h1] Hpieces Hbefore.
    simpl. unfold createParalelBody. rewrite Hpieces, arrayMap_app, Hbefore.
    simpl. unfold bind. now rewrite createParental_rootEmpty.
  - intros rec h0. unfold createHTMLElement, topLevelSections.
    destruct (splitEmmetIntoSections_groupT (segmentOf rnd) (segmentOf_good rnd)
                (normalize s)) as [_ R].
    erewrite lookup_not_token; [|apply segmentOf_good|exact R|reflexivity].
    unfold bind. rewrite simplifiedEmmetToElement_leafOf. reflexivity.
Qed.

Lemma empty_piece_fails_witness :
  isThrow (emmetToElements 1 5 (lit "div+") []) = true.
Proof.
  apply (empty_piece_fails 1 5 (lit "div+") [] []);
    [right; left; reflexivity|reflexivity].
Defined.

(** C4 as stated fails for the descendant split: in [div>] the split on
    [>] has an empty piece, and the code returns a [div] holding a
    default [div].  And in [a[b]+], whose sibling split ends with an
    empty piece, the exception raised is the [TypeError] of the first
    piece, not the invalid-expression error. *)
Lemma trailing_descendant_no_error :
  In [] (map JS.trim (JS.split ">"%char (lit "div>")))
  /\ isThrow (emmetToElements 1 5 (lit "div>") []) = false
  /\ expand 1 5 (lit "div>") =
       Return (Some [Node (lit "div") None None None []
                       [Node (lit "div") None None None [] []]])
  /\ In [] (topLevelPieces 5 (lit "a[b]+"))
  /\ emmetToElements 1 5 (lit "a[b]+") [] = Throw TypeError.
Proof.
  split; [right; left; reflexivity|].
  split; [vm_compute; reflexivity|].
  split; [vm_compute; reflexivity|].
  split; [right; left; reflexivity|].
  vm_compute. reflexivity.
Qed.






(** C7. Splitting the remaining leaf string on [.] gives the tag/id part
    followed by the class names in order: joined again with [.] the
    pieces give the string back, there is one class per dot, and no
    piece holds a dot.  The classes are the trimmed pieces, none is
    dropped, and consecutive dots leave an empty class at their
    position.  The tag name is never empty: it is [div] when the text
    before the first [#] is empty after trimming. *)
Theorem dotted_classes_preserved (w : str) :
  (exists beforeClasses rawClasses tagName id,
    JS.split "."%char w = beforeClasses :: rawClasses /\
    JS.join ["."%char] (beforeClasses :: rawClasses) = w /\
    length rawClasses = countOf "."%char w /\
    Forall (fun p => ~ In "."%char p) (beforeClasses :: rawClasses) /\
    tagIdClassStep w = Return (tagName, id, map JS.trim rawClasses) /\
    tagName <> [] /\
    (JS.trim (hd [] (JS.split "#"%char beforeClasses)) = [] -> tagName = lit "div") /\
    (JS.trim (hd [] (JS.split "#"%char beforeClasses)) <> [] ->
       tagName = JS.trim (hd [] (JS.split "#"%char beforeClasses))) /\
    (forall x y, w = x ++ "."%char :: "."%char :: y ->
       map JS.trim rawClasses !! countOf "."%char x = Some []))
  /\ tagIdClassStep (lit "p. a ..b") =
       Return (lit "p", None, [lit "a"; []; lit "b"])
  /\ expandSingle (lit ".a..b") =
       Return (Some (Node (lit "div") None (Some (lit "a  b")) None [] [])).
Proof.
  split; [|split; vm_compute; reflexivity].
  unfold countOf.
  destruct (tagIdClassStep_spec w) as [b [cs [t [rest [H1 [H2 H3]]]]]].
  exists b, cs, (if JS.truthy (JS.trim t) then JS.trim t else lit "div"), (head rest).
  split; [assumption|]. split; [rewrite <- H1; apply join_split|].
  split; [pose proof (split_length "."%char w) as HL; rewrite H1 in HL; simpl in HL; lia|].
  split; [rewrite <- H1; apply split_pieces_free|].
  split; [assumption|].
  rewrite H2. simpl hd.
  split; [destruct (JS.trim t); simpl; discriminate|].
  split; [intros ->; reflexivity|].
  split; [destruct (JS.trim t); simpl; [congruence|reflexivity]|].
  intros x y ->.
  pose proof (count_occ_split_index x y) as Hi. rewrite H1 in Hi. simpl in Hi.
  rewrite list_lookup_fmap, Hi. reflexivity.
Qed.

(** C8, as amended.  When every parenthesised group of the input, its
    inner groups once replaced, is by itself a whole chain piece (only
    spaces stand between it and the neighbouring [+], [>], parenthesis
    or end of the input) and no other piece starts with [segment_], two
    runs of [emmetToElements] return the same trees, or raise the same
    exception, whatever numbers are drawn for the placeholder names. *)
Theorem same_trees_for_every_draw (depth rnd1 rnd2 : nat) (s : str) :
  wellGrouped s = true ->
  expand depth rnd1 s = expand depth rnd2 s.
Proof.
  intros H. rewrite !expand_expandT.
  now rewrite (expandT_independent depth rnd1 rnd2 s H).
Qed.

Lemma same_trees_for_every_draw_witness :
  expand 3 5 (lit "section#page>(header>h1{Header} + #content{Content})")
  = expand 3 7 (lit "section#page>(header>h1{Header} + #content{Content})").
Proof.
  apply (same_trees_for_every_draw 3 5 7
           (lit "section#page>(header>h1{Header} + #content{Content})")).
  vm_compute. reflexivity.
Defined.

(** C8 as stated fails.  Both inputs below have balanced parentheses
    and no [+] or [>] inside braces or brackets.  For [(a).b] the
    placeholder itself becomes the tag name, so that any two different
    draws give different trees; for [segment_50>(a)] the draw 5
    generates a placeholder equal to the tag the input already uses,
    and the root becomes [a]. *)
Lemma placeholder_names_leak :
  (forall draw, (draw < 1000)%nat ->
     expand 2 draw (lit "(a).b") =
     Return (Some [Node (tokenOf (segmentOf draw) 0) None (Some (lit "b")) None [] []]))
  /\ (forall draw1 draw2, (draw1 < 1000)%nat -> (draw2 < 1000)%nat ->
       draw1 <> draw2 ->
       expand 2 draw1 (lit "(a).b") <> expand 2 draw2 (lit "(a).b"))
  /\ expand 2 5 (lit "(a).b") =
    Return (Some [Node (lit "segment_50") None (Some (lit "b")) None [] []])
  /\ expand 2 7 (lit "(a).b") =
    Return (Some [Node (lit "segment_70") None (Some (lit "b")) None [] []])
  /\ expand 2 5 (lit "segment_50>(a)") =
    Return (Some [Node (lit "a") None None None []
                    [Node (lit "a") None None None [] []]])
  /\ expand 2 7 (lit "segment_50>(a)") =
    Return (Some [Node (lit "segment_50") None None None []
                    [Node (lit "a") None None None [] []]])
  /\ expand 2 5 (lit "segment_50>(a)") <> expand 2 7 (lit "segment_50>(a)").
Proof.
  assert (Hleak : forall draw, (draw < 1000)%nat ->
     expand 2 draw (lit "(a).b") =
     Return (Some [Node (tokenOf (segmentOf draw) 0) None (Some (lit "b")) None [] []])).
  { intros draw Hdraw.
    apply (expandsTo_sound 2 _
             (fun d => Node (tokenOf (segmentOf d) 0) None (Some (lit "b")) None [] [])).
    revert draw Hdraw. apply forallb_below. vm_compute. reflexivity. }
  split; [exact Hleak|]. split.
  - intros draw1 draw2 H1 H2 Hne. rewrite (Hleak draw1 H1), (Hleak draw2 H2).
    intros H.
    assert (Ht : tokenOf (segmentOf draw1) 0 = tokenOf (segmentOf draw2) 0)
      by congruence.
    unfold tokenOf, segmentOf in Ht.
    apply app_inv_tail, app_inv_head, numberToString_inj in Ht. contradiction.
  - repeat split; vm_compute; (reflexivity || discriminate).
Qed.

(** C9. The sibling split on [+] always has at least one piece.  Hence
    resolving a chain piece, leaf or placeholder, never returns an empty
    array: whenever [createHTMLElement] returns, the array is non-empty,
    has no [undefined] entry, and its first entry is an element of the
    store; and [createParalel] returns one element per piece. *)
Theorem resolution_never_empty (ds : gmap str str) (depth : nat)
    (component : str) (h h' : dom) (l : list (option ref)) :
  createHTMLElement ds (createParalel ds depth) component h = Return (l, h') ->
  (forall s, JS.split "+"%char s <> [])
  /\ l <> []
  /\ Forall is_Some l
  /\ (exists r, mjoin (head l) = Some r /\ is_Some (h' !! r))
  /\ (forall s h0 l0 h0',
        createParalel ds depth s h0 = Return (l0, h0') ->
        l0 <> [] /\ length l0 = length (JS.split "+"%char s)).
Proof.
  intros H. split; [intros s; apply split_nonempty|].
  pose proof (createHTMLElement_populated ds (createParalel ds depth)
                (fun s h l h' Hs => proj1 (createParalel_populated ds depth s h l h' Hs))
                component h l h' H) as [Hne Hall].
  split; [exact Hne|]. split; [exact Hall|]. split.
  - pose proof (createHTMLElement_simulates ds (createParalel ds depth)
                  (createParalelT ds depth) (createParalel_simulates ds depth)
                  component h) as Hs.
    rewrite H in Hs.
    destruct Hs as [ts [_ [rs [-> [Hrs [_ [_ Hroots]]]]]]].
    destruct rs as [|r rs]; [contradiction|].
    inversion Hroots as [|? t ? ? [Hr _] _]; subst.
    exists r. split; [reflexivity|].
    destruct (reprTo_lookup _ _ _ _ Hr) as [e [He _]]. rewrite He. now eexists.
  - intros s h0 l0 h0' Hs.
    destruct (createParalel_populated ds depth s h0 l0 h0' Hs) as [[Hl _] Hlen].
    split; assumption.
Qed.

Lemma resolution_never_empty_witness :
  exists r, mjoin (head [Some O]) = Some r /\
            is_Some ([mkElement (lit "div") None None None [] [] None] !! r).
Proof.
  apply (resolution_never_empty ∅ 0 (lit "div") []
           [mkElement (lit "div") None None None [] [] None] [Some O]).
  reflexivity.
Defined.

(** C10. On the empty string, and on any string of white space only,
    [simplifiedEmmetToElement] raises nothing and returns a fresh [div]
    without id, class, text, attributes or children, whereas
    [emmetToElements] raises the invalid-expression error on the same
    input. *)
Theorem whitespace_only_default_div (s : str) (h : dom) :
  allWhite s ->
  simplifiedEmmetToElement s h = Return (length h, h ++ [defaultDiv])
  /\ (forall depth rnd, emmetToElements (S depth) rnd s h = Throw InvalidEmmetString)
  /\ (forall depth rnd, isThrow (emmetToElements depth rnd s h) = true).
Proof.
  intros H.
  assert (Hfull : forall depth rnd, emmetToElements (S depth) rnd s h = Throw InvalidEmmetString).
  { intros depth rnd. unfold emmetToElements.
    destruct (normalize_white s H) as [-> | ->]; reflexivity. }
  split; [|split; [exact Hfull|]].
  - rewrite simplifiedEmmetToElement_leafOf. unfold leafOf.
    destruct (normalize_white s H) as [-> | ->]; reflexivity.
  - intros [|depth] rnd; [|now rewrite Hfull].
    unfold emmetToElements.
    destruct (splitEmmetIntoSections _ _). reflexivity.
Qed.

Lemma whitespace_only_default_div_witness :
  simplifiedEmmetToElement [] [] = Return (O, [defaultDiv])
  /\ simplifiedEmmetToElement (lit "   ") [] = Return (O, [defaultDiv])
  /\ emmetToElements 1 5 [] [] = Throw InvalidEmmetString.
Proof.
  split; [apply (whitespace_only_default_div [] []); constructor|].
  split; [apply (whitespace_only_default_div (lit "   ") []); repeat constructor|].
  apply (whitespace_only_default_div [] []); constructor.
Defined.

(** * Further properties of the code

    Properties read off the source beside the claims of the
    specification, X1 to X20, each with the lemmas it needs. *)

(** ** Normalisation *)

Lemma isTabNlCr_white c : JS.isTabNlCr c = true -> JS.isWhiteSpace c = true.
Proof.
  unfold JS.isTabNlCr, JS.isWhiteSpace. cbv zeta.
  intros H. apply orb_true_iff in H as [H|H];
    [apply orb_true_iff in H as [H|H]|]; rewrite H; rewrite ?orb_true_r; reflexivity.
Qed.

Lemma collapseWhiteSpace_tidy s : tidy (JS.collapseWhiteSpace s) = true.
Proof.
  induction s as [|c r IH]; [reflexivity|].
  cbn [JS.collapseWhiteSpace]. destruct (JS.isWhiteSpace c) eqn:Ec.
  - destruct r as [|c' r']; [reflexivity|].
    destruct (JS.isWhiteSpace c') eqn:Ec'; [exact IH|].
    cbn [tidy]. rewrite IH. cbn [JS.collapseWhiteSpace]. rewrite Ec'.
    cbn [JS.collapseWhiteSpace] in IH. rewrite Ec'. reflexivity.
  - cbn [tidy]. rewrite Ec, IH. reflexivity.
Qed.

Lemma tidy_collapseWhiteSpace s : tidy s = true -> JS.collapseWhiteSpace s = s.
Proof.
  induction s as [|c r IH]; [reflexivity|].
  cbn [tidy JS.collapseWhiteSpace]. intros H.
  apply andb_true_iff in H as [H1 H2]. rewrite (IH H2).
  destruct (JS.isWhiteSpace c) eqn:Ec; [|reflexivity].
  apply andb_true_iff in H1 as [H1 H3]. apply eqb_true_iff in H1. subst c.
  destruct r as [|c' r']; [reflexivity|].
  apply negb_true_iff in H3. rewrite H3. reflexivity.
Qed.

Lemma tidy_removeTabNlCr s : tidy s = true -> JS.removeTabNlCr s = s.
Proof.
  induction s as [|c r IH]; [reflexivity|].
  cbn [tidy]. intros H. apply andb_true_iff in H as [H1 H2].
  unfold JS.removeTabNlCr in *. cbn [List.filter]. rewrite (IH H2).
  destruct (JS.isTabNlCr c) eqn:Et; [|reflexivity].
  rewrite (isTabNlCr_white _ Et) in H1.
  apply andb_true_iff in H1 as [H1 _]. apply eqb_true_iff in H1. subst c.
  discriminate Et.
Qed.

Lemma normalize_tidy s : tidy (normalize s) = true.
Proof. apply collapseWhiteSpace_tidy. Qed.

Lemma tidy_normalize s : tidy s = true -> normalize s = s.
Proof.
  intros H. unfold normalize. rewrite (tidy_removeTabNlCr _ H).
  apply tidy_collapseWhiteSpace, H.
Qed.

Lemma normalize_idem s : normalize (normalize s) = normalize s.
Proof. apply tidy_normalize, normalize_tidy. Qed.

Lemma tidy_spec s :
  tidy s = true ->
  Forall (fun c => JS.isWhiteSpace c = true -> c = " "%char) s /\
  forall x c1 c2 y, s = x ++ c1 :: c2 :: y ->
    ~ (JS.isWhiteSpace c1 = true /\ JS.isWhiteSpace c2 = true).
Proof.
  induction s as [|c r IH]; intros H.
  - split; [constructor|]. intros [|] ? ? ? E; discriminate E.
  - cbn [tidy] in H. apply andb_true_iff in H as [H1 H2].
    destruct (IH H2) as [IH1 IH2]. split.
    + constructor; [|exact IH1]. intros Ec. rewrite Ec in H1.
      apply andb_true_iff in H1 as [H1 _]. apply eqb_true_iff in H1. exact H1.
    + intros [|x0 x] c1 c2 y E [W1 W2].
      * injection E as -> ->. rewrite W1 in H1.
        apply andb_true_iff in H1 as [_ H1]. rewrite W2 in H1. discriminate H1.
      * injection E as -> E. exact (IH2 _ _ _ _ E (conj W1 W2)).
Qed.

(** X1.  Normalisation is idempotent, and so both entry points give the
    same result on an input and on its normal form; a normal form holds
    no tab, line feed or carriage return, its only white-space unit is
    the space, and it never holds two white-space units in a row. *)
Theorem normalisation_idempotent (s : str) :
  normalize (normalize s) = normalize s /\
  (forall h, simplifiedEmmetToElement (normalize s) h = simplifiedEmmetToElement s h) /\
  (forall depth rnd h,
      emmetToElements depth rnd (normalize s) h = emmetToElements depth rnd s h) /\
  Forall (fun c => JS.isWhiteSpace c = true -> c = " "%char) (normalize s) /\
  (forall x c1 c2 y, normalize s = x ++ c1 :: c2 :: y ->
     ~ (JS.isWhiteSpace c1 = true /\ JS.isWhiteSpace c2 = true)).
Proof.
  split; [apply normalize_idem|].
  split; [intros h; unfold simplifiedEmmetToElement; rewrite normalize_idem; reflexivity|].
  split; [intros depth rnd h; unfold emmetToElements; rewrite normalize_idem; reflexivity|].
  apply tidy_spec, normalize_tidy.
Qed.

(** ** Outcomes of the leaf expander *)

Lemma mapOutcome_Throw_inv {A B} (f : A -> outcome B) (l : list A) (e : exn) :
  mapOutcome f l = Throw e -> exists x, In x l /\ f x = Throw e.
Proof.
  induction l as [|x r IH]; simpl; [discriminate|].
  destruct (f x) as [y|e'] eqn:Ex.
  - destruct (mapOutcome f r) as [ys|e'']; [discriminate|].
    intros [= ->]. destruct (IH eq_refl) as [x' [Hin Hx]]. eauto.
  - intros [= ->]. eauto.
Qed.

Lemma trim_keeps (c : ascii) (s : str) :
  JS.isWhiteSpace c = false -> In c s -> In c (JS.trim s).
Proof.
  intros Hc Hin. destruct (trim_infix s) as [w1 [w2 [E [H1 H2]]]].
  rewrite E in Hin. rewrite !in_app_iff in Hin.
  destruct Hin as [Hin|[Hin|Hin]]; [|exact Hin|].
  - rewrite List.Forall_forall in H1. rewrite (H1 _ Hin) in Hc. discriminate.
  - rewrite List.Forall_forall in H2. rewrite (H2 _ Hin) in Hc. discriminate.
Qed.

Lemma parseAttribute_Throw_inv tok e :
  parseAttribute tok = Throw e -> ~ In "="%char tok.
Proof.
  unfold parseAttribute. intros H Hin.
  apply (trim_keeps "="%char) in Hin; [|reflexivity].
  pose proof (split_length "="%char (JS.trim tok)) as L.
  apply (count_occ_In ascii_dec) in Hin.
  destruct (JS.split "="%char (JS.trim tok)) as [|p0 [|p1 ps]]; simpl in L; try lia.
  destruct (negb _); discriminate H.
Qed.

Lemma tagIdClassStep_returns w : exists r, tagIdClassStep w = Return r.
Proof.
  destruct (tagIdClassStep_spec w) as [b [c [t [r [_ [_ E]]]]]]. eauto.
Qed.

Lemma leafOf_Throw_iff s e :
  leafOf s = Throw e <->
  e = TypeError /\
  JS.lastIndexOf "["%char (afterInnerText s) <> (-1)%Z /\
  exists tok, In tok (attributeTokens (attributeTextOf (afterInnerText s))) /\
              ~ In "="%char tok.
Proof.
  unfold leafOf, afterInnerText.
  destruct (innerTextStep (normalize s)) as [txt w1] eqn:E1. cbn [snd].
  split.
  - unfold attributesStep. cbv zeta. fold (attributeTextOf w1).
    destruct (negb (JS.lastIndexOf "["%char w1 =? -1)%Z) eqn:Eb.
    + destruct (mapOutcome parseAttribute (attributeTokens (attributeTextOf w1)))
        as [attrs|e'] eqn:Em.
      * destruct (tagIdClassStep_returns
                    (JS.replace ("["%char :: attributeTextOf w1 ++ ["]"%char]) [] w1))
          as [[[t i] c] ->]. discriminate.
      * intros [= ->]. apply mapOutcome_Throw_inv in Em as [tok [Hin Ht]].
        split; [exact (parseAttribute_exn _ _ Ht)|].
        split; [apply negb_true_iff, Z.eqb_neq in Eb; exact Eb|].
        exists tok. split; [exact Hin|exact (parseAttribute_Throw_inv _ _ Ht)].
    + destruct (tagIdClassStep_returns w1) as [[[t i] c] ->]. discriminate.
  - intros [-> [Hb [tok [Hin Hno]]]].
    rewrite (attributesStep_throw w1 tok Hb Hin Hno). reflexivity.
Qed.


(** X3.  A successful call of the leaf expander adds exactly one element
    at the end of the store and returns its reference; the element has
    no child and no parent, its tag name is never empty, and every
    element that was in the store before is left as it was. *)
Theorem leaf_allocates_one_element (s : str) (h h' : dom) (r : ref) :
  simplifiedEmmetToElement s h = Return (r, h') ->
  r = length h /\
  exists e, h' = h ++ [e] /\ childNodes e = [] /\ parentNode e = None /\
            tagName e <> [] /\
            (forall i, (i < length h)%nat -> h' !! i = h !! i).
Proof.
  rewrite simplifiedEmmetToElement_leafOf.
  destruct (leafOf s) as [e|x] eqn:E; [|discriminate].
  intros [= <- <-]. split; [reflexivity|].
  exists e. destruct (leafOf_shape _ _ E) as [Hc Hp].
  repeat split; try assumption.
  - unfold leafOf in E.
    destruct (innerTextStep (normalize s)) as [txt w1].
    destruct (attributesStep w1) as [[attrs w2]|]; [|discriminate].
    destruct (tagIdClassStep_spec w2) as [b [c [t [rest [_ [_ Et]]]]]].
    rewrite Et in E. injection E as <-. cbn [tagName leafElement].
    destruct (JS.truthy (JS.trim t)) eqn:Etr; [|discriminate].
    destruct (JS.trim t); [discriminate Etr|discriminate].
  - intros i Hi. apply lookup_app_l. exact Hi.
Qed.

Lemma leaf_allocates_one_element_witness :
  O = length (@nil element) /\
  exists e, [mkElement (lit "p") None None None [] [] None] = [] ++ [e] /\
            childNodes e = [] /\ parentNode e = None /\ tagName e <> [] /\
            (forall i, (i < length (@nil element))%nat ->
                       [mkElement (lit "p") None None None [] [] None] !! i
                       = (@nil element) !! i).
Proof.
  apply (leaf_allocates_one_element (lit "p") [] _ O). reflexivity.
Defined.

(** ** The store around a call of [emmetToElements] *)

Lemma forestPost_reifyAll h l h' ts :
  forestPost h l h' ts -> reifyAll h' l = Some ts.
Proof.
  intros [rs [-> [_ [_ [_ Hroots]]]]].
  unfold reifyAll. apply optionMap_Forall2.
  induction Hroots as [|r t rs ts [Hr _] _ IH]; constructor.
  - apply (reprTo_reify h' (length h')); [assumption|lia].
  - exact IH.
Qed.

(** X4.  A successful call of [emmetToElements] leaves every element
    that was in the store before as it was; the array it returns is not
    empty, holds no [undefined], and its entries are distinct elements
    created by the call, each without a parent. *)
Theorem emmetToElements_fresh_roots (depth rnd : nat) (s : str) (h h' : dom)
    (l : list (option ref)) :
  emmetToElements depth rnd s h = Return (l, h') ->
  (length h <= length h')%nat /\
  (forall i, (i < length h)%nat -> h' !! i = h !! i) /\
  exists rs, l = map Some rs /\ rs <> [] /\ NoDup rs /\
    Forall (fun r => (length h <= r < length h')%nat /\
                     exists e, h' !! r = Some e /\ parentNode e = None) rs.
Proof.
  unfold emmetToElements. cbv zeta.
  destruct (splitEmmetIntoSections (segmentOf rnd) (normalize s)) as [dataString ds].
  intros E. pose proof (createParalel_simulates ds depth dataString h) as H.
  rewrite E in H. destruct H as [ts [_ [rs [-> [Hne [[Hlen Hext] [Hinc Hroots]]]]]]].
  split; [exact Hlen|]. split; [exact Hext|].
  exists rs. split; [reflexivity|]. split; [exact Hne|].
  split; [exact (increasingFrom_NoDup _ _ Hinc)|].
  apply increasingFrom_Forall in Hinc.
  clear -Hinc Hroots. induction Hroots as [|r t rs ts [Hr Hd] _ IH]; [constructor|].
  inversion Hinc as [|? ? H1 H2]; subst. constructor; [|apply IH, H2].
  split; [|exact Hd]. destruct (reprTo_lookup _ _ _ _ Hr) as [e [_ Hlt]]. lia.
Qed.

Lemma emmetToElements_fresh_roots_witness :
  exists rs, [Some 0%nat; Some 1%nat] = map Some rs /\ rs <> [] /\ NoDup rs.
Proof.
  destruct (emmetToElements_fresh_roots 1 5 (lit "a+b") [] _ _ eq_refl)
    as [_ [_ [rs [E [Hne [Hnd _]]]]]].
  exists rs. auto.
Defined.

(** X5.  The trees built do not depend on the store the call starts
    from: the result of [emmetToElements] in any store reads back to the
    forest obtained in the empty store, and it raises an exception
    exactly when the call in the empty store raises that exception. *)
Theorem emmetToElements_store_independent (depth rnd : nat) (s : str) (h : dom) :
  match emmetToElements depth rnd s h with
  | Return (l, h') => expand depth rnd s = Return (reifyAll h' l) /\ reifyAll h' l <> None
  | Throw e => expand depth rnd s = Throw e
  end.
Proof.
  rewrite expand_expandT. unfold expandT, emmetToElements. cbv zeta.
  destruct (splitEmmetIntoSections (segmentOf rnd) (normalize s)) as [dataString ds].
  pose proof (createParalel_simulates ds depth dataString h) as H.
  destruct (createParalel ds depth dataString h) as [[l h']|x]; [|now rewrite H].
  destruct H as [ts [-> Hpost]]. rewrite (forestPost_reifyAll _ _ _ _ Hpost).
  split; [reflexivity|discriminate].
Qed.

(** ** Normalisation and trimming around a separator *)

Lemma removeTabNlCr_app a b :
  JS.removeTabNlCr (a ++ b) = JS.removeTabNlCr a ++ JS.removeTabNlCr b.
Proof. unfold JS.removeTabNlCr. apply List.filter_app. Qed.

Lemma collapseWhiteSpace_app a c b :
  JS.isWhiteSpace c = false ->
  JS.collapseWhiteSpace (a ++ c :: b)
  = JS.collapseWhiteSpace a ++ c :: JS.collapseWhiteSpace b.
Proof.
  intros Hc. induction a as [|x r IH].
  - cbn [app JS.collapseWhiteSpace]. rewrite Hc. reflexivity.
  - change ((x :: r) ++ c :: b) with (x :: (r ++ c :: b)).
    cbn [JS.collapseWhiteSpace]. rewrite IH.
    destruct (JS.isWhiteSpace x); [|reflexivity].
    destruct r as [|c' r']; cbn [app]; [rewrite Hc; reflexivity|].
    destruct (JS.isWhiteSpace c'); reflexivity.
Qed.

Lemma normalize_app a c b :
  JS.isWhiteSpace c = false ->
  normalize (a ++ c :: b) = normalize a ++ c :: normalize b.
Proof.
  intros Hc. unfold normalize. rewrite removeTabNlCr_app.
  assert (Ht : JS.isTabNlCr c = false).
  { destruct (JS.isTabNlCr c) eqn:E; [|reflexivity].
    rewrite (isTabNlCr_white _ E) in Hc. discriminate. }
  unfold JS.removeTabNlCr at 2. cbn [List.filter]. rewrite Ht. cbn [negb].
  apply collapseWhiteSpace_app, Hc.
Qed.

Lemma collapseWhiteSpace_in c s :
  In c (JS.collapseWhiteSpace s) -> In c s \/ c = " "%char.
Proof.
  induction s as [|x r IH]; [intros []|].
  cbn [JS.collapseWhiteSpace].
  destruct (JS.isWhiteSpace x).
  - destruct r as [|c' r'].
    + intros [<-|[]]. now right.
    + destruct (JS.isWhiteSpace c').
      * intros H. destruct (IH H) as [H'|H']; [left; now right|now right].
      * intros [<-|H]; [now right|].
        destruct (IH H) as [H'|H']; [left; now right|now right].
  - intros [<-|H]; [left; now left|].
    destruct (IH H) as [H'|H']; [left; now right|now right].
Qed.

Lemma normalize_in c s : In c (normalize s) -> In c s \/ c = " "%char.
Proof.
  intros H. apply collapseWhiteSpace_in in H as [H|H]; [|now right].
  left. unfold JS.removeTabNlCr in H. apply filter_In in H. tauto.
Qed.

Lemma normalize_notin c s :
  c <> " "%char -> ~ In c s -> ~ In c (normalize s).
Proof. intros Hc Hs H. apply normalize_in in H. tauto. Qed.

Lemma normalize_noParen s : noParen s -> noParen (normalize s).
Proof.
  unfold noParen. rewrite !List.Forall_forall. intros H c Hc.
  apply normalize_in in Hc as [Hc| ->]; [now apply H|reflexivity].
Qed.

Lemma noParen_noGroup s : noParen s -> noGroup s.
Proof.
  intros H pre inner post E _. subst s.
  apply noParen_app in H as [_ H]. inversion H as [|? ? Hc _]. discriminate Hc.
Qed.

Lemma trimStart_idem s : JS.trimStart (JS.trimStart s) = JS.trimStart s.
Proof.
  induction s as [|c r IH]; [reflexivity|].
  cbn [JS.trimStart]. destruct (JS.isWhiteSpace c) eqn:E; [exact IH|].
  cbn [JS.trimStart]. rewrite E. reflexivity.
Qed.

Lemma trimStart_pad w s :
  Forall (fun c => JS.isWhiteSpace c = true) w ->
  JS.trimStart (w ++ s) = JS.trimStart s.
Proof.
  induction 1 as [|c w Hc _ IH]; [reflexivity|].
  cbn [app JS.trimStart]. rewrite Hc. exact IH.
Qed.

Lemma trimStart_keep s w :
  JS.trimStart s <> [] -> JS.trimStart (s ++ w) = JS.trimStart s ++ w.
Proof.
  induction s as [|c r IH]; [intros H; now contradiction H|].
  cbn [app JS.trimStart]. destruct (JS.isWhiteSpace c); [exact IH|reflexivity].
Qed.

Lemma trimEnd_pad s w :
  Forall (fun c => JS.isWhiteSpace c = true) w ->
  JS.trimEnd (s ++ w) = JS.trimEnd s.
Proof.
  intros H. unfold JS.trimEnd. rewrite rev_app_distr.
  rewrite trimStart_pad; [reflexivity|].
  apply List.Forall_forall. intros c Hc. apply in_rev in Hc.
  rewrite List.Forall_forall in H. now apply H.
Qed.

Lemma trim_pad w1 s w2 :
  Forall (fun c => JS.isWhiteSpace c = true) w1 ->
  Forall (fun c => JS.isWhiteSpace c = true) w2 ->
  JS.trim (w1 ++ s ++ w2) = JS.trim s.
Proof.
  intros H1 H2. unfold JS.trim. rewrite (trimStart_pad _ _ H1).
  destruct (JS.trimStart s) as [|c r] eqn:E.
  - destruct (trimStart_suffix s) as [w [Es Hw]]. rewrite E, app_nil_r in Es. subst w.
    rewrite trimStart_white; [reflexivity|].
    apply Forall_app. split; assumption.
  - rewrite trimStart_keep; [|rewrite E; discriminate].
    rewrite E. apply trimEnd_pad, H2.
Qed.

Lemma trim_idem s : JS.trim (JS.trim s) = JS.trim s.
Proof.
  destruct (trim_infix s) as [w1 [w2 [E [H1 H2]]]].
  rewrite E at 2. symmetry. apply trim_pad; assumption.
Qed.

Lemma map_trim_split_pad (sep : ascii) w1 s w2 :
  JS.isWhiteSpace sep = false ->
  Forall (fun c => JS.isWhiteSpace c = true) w1 ->
  Forall (fun c => JS.isWhiteSpace c = true) w2 ->
  map JS.trim (JS.split sep (w1 ++ s ++ w2)) = map JS.trim (JS.split sep s).
Proof.
  intros Hsep H1 H2.
  assert (N1 : ~ In sep w1).
  { intros Hin. rewrite List.Forall_forall in H1. rewrite (H1 _ Hin) in Hsep. discriminate. }
  assert (N2 : ~ In sep w2).
  { intros Hin. rewrite List.Forall_forall in H2. rewrite (H2 _ Hin) in Hsep. discriminate. }
  assert (Hend : forall t, map JS.trim (JS.split sep (t ++ w2)) = map JS.trim (JS.split sep t)).
  { intros t. destruct (in_dec ascii_dec sep t) as [Hin|Hno].
    - destruct (in_split_last sep t Hin) as [a [b [-> Hb]]].
      rewrite <- app_assoc. cbn [app]. rewrite !split_app_general, !map_app.
      f_equal. rewrite !split_notin; [|exact Hb|rewrite in_app_iff; tauto].
      cbn [map]. f_equal.
      apply (trim_pad [] b w2); [constructor|exact H2].
    - rewrite !split_notin; [|exact Hno|rewrite in_app_iff; tauto].
      cbn [map]. f_equal. apply (trim_pad [] t w2); [constructor|exact H2]. }
  rewrite app_assoc, Hend.
  destruct (in_dec ascii_dec sep s) as [Hin|Hno].
  - destruct (in_split_first sep s Hin) as [a [b [-> Ha]]].
    rewrite app_assoc. rewrite !split_app; [|exact Ha|rewrite in_app_iff; tauto].
    cbn [map]. f_equal.
    rewrite <- (app_nil_r (w1 ++ a)), <- app_assoc.
    apply trim_pad; [exact H1|constructor].
  - rewrite !split_notin; [|exact Hno|rewrite in_app_iff; tauto].
    cbn [map]. f_equal.
    rewrite <- (app_nil_r (w1 ++ s)), <- app_assoc.
    apply trim_pad; [exact H1|constructor].
Qed.

Lemma map_trim_split_trim (sep : ascii) s :
  JS.isWhiteSpace sep = false ->
  map JS.trim (JS.split sep (JS.trim s)) = map JS.trim (JS.split sep s).
Proof.
  intros Hsep. destruct (trim_infix s) as [w1 [w2 [E [H1 H2]]]].
  rewrite E at 2. symmetry. apply map_trim_split_pad; assumption.
Qed.

(** ** Composition without groups *)

Lemma mapOutcome_app {A B} (f : A -> outcome B) (l1 l2 : list A) :
  mapOutcome f (l1 ++ l2) =
  match mapOutcome f l1 with
  | Throw e => Throw e
  | Return x => match mapOutcome f l2 with
                | Throw e => Throw e
                | Return y => Return (x ++ y)
                end
  end.
Proof.
  induction l1 as [|a l1 IH]; cbn [app mapOutcome].
  - destruct (mapOutcome f l2); reflexivity.
  - destruct (f a); [|reflexivity]. rewrite IH.
    destruct (mapOutcome f l1); [|reflexivity].
    destruct (mapOutcome f l2); reflexivity.
Qed.

Lemma resolveT_empty recT c :
  resolveT ∅ recT c = match leafOf c with
                      | Return e => Return [leafTree e]
                      | Throw x => Throw x
                      end.
Proof. unfold resolveT. rewrite lookup_empty. reflexivity. Qed.

Lemma addChildren_nil t : addChildren t [] = t.
Proof. destruct t. cbn. rewrite app_nil_r. reflexivity. Qed.

(** The expansion of an input without parentheses. *)
Lemma expandT_noParen depth rnd s :
  noParen s ->
  expandT (S depth) rnd s =
  mapOutcome (createParentalT ∅ (createParalelT ∅ depth))
             (map JS.trim (JS.split "+"%char (normalize s))).
Proof.
  intros H. unfold expandT.
  rewrite splitEmmetIntoSections_noGroup_id;
    [reflexivity|apply noParen_noGroup, normalize_noParen, H].
Qed.

Lemma expand_Return_inv depth rnd s ts :
  expand depth rnd s = Return (Some ts) <-> expandT depth rnd s = Return ts.
Proof.
  rewrite expand_expandT. destruct (expandT depth rnd s); split; congruence.
Qed.

Lemma expand_Throw_inv depth rnd s e :
  expand depth rnd s = Throw e <-> expandT depth rnd s = Throw e.
Proof.
  rewrite expand_expandT. destruct (expandT depth rnd s); split; congruence.
Qed.

Lemma expand_Return_Some depth rnd s r :
  expand depth rnd s = Return r -> exists ts, r = Some ts.
Proof.
  rewrite expand_expandT. destruct (expandT depth rnd s); [|discriminate].
  intros [= <-]. eauto.
Qed.

(** X6.  Sibling composition of inputs without parentheses: the forest
    of [a+b] is the forest of [a] followed by the forest of [b]; an
    exception of [a] wins, then an exception of [b]. *)
Theorem sibling_composition (depth rnd : nat) (a b : str) :
  noParen a -> noParen b ->
  (forall ta tb,
      expand (S depth) rnd a = Return (Some ta) ->
      expand (S depth) rnd b = Return (Some tb) ->
      expand (S depth) rnd (a ++ "+"%char :: b) = Return (Some (ta ++ tb))) /\
  (forall e, expand (S depth) rnd a = Throw e ->
             expand (S depth) rnd (a ++ "+"%char :: b) = Throw e) /\
  (forall ta e, expand (S depth) rnd a = Return ta ->
                expand (S depth) rnd b = Throw e ->
                expand (S depth) rnd (a ++ "+"%char :: b) = Throw e).
Proof.
  intros Ha Hb.
  assert (Hab : noParen (a ++ "+"%char :: b)).
  { apply noParen_app. split; [exact Ha|constructor; [reflexivity|exact Hb]]. }
  assert (E : expandT (S depth) rnd (a ++ "+"%char :: b) =
              match expandT (S depth) rnd a with
              | Throw e => Throw e
              | Return x => match expandT (S depth) rnd b with
                            | Throw e => Throw e
                            | Return y => Return (x ++ y)
                            end
              end).
  { rewrite !expandT_noParen by assumption.
    rewrite normalize_app by reflexivity.
    rewrite split_app_general, map_app. apply mapOutcome_app. }
  split; [|split].
  - intros ta tb H1 H2. apply expand_Return_inv in H1, H2.
    apply expand_Return_inv. rewrite E, H1, H2. reflexivity.
  - intros e H1. apply expand_Throw_inv in H1.
    apply expand_Throw_inv. rewrite E, H1. reflexivity.
  - intros ta e H1 H2. destruct (expand_Return_Some _ _ _ _ H1) as [ta' ->].
    apply expand_Return_inv in H1. apply expand_Throw_inv in H2.
    apply expand_Throw_inv. rewrite E, H1, H2. reflexivity.
Qed.

Lemma sibling_composition_witness :
  expand 1 5 (lit "a" ++ "+"%char :: lit "b>c")
  = Return (Some ([Node (lit "a") None None None [] []]
                  ++ [Node (lit "b") None None None []
                           [Node (lit "c") None None None [] []]])).
Proof.
  refine (proj1 (sibling_composition 0 5 (lit "a") (lit "b>c") _ _) _ _ _ _).
  - repeat constructor.
  - repeat constructor.
  - reflexivity.
  - reflexivity.
Defined.

(** The pieces of a chain without [+] and parentheses. *)
Lemma expandT_chain depth rnd s :
  noParen s -> ~ In "+"%char s ->
  expandT (S depth) rnd s =
  match createParentalT ∅ (createParalelT ∅ depth) (normalize s) with
  | Return t => Return [t]
  | Throw e => Throw e
  end.
Proof.
  intros Hp Hplus. rewrite expandT_noParen by exact Hp.
  rewrite split_notin by (apply normalize_notin; [discriminate|exact Hplus]).
  cbn [map mapOutcome].
  unfold createParentalT. rewrite map_trim_split_trim by reflexivity.
  reflexivity.
Qed.

(** X7.  Descendant composition of inputs without parentheses and
    [+]: when [p] holds no [>], the tree of [p>q] is the tree of [p]
    with the tree of [q] as its only child.  An exception of [p] wins;
    an exception of [q] other than the empty-root error is raised by
    [p>q] as well. *)
Theorem descendant_composition (depth rnd : nat) (p q : str) :
  noParen p -> noParen q ->
  ~ In "+"%char p -> ~ In "+"%char q -> ~ In ">"%char p ->
  (forall tp tq,
      expand (S depth) rnd p = Return (Some [tp]) ->
      expand (S depth) rnd q = Return (Some [tq]) ->
      expand (S depth) rnd (p ++ ">"%char :: q)
      = Return (Some [addChildren tp [tq]])) /\
  (forall e, expand (S depth) rnd p = Throw e ->
             expand (S depth) rnd (p ++ ">"%char :: q) = Throw e) /\
  (forall tp e, expand (S depth) rnd p = Return tp ->
                expand (S depth) rnd q = Throw e -> e <> InvalidEmmetString ->
                expand (S depth) rnd (p ++ ">"%char :: q) = Throw e).
Proof.
  intros Hp Hq Pp Pq Gp.
  assert (Hpq : noParen (p ++ ">"%char :: q)).
  { apply noParen_app. split; [exact Hp|constructor; [reflexivity|exact Hq]]. }
  assert (Ppq : ~ In "+"%char (p ++ ">"%char :: q)).
  { rewrite in_app_iff. intros [H|[H|H]]; [tauto|discriminate H|tauto]. }
  pose proof (expandT_chain depth rnd _ Hpq Ppq) as Epq.
  pose proof (expandT_chain depth rnd _ Hp Pp) as Ep.
  pose proof (expandT_chain depth rnd _ Hq Pq) as Eq.
  rewrite normalize_app in Epq by reflexivity.
  set (R := createParalelT ∅ depth) in *.
  unfold createParentalT in Epq, Ep, Eq.
  rewrite split_app in Epq by (apply normalize_notin; [discriminate|exact Gp]).
  rewrite split_notin in Ep by (apply normalize_notin; [discriminate|exact Gp]).
  cbn [map] in Epq, Ep.
  destruct (JS.split ">"%char (normalize q)) as [|c0 rest] eqn:Es;
    [now destruct (split_nonempty ">"%char (normalize q))|].
  cbn [map] in Eq, Epq.
  set (f := JS.trim (normalize p)) in *.
  destruct (JS.truthy f) eqn:Tf; cbn [negb] in Epq, Ep.
  2:{ split; [|split].
      - intros tp tq H1 _. apply expand_Return_inv in H1. rewrite Ep in H1. discriminate.
      - intros e H1. apply expand_Throw_inv in H1. apply expand_Throw_inv.
        rewrite Epq. rewrite Ep in H1. exact H1.
      - intros tp e H1. destruct (expand_Return_Some _ _ _ _ H1) as [tp' ->].
        apply expand_Return_inv in H1. rewrite Ep in H1. discriminate. }
  rewrite resolveT_empty in Epq, Ep.
  destruct (leafOf f) as [ef|xf] eqn:Lf.
  2:{ split; [|split].
      - intros tp tq H1 _. apply expand_Return_inv in H1. rewrite Ep in H1. discriminate.
      - intros e H1. apply expand_Throw_inv in H1. apply expand_Throw_inv.
        rewrite Epq. rewrite Ep in H1. exact H1.
      - intros tp e H1. destruct (expand_Return_Some _ _ _ _ H1) as [tp' ->].
        apply expand_Return_inv in H1. rewrite Ep in H1. discriminate. }
  cbn [chainT] in Ep. rewrite addChildren_nil in Ep.
  change (chainT ∅ R (JS.trim c0 :: map JS.trim rest))
    with (match resolveT ∅ R (JS.trim c0) with
          | Throw x => Throw x
          | Return level =>
              match chainT ∅ R (map JS.trim rest) with
              | Throw x => Throw x
              | Return below =>
                  Return (match level with
                          | first :: others => addChildren first below :: others
                          | [] => []
                          end)
              end
          end) in Epq.
  rewrite resolveT_empty in Epq, Eq.
  split; [|split].
  - intros tp tq H1 H2. apply expand_Return_inv in H1, H2.
    rewrite Ep in H1. injection H1 as <-.
    apply expand_Return_inv. rewrite Epq.
    rewrite Eq in H2.
    destruct (JS.truthy (JS.trim c0)); cbn [negb] in H2; [|discriminate].
    destruct (leafOf (JS.trim c0)) as [e0|]; [|discriminate].
    destruct (chainT ∅ R (map JS.trim rest)) as [below|]; [|discriminate].
    injection H2 as <-. reflexivity.
  - intros e H1. apply expand_Throw_inv in H1. rewrite Ep in H1. discriminate.
  - intros tp e _ H2 Hne. apply expand_Throw_inv in H2.
    apply expand_Throw_inv. rewrite Epq. rewrite Eq in H2.
    destruct (JS.truthy (JS.trim c0)); cbn [negb] in H2; [|congruence].
    destruct (leafOf (JS.trim c0)) as [e0|]; [|congruence].
    destruct (chainT ∅ R (map JS.trim rest)) as [below|]; [discriminate|congruence].
Qed.

Lemma descendant_composition_witness :
  expand 1 5 (lit "ul.x" ++ ">"%char :: lit "li>a{t}")
  = Return (Some [addChildren (Node (lit "ul") None (Some (lit "x")) None [] [])
                    [Node (lit "li") None None None []
                       [Node (lit "a") None None (Some (lit "t")) [] []]]]).
Proof.
  refine (proj1 (descendant_composition 0 5 (lit "ul.x") (lit "li>a{t}") _ _ _ _ _) _ _ _ _).
  - repeat constructor.
  - repeat constructor.
  - vm_compute. intuition discriminate.
  - vm_compute. intuition discriminate.
  - vm_compute. intuition discriminate.
  - reflexivity.
  - reflexivity.
Defined.

(** X8.  On an input without [+], [>] and parentheses that is not blank,
    [emmetToElements] is the leaf expander applied to the trimmed normal
    form of the input: it returns the one element that
    [simplifiedEmmetToElement] creates, and fails as it fails. *)
Theorem leaf_expression_agrees (depth rnd : nat) (s : str) (h : dom) :
  noParen s -> ~ In "+"%char s -> ~ In ">"%char s ->
  JS.trim (normalize s) <> [] ->
  emmetToElements (S depth) rnd s h =
  match simplifiedEmmetToElement (JS.trim (normalize s)) h with
  | Return (r, h') => Return ([Some r], h')
  | Throw e => Throw e
  end.
Proof.
  intros Hp Pp Gp Hne. unfold emmetToElements. cbv zeta.
  rewrite splitEmmetIntoSections_noGroup_id
    by (apply noParen_noGroup, normalize_noParen, Hp).
  cbn [createParalel]. unfold createParalelBody.
  rewrite split_notin by (apply normalize_notin; [discriminate|exact Pp]).
  cbn [map arrayMap]. unfold bind at 1.
  unfold createParental.
  rewrite split_notin
    by (intros Hin; apply trim_in in Hin;
        revert Hin; apply normalize_notin; [discriminate|exact Gp]).
  cbn [map]. rewrite trim_idem.
  destruct (JS.trim (normalize s)) as [|c r] eqn:Et; [now contradiction Hne|].
  cbn [JS.truthy negb]. unfold createHTMLElement. rewrite lookup_empty.
  unfold bind, ret.
  destruct (simplifiedEmmetToElement (c :: r) h) as [[r0 h0]|]; reflexivity.
Qed.

Lemma leaf_expression_agrees_witness :
  emmetToElements 1 5 (lit " a{x") [] =
  match simplifiedEmmetToElement (JS.trim (normalize (lit " a{x"))) [] with
  | Return (r, h') => Return ([Some r], h')
  | Throw e => Throw e
  end.
Proof.
  apply (leaf_expression_agrees 0 5 (lit " a{x") []).
  - repeat constructor.
  - vm_compute. intuition discriminate.
  - vm_compute. intuition discriminate.
  - vm_compute. discriminate.
Defined.

(** ** Reading back the written form of a leaf *)





Lemma nonwhite_notin_space s :
  Forall (fun c => JS.isWhiteSpace c = false) s -> ~ In " "%char s.
Proof.
  intros H Hin. rewrite List.Forall_forall in H. discriminate (H _ Hin).
Qed.

Lemma trimStart_nonwhite s :
  Forall (fun c => JS.isWhiteSpace c = false) s -> JS.trimStart s = s.
Proof.
  intros H. destruct H as [|c r Hc _]; [reflexivity|].
  cbn [JS.trimStart]. rewrite Hc. reflexivity.
Qed.

Lemma trim_nonwhite s :
  Forall (fun c => JS.isWhiteSpace c = false) s -> JS.trim s = s.
Proof.
  intros H. unfold JS.trim, JS.trimEnd. rewrite (trimStart_nonwhite _ H).
  rewrite trimStart_nonwhite; [apply rev_involutive|].
  apply List.Forall_forall. intros c Hc. apply in_rev in Hc.
  rewrite List.Forall_forall in H. now apply H.
Qed.

(** Tidiness of concatenations. *)
Lemma tidy_nonwhite s :
  Forall (fun c => JS.isWhiteSpace c = false) s -> tidy s = true.
Proof.
  induction 1 as [|c r Hc _ IH]; [reflexivity|].
  cbn [tidy]. rewrite Hc, IH. reflexivity.
Qed.





















(** ** Balanced inputs *)

Lemma nesting_app d a b :
  nesting d (a ++ b) = match nesting d a with
                       | Some d' => nesting d' b
                       | None => None
                       end.
Proof.
  revert d. induction a as [|c r IH]; intros d; [reflexivity|].
  cbn [app nesting]. destruct (Ascii.eqb c "("%char); [apply IH|].
  destruct (Ascii.eqb c ")"%char); [|apply IH].
  destruct d; [reflexivity|apply IH].
Qed.

Lemma nesting_noParen d s : noParen s -> nesting d s = Some d.
Proof.
  induction 1 as [|c r Hc _ IH]; [reflexivity|].
  cbn [nesting]. unfold isParen in Hc. apply orb_false_iff in Hc as [-> ->]. exact IH.
Qed.

Lemma nesting_group d pre inner post tok :
  noParen inner -> noParen tok ->
  nesting d (pre ++ "("%char :: inner ++ ")"%char :: post)
  = nesting d (pre ++ tok ++ post).
Proof.
  intros Hi Ht. rewrite !nesting_app.
  destruct (nesting d pre) as [d'|]; [|reflexivity].
  rewrite (nesting_app d' tok), (nesting_noParen _ _ Ht).
  change (nesting d' ("("%char :: inner ++ ")"%char :: post))
    with (nesting (S d') (inner ++ ")"%char :: post)).
  rewrite nesting_app, (nesting_noParen _ _ Hi). reflexivity.
Qed.

Lemma noParen_iff s : noParen s <-> ~ In "("%char s /\ ~ In ")"%char s.
Proof.
  unfold noParen. rewrite List.Forall_forall. split.
  - intros H. split; intros Hin; discriminate (H _ Hin).
  - intros [H1 H2] c Hc. unfold isParen.
    destruct (Ascii.eqb c "("%char) eqn:E1; [apply eqb_true_iff in E1; now subst|].
    destruct (Ascii.eqb c ")"%char) eqn:E2; [apply eqb_true_iff in E2; now subst|].
    reflexivity.
Qed.

Lemma nesting_ge d s d' : nesting d s = Some d' -> ~ In ")"%char s -> (d <= d')%nat.
Proof.
  revert d. induction s as [|c r IH]; intros d H Hno.
  - injection H as <-. lia.
  - cbn [nesting] in H.
    assert (Hr : ~ In ")"%char r) by (intros Hin; apply Hno; now right).
    destruct (Ascii.eqb c "("%char).
    + specialize (IH _ H Hr). lia.
    + destruct (Ascii.eqb c ")"%char) eqn:E.
      * apply eqb_true_iff in E. subst c. exfalso. apply Hno. now left.
      * exact (IH _ H Hr).
Qed.

Lemma noGroup_balanced_noParen s :
  noGroup s -> nesting 0 s = Some O -> noParen s.
Proof.
  intros Hng Hb.
  assert (Hopen : ~ In "("%char s).
  { intros Hin. destruct (in_split_last _ _ Hin) as [a [b [-> Hb1]]].
    assert (Hb2 : ~ In ")"%char b).
    { intros Hin2. destruct (in_split_first _ _ Hin2) as [b1 [b2 [-> Hb3]]].
      apply (Hng a b1 b2 eq_refl). apply noParen_iff. split; [|exact Hb3].
      intros H. apply Hb1. rewrite in_app_iff. now left. }
    rewrite nesting_app in Hb. destruct (nesting 0 a) as [d'|]; [|discriminate].
    cbn in Hb. apply nesting_ge in Hb; [lia|exact Hb2]. }
  apply noParen_iff. split; [exact Hopen|].
  intros Hin. destruct (in_split_first _ _ Hin) as [a [b [-> Ha]]].
  rewrite nesting_app in Hb.
  rewrite nesting_noParen in Hb.
  - cbn in Hb. discriminate.
  - apply noParen_iff. split; [|exact Ha].
    intros H. apply Hopen. rewrite in_app_iff. now left.
Qed.

Lemma Grouping_nesting segment k s m s' m' d :
  noParen segment ->
  Grouping segment k s m s' m' -> nesting d s' = nesting d s.
Proof.
  intros Hseg. induction 1 as [|k s m pre inner post s' m' [-> [Hi _]] _ _ IH];
    [reflexivity|].
  rewrite IH. symmetry. apply nesting_group; [exact Hi|].
  apply token_noParen, Hseg.
Qed.

Lemma Grouping_values segment k s m s' m' :
  Grouping segment k s m s' m' ->
  map_Forall (fun _ v => noParen v) m -> map_Forall (fun _ v => noParen v) m'.
Proof.
  induction 1 as [|k s m pre inner post s' m' [_ [Hi _]] _ _ IH]; [tauto|].
  intros Hm. apply IH. apply map_Forall_insert_2; assumption.
Qed.

(** X10.  The grouping preprocessor leaves a working string without
    parentheses exactly when the parentheses of its input are balanced;
    it then records one section for every opening parenthesis.  The text
    of a recorded section never holds a parenthesis. *)
Theorem balanced_groups_resolved (rnd : nat) (s : str) :
  let r := splitEmmetIntoSections (segmentOf rnd) s in
  (balanced s = true <-> noParen (fst r)) /\
  map_Forall (fun _ v => noParen v) (snd r) /\
  (balanced s = true -> size (snd r) = countOf "("%char s).
Proof.
  intros r.
  pose proof (splitEmmetIntoSections_Grouping (segmentOf rnd) (segmentOf_noParen rnd) s) as G.
  fold r in G.
  pose proof (Grouping_nesting _ _ _ _ _ _ O (segmentOf_noParen rnd) G) as Hn.
  destruct (Grouping_result (segmentOf rnd) (segmentOf_noParen rnd) _ _ _ _ _ G)
    as [Hng [n [Ho [_ Hsz]]]]; [intros; apply lookup_empty|].
  assert (Hbal : balanced s = true -> noParen (fst r)).
  { unfold balanced. intros Hb. apply noGroup_balanced_noParen; [exact Hng|].
    rewrite Hn. destruct (nesting 0 s) as [[|?]|]; [reflexivity|discriminate|discriminate]. }
  split; [split; [exact Hbal|]|split].
  - intros Hp. unfold balanced. rewrite <- Hn, (nesting_noParen _ _ Hp). reflexivity.
  - apply (Grouping_values _ _ _ _ _ _ G). apply map_Forall_empty.
  - intros Hb. rewrite map_size_empty in Hsz. rewrite Hsz, Ho.
    rewrite (countOf_noParen_open _ (Hbal Hb)). reflexivity.
Qed.

(** ** Call depth *)

Section Deeper.
Variable ds : gmap str str.
Variables rec1 rec2 : str -> M (list (option ref)).
Hypothesis rec_deeper :
  forall s h, rec1 s h <> Throw RangeError -> rec2 s h = rec1 s h.

Lemma createHTMLElement_deeper c h :
  createHTMLElement ds rec1 c h <> Throw RangeError ->
  createHTMLElement ds rec2 c h = createHTMLElement ds rec1 c h.
Proof.
  unfold createHTMLElement. destruct (ds !! c); [apply rec_deeper|reflexivity].
Qed.

Lemma componentsLoop_deeper cs : forall tp h,
  componentsLoop ds rec1 cs tp h <> Throw RangeError ->
  componentsLoop ds rec2 cs tp h = componentsLoop ds rec1 cs tp h.
Proof.
  induction cs as [|c rest IH]; intros tp h H; [reflexivity|].
  rewrite componentsLoop_cons in H. rewrite !componentsLoop_cons.
  rewrite createHTMLElement_deeper.
  - destruct (createHTMLElement ds rec1 c h) as [[children h1]|x]; [|reflexivity].
    destruct (forEach (fun child => DOM.appendChild tp child) children h1)
      as [[u h2]|x]; [|reflexivity].
    apply IH, H.
  - intros E. rewrite E in H. now apply H.
Qed.

Lemma createParental_deeper s h :
  createParental ds rec1 s h <> Throw RangeError ->
  createParental ds rec2 s h = createParental ds rec1 s h.
Proof.
  unfold createParental.
  destruct (map JS.trim (JS.split ">"%char s)) as [|c cs]; [reflexivity|].
  destruct (negb (JS.truthy c)); [reflexivity|].
  unfold bind. intros H.
  rewrite createHTMLElement_deeper.
  - destruct (createHTMLElement ds rec1 c h) as [[first h1]|x]; [|reflexivity].
    rewrite componentsLoop_deeper; [reflexivity|].
    intros E. rewrite E in H. now apply H.
  - intros E. rewrite E in H. now apply H.
Qed.

Lemma arrayMap_deeper l : forall h,
  arrayMap (createParental ds rec1) l h <> Throw RangeError ->
  arrayMap (createParental ds rec2) l h = arrayMap (createParental ds rec1) l h.
Proof.
  induction l as [|x r IH]; intros h H; [reflexivity|].
  cbn [arrayMap] in *. unfold bind in *.
  rewrite createParental_deeper.
  - destruct (createParental ds rec1 x h) as [[y h1]|e]; [|reflexivity].
    rewrite IH; [reflexivity|].
    intros E. rewrite E in H. now apply H.
  - intros E. rewrite E in H. now apply H.
Qed.

End Deeper.

Lemma createParalel_deeper ds d : forall s h,
  createParalel ds d s h <> Throw RangeError ->
  createParalel ds (S d) s h = createParalel ds d s h.
Proof.
  induction d as [|d IH]; intros s h H; [now contradiction H|].
  change (createParalel ds (S (S d)) s h)
    with (createParalelBody ds (createParalel ds (S d)) s h).
  change (createParalel ds (S d) s h)
    with (createParalelBody ds (createParalel ds d) s h) in *.
  unfold createParalelBody in *.
  apply arrayMap_deeper; [exact IH|exact H].
Qed.

Lemma createParalel_deeper_le ds d d' s h :
  (d <= d')%nat ->
  createParalel ds d s h <> Throw RangeError ->
  createParalel ds d' s h = createParalel ds d s h.
Proof.
  induction 1 as [|d' _ IH]; [reflexivity|].
  intros H. rewrite <- (IH H). apply createParalel_deeper. now rewrite (IH H).
Qed.

(** X11.  The call depth only matters through the [RangeError] of an
    exhausted stack: a call of [emmetToElements] that ends otherwise, by
    returning or by another exception, ends in the same way, with the
    same store, at every larger depth. *)
Theorem deeper_stack_same_result (d d' rnd : nat) (s : str) (h : dom) :
  (d <= d')%nat ->
  emmetToElements d rnd s h <> Throw RangeError ->
  emmetToElements d' rnd s h = emmetToElements d rnd s h.
Proof.
  unfold emmetToElements. cbv zeta.
  destruct (splitEmmetIntoSections (segmentOf rnd) (normalize s)) as [dataString ds].
  apply createParalel_deeper_le.
Qed.

Lemma deeper_stack_same_result_witness :
  emmetToElements 7 5 (lit "p>(a+b)") [] = emmetToElements 2 5 (lit "p>(a+b)") [].
Proof.
  apply (deeper_stack_same_result 2 7 5 (lit "p>(a+b)") []).
  - lia.
  - vm_compute. discriminate.
Defined.

(** ** A single group *)

Lemma splitEmmetIntoSections_single (segment inner : str) :
  noParen segment -> noParen inner ->
  splitEmmetIntoSections segment ("("%char :: inner ++ [")"%char])
  = (tokenOf segment 0, <[tokenOf segment 0 := inner]> ∅).
Proof.
  intros Hseg Hi. unfold splitEmmetIntoSections.
  cbn [sectionsLoop].
  rewrite (regPatternExec_head inner [] Hi).
  unfold mapStringToId. cbn [fst snd]. fold (tokenOf segment 0).
  rewrite (replace_firstGroup _ [] inner [] (tokenOf segment 0) (firstGroup_head inner [] Hi)).
  cbn [app]. rewrite app_nil_r.
  destruct (length ("("%char :: inner ++ [")"%char])) as [|fuel]; [reflexivity|].
  cbn [sectionsLoop].
  rewrite noGroup_regPatternExec; [reflexivity|].
  apply noParen_noGroup, token_noParen, Hseg.
Qed.

Lemma token_nonwhite rnd k :
  Forall (fun c => JS.isWhiteSpace c = false) (tokenOf (segmentOf rnd) k).
Proof. apply token_white, segmentOf_good. Qed.

Lemma normalize_nonwhite s :
  Forall (fun c => JS.isWhiteSpace c = false) s -> normalize s = s.
Proof. intros H. apply tidy_normalize, tidy_nonwhite, H. Qed.

Lemma createParalel_self (ds : gmap str str) (key : str) :
  key <> [] -> Forall (fun c => plain c = true) key ->
  ds !! key = Some key ->
  forall depth h, createParalel ds depth key h = Throw RangeError.
Proof.
  intros Hne Hplain Hself.
  assert (Hw : Forall (fun c => JS.isWhiteSpace c = false) key).
  { eapply List.Forall_impl; [|exact Hplain]. intros c Hc. now apply plain_facts in Hc. }
  assert (Hfree : forall c, plain c = false -> ~ In c key).
  { intros c Hc Hin. rewrite List.Forall_forall in Hplain.
    rewrite (Hplain _ Hin) in Hc. discriminate. }
  induction depth as [|d IH]; intros h; [reflexivity|].
  cbn [createParalel]. unfold createParalelBody.
  rewrite split_notin by (apply Hfree; reflexivity).
  cbn [map arrayMap]. rewrite (trim_nonwhite _ Hw).
  unfold bind at 1. unfold createParental.
  rewrite split_notin by (apply Hfree; reflexivity).
  cbn [map]. rewrite (trim_nonwhite _ Hw).
  destruct key as [|c r] eqn:Ek; [now contradiction Hne|]. cbn [JS.truthy negb].
  unfold bind at 1. unfold createHTMLElement. rewrite Hself, IH. reflexivity.
Qed.

(** X12.  A group whose text is the name of the first placeholder of
    the running call never ends: the placeholder resolves to itself, and
    the call raises the [RangeError] of an exhausted stack at every
    depth, in every store and for every draw. *)
Theorem self_naming_group_overflows (depth rnd : nat) (h : dom) :
  emmetToElements depth rnd ("("%char :: tokenOf (segmentOf rnd) 0 ++ [")"%char]) h
  = Throw RangeError.
Proof.
  unfold emmetToElements. cbv zeta.
  pose proof (token_nonwhite rnd 0) as Hw.
  rewrite normalize_nonwhite.
  2:{ constructor; [reflexivity|]. apply Forall_app. split; [exact Hw|].
      constructor; [reflexivity|constructor]. }
  rewrite splitEmmetIntoSections_single;
    [|apply segmentOf_noParen|apply token_noParen, segmentOf_noParen].
  apply createParalel_self.
  - apply token_nonempty, segmentOf_good.
  - apply token_plain, segmentOf_good.
  - apply lookup_insert_eq.
Qed.

(** ** A group in root position *)

Lemma split_piece_in (sep : ascii) (s p : str) (c : ascii) :
  In p (JS.split sep s) -> In c p -> In c s.
Proof.
  revert p. induction s as [|x r IH]; intros p Hp Hc.
  - destruct Hp as [<-|[]]. destruct Hc.
  - destruct (ascii_dec x sep) as [->|Hx].
    + rewrite split_cons_sep in Hp. destruct Hp as [<-|Hp]; [destruct Hc|].
      right. exact (IH _ Hp Hc).
    + destruct (split_cons_other sep x r Hx) as [p0 [ps [E1 E2]]].
      rewrite E2 in Hp. destruct Hp as [<-|Hp].
      * destruct Hc as [<-|Hc]; [now left|].
        right. apply (IH p0); [rewrite E1; now left|exact Hc].
      * right. apply (IH p); [rewrite E1; now right|exact Hc].
Qed.

Lemma chainT_ext m1 m2 (R1 R2 : str -> outcome (list tree)) cs :
  (forall c, In c cs -> resolveT m1 R1 c = resolveT m2 R2 c) ->
  chainT m1 R1 cs = chainT m2 R2 cs.
Proof.
  induction cs as [|c r IH]; intros H; [reflexivity|].
  cbn [chainT]. rewrite (H c) by now left.
  rewrite IH by (intros; apply H; now right). reflexivity.
Qed.

Lemma createParalelBodyT_unkeyed (m : gmap str str) (R R' : str -> outcome (list tree))
    (u : ascii) (s : str) :
  JS.isWhiteSpace u = false ->
  (forall c, ~ In u c -> m !! c = None) -> ~ In u s ->
  createParalelBodyT m R s = createParalelBodyT ∅ R' s.
Proof.
  intros Hu Hm Hs. unfold createParalelBodyT.
  apply (mapOutcome_agree _ _ JS.trim JS.trim). intros p Hp.
  assert (Hpiece : ~ In u (JS.trim p)).
  { intros Hin. apply trim_in in Hin. apply Hs. exact (split_piece_in _ _ _ _ Hp Hin). }
  unfold createParentalT.
  assert (Hres : forall c, In c (map JS.trim (JS.split ">"%char (JS.trim p))) ->
                           resolveT m R c = resolveT ∅ R' c).
  { intros c Hc. apply in_map_iff in Hc as [c0 [<- Hc0]].
    unfold resolveT. rewrite lookup_empty, Hm; [reflexivity|].
    intros Hin. apply trim_in in Hin. apply Hpiece.
    exact (split_piece_in _ _ _ _ Hc0 Hin). }
  destruct (map JS.trim (JS.split ">"%char (JS.trim p))) as [|c cs]; [reflexivity|].
  rewrite (Hres c) by now left.
  rewrite (chainT_ext m ∅ R R' cs) by (intros; apply Hres; now right).
  reflexivity.
Qed.

(** X13.  A group that is the whole input contributes only its first
    element: when [x] holds no parenthesis and no underscore, the
    expansion of [x] in parentheses returns the first tree of the
    expansion of [x] and drops the other ones; an exception of [x] is
    raised as it is. *)
Theorem group_in_root_position (depth rnd : nat) (x : str) :
  noParen x -> ~ In "_"%char x ->
  (forall t ts,
      expand (S depth) rnd x = Return (Some (t :: ts)) ->
      expand (S (S depth)) rnd ("("%char :: x ++ [")"%char]) = Return (Some [t])) /\
  (forall e,
      expand (S depth) rnd x = Throw e ->
      expand (S (S depth)) rnd ("("%char :: x ++ [")"%char]) = Throw e).
Proof.
  intros Hx Hu.
  set (tok := tokenOf (segmentOf rnd) 0).
  assert (Hnorm : normalize ("("%char :: x ++ [")"%char])
                  = "("%char :: normalize x ++ [")"%char]).
  { change ("("%char :: x ++ [")"%char]) with ([] ++ "("%char :: (x ++ ")"%char :: [])).
    rewrite normalize_app by reflexivity. rewrite normalize_app by reflexivity.
    reflexivity. }
  assert (Hplain : Forall (fun c => plain c = true) tok)
    by apply token_plain, segmentOf_good.
  assert (Hw : Forall (fun c => JS.isWhiteSpace c = false) tok) by apply token_nonwhite.
  assert (Hfree : forall c, plain c = false -> ~ In c tok)
    by (intros c; apply token_free, segmentOf_good).
  assert (Hund : In "_"%char tok).
  { unfold tok, tokenOf, segmentOf. rewrite !in_app_iff. left. left. cbn. tauto. }
  assert (E : expandT (S (S depth)) rnd ("("%char :: x ++ [")"%char]) =
              match expandT (S depth) rnd x with
              | Throw e => Throw e
              | Return [] => Throw TypeError
              | Return (t :: _) => Return [t]
              end).
  { unfold expandT at 1. rewrite Hnorm.
    rewrite splitEmmetIntoSections_single;
      [|apply segmentOf_noParen|apply normalize_noParen, Hx].
    fold tok. cbn [createParalelT]. unfold createParalelBodyT at 1.
    rewrite split_notin by (apply Hfree; reflexivity).
    cbn [map mapOutcome]. rewrite (trim_nonwhite _ Hw).
    unfold createParentalT at 1.
    rewrite split_notin by (apply Hfree; reflexivity).
    cbn [map]. rewrite (trim_nonwhite _ Hw).
    destruct tok as [|c0 r0] eqn:Et; [destruct Hund|]. cbn [JS.truthy negb].
    rewrite <- Et in *.
    unfold resolveT at 1. rewrite lookup_insert_eq.
    rewrite (createParalelBodyT_unkeyed _ _ (createParalelT ∅ depth) "_"%char).
    - rewrite expandT_noParen by exact Hx.
      fold (createParalelBodyT ∅ (createParalelT ∅ depth) (normalize x)).
      destruct (createParalelBodyT ∅ (createParalelT ∅ depth) (normalize x))
        as [[|t ts]|e]; [reflexivity| |reflexivity].
      cbn [chainT]. rewrite addChildren_nil. reflexivity.
    - reflexivity.
    - intros c Hc. apply lookup_insert_None. split; [apply lookup_empty|].
      intros <-. now apply Hc.
    - apply normalize_notin; [discriminate|exact Hu]. }
  split.
  - intros t ts H. apply expand_Return_inv in H. apply expand_Return_inv.
    rewrite E, H. reflexivity.
  - intros e H. apply expand_Throw_inv in H. apply expand_Throw_inv.
    rewrite E, H. reflexivity.
Qed.

Lemma group_in_root_position_witness :
  expand 2 5 ("("%char :: lit "a+b" ++ [")"%char])
  = Return (Some [Node (lit "a") None None None [] []]).
Proof.
  refine (proj1 (group_in_root_position 0 5 (lit "a+b") _ _) _
                [Node (lit "b") None None None [] []] _).
  - repeat constructor.
  - vm_compute. intuition discriminate.
  - reflexivity.
Defined.

(** ** A depth that is enough *)

Lemma holesBelow_weaken b b' t :
  (b <= b')%nat -> holesBelow b t = true -> holesBelow b' t = true.
Proof.
  intros Hb. unfold holesBelow. rewrite !forallb_forall. intros H i Hi.
  specialize (H i Hi). destruct i as [c|k]; [reflexivity|].
  cbn in *. apply Nat.ltb_lt in H. apply Nat.ltb_lt. lia.
Qed.

Lemma holesBelow_app b t1 t2 :
  holesBelow b (t1 ++ t2) = holesBelow b t1 && holesBelow b t2.
Proof. apply forallb_app. Qed.

Lemma holesBelow_map_Ch b s : holesBelow b (map Ch s) = true.
Proof. induction s as [|c r IH]; [reflexivity|exact IH]. Qed.

Lemma groupOf_shape t pre inner post :
  groupOf t = Some (pre, inner, post) ->
  t = pre ++ Ch "("%char :: inner ++ Ch ")"%char :: post.
Proof.
  intros E. pose proof (groupOf_spec (segmentOf 0) (segmentOf_good 0) t) as H.
  rewrite E in H. tauto.
Qed.

Lemma groupLoopT_ranked fuel : forall t sections,
  holesBelow (length sections) t = true ->
  (forall k u, sections !! k = Some u -> holesBelow k u = true) ->
  holesBelow (length (snd (groupLoopT fuel t sections)))
             (fst (groupLoopT fuel t sections)) = true /\
  (forall k u, snd (groupLoopT fuel t sections) !! k = Some u ->
               holesBelow k u = true).
Proof.
  induction fuel as [|fuel IH]; intros t sections Ht Hs; [split; assumption|].
  cbn [groupLoopT]. destruct (groupOf t) as [[[pre inner] post]|] eqn:E;
    [|split; assumption].
  apply groupOf_shape in E. subst t.
  rewrite holesBelow_app in Ht. apply andb_true_iff in Ht as [Hpre Ht].
  change (Ch "("%char :: inner ++ Ch ")"%char :: post)
    with ([Ch "("%char] ++ inner ++ [Ch ")"%char] ++ post) in Ht.
  rewrite !holesBelow_app in Ht.
  apply andb_true_iff in Ht as [_ Ht]. apply andb_true_iff in Ht as [Hin Ht].
  apply andb_true_iff in Ht as [_ Hpost].
  apply IH.
  - rewrite length_app. cbn [length].
    change (Hole (length sections) :: post) with ([Hole (length sections)] ++ post).
    rewrite !holesBelow_app.
    assert (Hle : (length sections <= length sections + 1)%nat) by lia.
    rewrite (holesBelow_weaken _ _ _ Hle Hpre).
    rewrite (holesBelow_weaken _ _ _ Hle Hpost).
    assert (Hh : holesBelow (length sections + 1) [Hole (length sections)] = true).
    { unfold holesBelow. cbn [forallb holeBelow]. rewrite andb_true_r.
      apply Nat.ltb_lt. lia. }
    rewrite Hh. reflexivity.
  - intros k u Hk. apply lookup_app_Some in Hk as [Hk|[Hlen Hk]]; [now apply (Hs k)|].
    apply list_lookup_singleton_Some in Hk as [Hk <-].
    replace k with (length sections) by lia. exact Hin.
Qed.

Lemma filter_isCh_app c (t1 t2 : template) :
  length (List.filter (isCh c) (t1 ++ t2))
  = (length (List.filter (isCh c) t1) + length (List.filter (isCh c) t2))%nat.
Proof. rewrite List.filter_app, length_app. reflexivity. Qed.

Lemma filter_isCh_group (pre inner post : template) :
  length (List.filter (isCh "("%char) (pre ++ Ch "("%char :: inner ++ Ch ")"%char :: post))
  = S (length (List.filter (isCh "("%char) pre)
       + length (List.filter (isCh "("%char) inner)
       + length (List.filter (isCh "("%char) post)).
Proof.
  change (Ch "("%char :: inner ++ Ch ")"%char :: post)
    with ([Ch "("%char] ++ inner ++ [Ch ")"%char] ++ post).
  rewrite !filter_isCh_app.
  change (length (List.filter (isCh "("%char) [Ch "("%char])) with 1%nat.
  change (length (List.filter (isCh "("%char) [Ch ")"%char])) with 0%nat.
  lia.
Qed.

Lemma filter_isCh_hole (pre post : template) (k : nat) :
  length (List.filter (isCh "("%char) (pre ++ Hole k :: post))
  = (length (List.filter (isCh "("%char) pre)
     + length (List.filter (isCh "("%char) post))%nat.
Proof.
  change (Hole k :: post) with ([Hole k] ++ post).
  rewrite !filter_isCh_app.
  change (length (List.filter (isCh "("%char) [Hole k])) with 0%nat.
  lia.
Qed.

Lemma groupLoopT_count fuel : forall t sections,
  (length (snd (groupLoopT fuel t sections))
   <= length sections + length (List.filter (isCh "("%char) t))%nat.
Proof.
  induction fuel as [|fuel IH]; intros t sections; [cbn; lia|].
  cbn [groupLoopT]. destruct (groupOf t) as [[[pre inner] post]|] eqn:E; [|cbn; lia].
  apply groupOf_shape in E. subst t.
  specialize (IH (pre ++ Hole (length sections) :: post) (sections ++ [inner])).
  rewrite length_app in IH. cbn [length] in IH.
  rewrite filter_isCh_hole in IH. rewrite filter_isCh_group. lia.
Qed.

Lemma filter_isCh_map_Ch c s :
  length (List.filter (isCh c) (map Ch s)) = countOf c s.
Proof.
  unfold countOf. induction s as [|x r IH]; [reflexivity|].
  cbn [map List.filter isCh count_occ].
  destruct (Ascii.eqb x c) eqn:E.
  - apply eqb_true_iff in E. subst x.
    destruct (ascii_dec c c) as [_|N]; [|now contradiction N]. cbn [length]. now rewrite IH.
  - destruct (ascii_dec x c) as [->|_]; [|exact IH].
    rewrite Ascii.eqb_refl in E. discriminate.
Qed.

Lemma countOf_cons c x r :
  countOf c (x :: r) = ((if Ascii.eqb x c then 1 else 0) + countOf c r)%nat.
Proof.
  unfold countOf. cbn [count_occ]. destruct (ascii_dec x c) as [->|N].
  - rewrite Ascii.eqb_refl. reflexivity.
  - destruct (Ascii.eqb x c) eqn:E; [apply eqb_true_iff in E; now contradiction N|reflexivity].
Qed.

Lemma white_neq c x :
  JS.isWhiteSpace c = false -> JS.isWhiteSpace x = true -> Ascii.eqb x c = false.
Proof.
  intros Hc Hx. destruct (Ascii.eqb x c) eqn:E; [|reflexivity].
  apply eqb_true_iff in E. subst x. rewrite Hx in Hc. discriminate.
Qed.

Lemma countOf_removeTabNlCr c s :
  JS.isWhiteSpace c = false -> countOf c (JS.removeTabNlCr s) = countOf c s.
Proof.
  intros Hc. unfold JS.removeTabNlCr. induction s as [|x r IH]; [reflexivity|].
  cbn [List.filter]. destruct (JS.isTabNlCr x) eqn:E; cbn [negb].
  - rewrite countOf_cons, IH.
    rewrite (white_neq c x Hc (isTabNlCr_white _ E)). reflexivity.
  - rewrite !countOf_cons, IH. reflexivity.
Qed.

Lemma countOf_collapseWhiteSpace c s :
  JS.isWhiteSpace c = false -> countOf c (JS.collapseWhiteSpace s) = countOf c s.
Proof.
  intros Hc. induction s as [|x r IH]; [reflexivity|].
  cbn [JS.collapseWhiteSpace]. destruct (JS.isWhiteSpace x) eqn:E.
  - rewrite (countOf_cons c x), (white_neq c x Hc E).
    destruct r as [|x' r']; [rewrite countOf_cons, (white_neq c " "%char Hc eq_refl); reflexivity|].
    destruct (JS.isWhiteSpace x'); [exact IH|].
    rewrite countOf_cons, (white_neq c " "%char Hc eq_refl). exact IH.
  - rewrite !countOf_cons, IH. reflexivity.
Qed.

Lemma countOf_normalize c s :
  JS.isWhiteSpace c = false -> countOf c (normalize s) = countOf c s.
Proof.
  intros Hc. unfold normalize.
  now rewrite countOf_collapseWhiteSpace, countOf_removeTabNlCr.
Qed.

Lemma splitT_piece_in (sep : ascii) (t p : template) (i : item) :
  In p (splitT sep t) -> In i p -> In i t.
Proof.
  revert p. induction t as [|x r IH]; intros p Hp Hi.
  - destruct Hp as [<-|[]]. destruct Hi.
  - cbn [splitT] in Hp. destruct (isCh sep x).
    + destruct Hp as [<-|Hp]; [destruct Hi|]. right. exact (IH _ Hp Hi).
    + destruct (splitT sep r) as [|p0 ps] eqn:E.
      * destruct Hp as [<-|[]]. destruct Hi as [<-|[]]. now left.
      * destruct Hp as [<-|Hp].
        -- destruct Hi as [<-|Hi]; [now left|]. right. apply (IH p0); [now left|exact Hi].
        -- right. apply (IH p); [now right|exact Hi].
Qed.

Lemma trimStartT_in i t : In i (trimStartT t) -> In i t.
Proof.
  induction t as [|x r IH]; [intros []|].
  cbn [trimStartT]. destruct (isWhiteItem x); [|tauto].
  intros H. right. now apply IH.
Qed.

Lemma trimT_in i t : In i (trimT t) -> In i t.
Proof.
  unfold trimT. intros H. apply in_rev, trimStartT_in, in_rev in H.
  now apply trimStartT_in.
Qed.

Lemma chainT_RangeError m (R : str -> outcome (list tree)) cs :
  chainT m R cs = Throw RangeError ->
  exists c, In c cs /\ resolveT m R c = Throw RangeError.
Proof.
  induction cs as [|c r IH]; [discriminate|].
  cbn [chainT]. destruct (resolveT m R c) as [level|x] eqn:E.
  - destruct (chainT m R r) as [below|x]; [discriminate|].
    intros [= ->]. destruct (IH eq_refl) as [c' [Hin Hc]]. exists c'. split; [now right|exact Hc].
  - intros [= ->]. exists c. split; [now left|exact E].
Qed.

Lemma createParentalT_RangeError m (R : str -> outcome (list tree)) s :
  createParentalT m R s = Throw RangeError ->
  exists c, In c (map JS.trim (JS.split ">"%char s)) /\
            resolveT m R c = Throw RangeError.
Proof.
  unfold createParentalT.
  destruct (map JS.trim (JS.split ">"%char s)) as [|c cs]; [discriminate|].
  destruct (negb (JS.truthy c)); [discriminate|].
  destruct (resolveT m R c) as [level|x] eqn:E.
  - destruct (chainT m R cs) as [below|x] eqn:Ec.
    + destruct level; discriminate.
    + intros [= ->]. destruct (chainT_RangeError _ _ _ Ec) as [c' [Hin Hc]].
      exists c'. split; [now right|exact Hc].
  - intros [= ->]. exists c. split; [now left|exact E].
Qed.

Section Ranked.
Variable segment : str.
Hypothesis segment_good : goodSegment segment.
Variable sections : list template.
Variable m : gmap str str.
Hypothesis rep : represents segment sections m.
Hypothesis ranked : forall k u, sections !! k = Some u -> holesBelow k u = true.
Hypothesis sections_ok : forallb (templateOK (length sections)) sections = true.

Lemma resolveT_safe (R : str -> outcome (list tree)) (d : nat) (c : template) :
  (forall k u, sections !! k = Some u -> (k < d)%nat ->
               R (inst segment u) <> Throw RangeError) ->
  pieceOK (length sections) c = true -> holesBelow d c = true ->
  resolveT m R (inst segment c) <> Throw RangeError.
Proof.
  intros HR Hok Hb.
  assert (Hplain : match charsOf c with
                   | Some s => negb (bool_decide (JS.stripPrefix (lit "segment_") s <> None))
                   | None => false
                   end = true ->
                   resolveT m R (inst segment c) <> Throw RangeError).
  { destruct (charsOf c) as [s|] eqn:Ec; [|discriminate].
    intros H. apply negb_true_iff, bool_decide_eq_false in H.
    rewrite (charsOf_inst segment c s Ec). unfold resolveT.
    rewrite (lookup_not_token sections segment m s segment_good rep).
    - destruct (leafOf s) as [e|x] eqn:El; [discriminate|].
      apply leafOf_Throw_iff in El as [-> _]. discriminate.
    - destruct (JS.stripPrefix (lit "segment_") s); [|reflexivity].
      exfalso. apply H. discriminate. }
  destruct c as [|[ch|k] [|i r]]; try (apply Hplain; exact Hok).
  cbn in Hok. apply Nat.ltb_lt in Hok.
  destruct (lookup_lt_is_Some_2 sections k Hok) as [u Hu].
  cbn in Hb. rewrite andb_true_r in Hb. apply Nat.ltb_lt in Hb.
  cbn [inst]. rewrite app_nil_r. unfold resolveT.
  assert (H1 : m !! tokenOf segment k = Some (inst segment u)) by (apply rep; eauto).
  rewrite H1. now apply (HR k).
Qed.

Lemma createParalelBodyT_safe (R : str -> outcome (list tree)) (d : nat) (t : template) :
  (forall k u, sections !! k = Some u -> (k < d)%nat ->
               R (inst segment u) <> Throw RangeError) ->
  templateOK (length sections) t = true -> holesBelow d t = true ->
  createParalelBodyT m R (inst segment t) <> Throw RangeError.
Proof.
  intros HR Hok Hb E. unfold createParalelBodyT in E.
  apply mapOutcome_Throw_inv in E as [x [Hx Ex]].
  rewrite (split_inst segment segment_good) in Hx by reflexivity.
  rewrite map_map in Hx. apply in_map_iff in Hx as [p0 [<- Hp0]].
  rewrite (trim_inst segment segment_good) in Ex.
  apply createParentalT_RangeError in Ex as [c [Hc Ec]].
  rewrite (components_inst segment _ segment_good) in Hc.
  apply in_map_iff in Hc as [c0 [<- Hc0]].
  revert Ec. apply (resolveT_safe R d c0 HR).
  - unfold templateOK in Hok. rewrite forallb_forall in Hok. apply Hok.
    unfold componentsT. apply in_flat_map. exists p0. split; assumption.
  - unfold holesBelow in *. rewrite forallb_forall in Hb.
    apply forallb_forall. intros i Hi. apply Hb.
    apply in_map_iff in Hc0 as [c1 [<- Hc1]].
    apply trimT_in in Hi. apply (splitT_piece_in _ _ _ _ Hc1) in Hi.
    apply trimT_in in Hi. exact (splitT_piece_in _ _ _ _ Hp0 Hi).
Qed.

Lemma createParalelT_safe (d : nat) : forall t,
  templateOK (length sections) t = true -> holesBelow d t = true ->
  createParalelT m (S d) (inst segment t) <> Throw RangeError.
Proof.
  induction d as [|d IH]; intros t Hok Hb.
  - cbn [createParalelT]. apply (createParalelBodyT_safe _ 0 t); [|exact Hok|exact Hb].
    intros k u _ Hk. lia.
  - change (createParalelT m (S (S d)) (inst segment t))
      with (createParalelBodyT m (createParalelT m (S d)) (inst segment t)).
    apply (createParalelBodyT_safe _ (S d) t); [|exact Hok|exact Hb].
    intros k u Hu Hk. apply IH.
    + rewrite forallb_forall in sections_ok. apply sections_ok.
      apply list_elem_of_In. eapply list_elem_of_lookup_2. exact Hu.
    + apply (holesBelow_weaken k d); [lia|]. exact (ranked k u Hu).
Qed.

End Ranked.

Lemma createParalel_RangeError ds depth s h :
  createParalel ds depth s h = Throw RangeError ->
  createParalelT ds depth s = Throw RangeError.
Proof.
  intros E. pose proof (createParalel_simulates ds depth s h) as H.
  rewrite E in H. exact H.
Qed.

(** X14.  For a well-grouped input a call depth above the number of
    opening parentheses is enough: [emmetToElements] then never raises
    the [RangeError] of an exhausted stack, and it ends as it does at
    the depth just above that number. *)
Theorem enough_depth (depth rnd : nat) (s : str) (h : dom) :
  wellGrouped s = true ->
  (countOf "("%char s < depth)%nat ->
  emmetToElements depth rnd s h <> Throw RangeError /\
  emmetToElements depth rnd s h = emmetToElements (S (countOf "("%char s)) rnd s h.
Proof.
  intros Hwg Hdepth.
  assert (Hbase : emmetToElements (S (countOf "("%char s)) rnd s h <> Throw RangeError).
  { unfold wellGrouped in Hwg. unfold emmetToElements. cbv zeta.
    pose proof (splitEmmetIntoSections_groupT (segmentOf rnd) (segmentOf_good rnd)
                  (normalize s)) as [E1 R1].
    destruct (splitEmmetIntoSections (segmentOf rnd) (normalize s)) as [data ds].
    pose proof (groupLoopT_ranked (S (length (normalize s))) (map Ch (normalize s)) []
                  (holesBelow_map_Ch _ _) ltac:(intros k u Hk; discriminate Hk))
      as [Hb Hr].
    pose proof (groupLoopT_count (S (length (normalize s))) (map Ch (normalize s)) [])
      as Hcount.
    fold (groupT (normalize s)) in Hb, Hr, Hcount.
    rewrite filter_isCh_map_Ch, countOf_normalize in Hcount by reflexivity.
    destruct (groupT (normalize s)) as [t sections].
    cbn [fst snd length] in *. subst data.
    apply andb_true_iff in Hwg as [Ht Hs].
    intros E. apply createParalel_RangeError in E. revert E.
    apply (createParalelT_safe (segmentOf rnd) (segmentOf_good rnd) sections ds R1 Hr Hs);
      [exact Ht|].
    apply (holesBelow_weaken (length sections)); [lia|exact Hb]. }
  assert (Heq : emmetToElements depth rnd s h
                = emmetToElements (S (countOf "("%char s)) rnd s h).
  { revert Hbase. unfold emmetToElements. cbv zeta.
    destruct (splitEmmetIntoSections (segmentOf rnd) (normalize s)) as [data ds].
    apply createParalel_deeper_le. lia. }
  split; [rewrite Heq; exact Hbase|exact Heq].
Qed.

Lemma enough_depth_witness :
  emmetToElements 9 5 (lit "ul>(li>(a+b))") []
  = emmetToElements 3 5 (lit "ul>(li>(a+b))") [].
Proof.
  refine (proj2 (enough_depth 9 5 (lit "ul>(li>(a+b))") [] _ _)).
  - vm_compute. reflexivity.
  - vm_compute. lia.
Defined.

(** ** White space around an input *)

Lemma trimEnd_white s :
  Forall (fun c => JS.isWhiteSpace c = true) s -> JS.trimEnd s = [].
Proof.
  intros H. unfold JS.trimEnd. rewrite trimStart_white; [reflexivity|].
  apply List.Forall_forall. intros c Hc. apply in_rev in Hc.
  rewrite List.Forall_forall in H. now apply H.
Qed.

Lemma trimEnd_cons c y :
  JS.trimEnd (c :: y) = match JS.trimEnd y with
                        | [] => if JS.isWhiteSpace c then [] else [c]
                        | _ :: _ => c :: JS.trimEnd y
                        end.
Proof.
  unfold JS.trimEnd. cbn [rev].
  destruct (JS.trimStart (rev y)) as [|a r] eqn:E.
  - destruct (trimStart_suffix (rev y)) as [w [Ew Hw]].
    rewrite E, app_nil_r in Ew. subst w. rewrite trimStart_pad by exact Hw.
    cbn [JS.trimStart rev]. destruct (JS.isWhiteSpace c); reflexivity.
  - rewrite trimStart_keep by (rewrite E; discriminate). rewrite E.
    rewrite rev_app_distr. cbn [rev app].
    destruct (rev r ++ [a]) eqn:E2; [|reflexivity].
    apply app_eq_nil in E2 as [_ E2]. discriminate.
Qed.

Lemma trimEnd_keep a b : JS.trimEnd b <> [] -> JS.trimEnd (a ++ b) = a ++ JS.trimEnd b.
Proof.
  intros Hb. induction a as [|c r IH]; [reflexivity|].
  cbn [app]. rewrite trimEnd_cons, IH.
  destruct (r ++ JS.trimEnd b) eqn:E; [|reflexivity].
  apply app_eq_nil in E as [_ E]. now contradiction Hb.
Qed.

Lemma trim_comm s : JS.trimEnd (JS.trimStart s) = JS.trimStart (JS.trimEnd s).
Proof.
  destruct (trimStart_suffix s) as [w [Es Hw]].
  destruct (JS.trimStart s) as [|c r] eqn:E.
  - rewrite app_nil_r in Es. subst w. rewrite (trimEnd_white _ Hw). reflexivity.
  - assert (Hc : JS.isWhiteSpace c = false).
    { destruct s as [|x s']; [discriminate E|].
      clear -E. revert E. generalize (x :: s'). intros l.
      induction l as [|a l IH]; [discriminate|].
      cbn [JS.trimStart]. destruct (JS.isWhiteSpace a) eqn:Ea; [exact IH|].
      intros [= -> _]. exact Ea. }
    assert (Hne : exists r', JS.trimEnd (c :: r) = c :: r').
    { rewrite trimEnd_cons, Hc. destruct (JS.trimEnd r); eauto. }
    destruct Hne as [r' Hr'].
    rewrite Es. rewrite trimEnd_keep by (rewrite Hr'; discriminate).
    rewrite trimStart_pad by exact Hw. rewrite Hr'.
    cbn [JS.trimStart]. rewrite Hc. reflexivity.
Qed.

Lemma trimStart_collapse_pad a u :
  Forall (fun c => JS.isWhiteSpace c = true) a ->
  JS.trimStart (JS.collapseWhiteSpace (a ++ u))
  = JS.trimStart (JS.collapseWhiteSpace u).
Proof.
  induction 1 as [|x a' Hx _ IH]; [reflexivity|].
  cbn [app JS.collapseWhiteSpace]. rewrite Hx.
  destruct (a' ++ u) as [|c' r'] eqn:E.
  - apply app_eq_nil in E as [-> ->]. reflexivity.
  - destruct (JS.isWhiteSpace c'); [exact IH|].
    cbn [JS.trimStart]. exact IH.
Qed.

Lemma trimEnd_collapse_pad u b :
  Forall (fun c => JS.isWhiteSpace c = true) b ->
  JS.trimEnd (JS.collapseWhiteSpace (u ++ b))
  = JS.trimEnd (JS.collapseWhiteSpace u).
Proof.
  intros Hb. induction u as [|x r IH].
  - cbn [app]. destruct b as [|c b']; [reflexivity|].
    rewrite collapseWhiteSpace_white; [reflexivity|exact Hb|discriminate].
  - cbn [app JS.collapseWhiteSpace]. destruct (JS.isWhiteSpace x) eqn:Ex.
    + destruct r as [|c' r']; cbn [app].
      * destruct b as [|c b']; [reflexivity|].
        inversion Hb as [|? ? Hc _]; subst. rewrite Hc.
        rewrite collapseWhiteSpace_white; [reflexivity|exact Hb|discriminate].
      * cbn [app] in IH. destruct (JS.isWhiteSpace c'); [exact IH|].
        rewrite !(trimEnd_cons " "%char), IH. reflexivity.
    + rewrite !(trimEnd_cons x), IH. reflexivity.
Qed.

Lemma trim_normalize_pad w1 s w2 :
  Forall (fun c => JS.isWhiteSpace c = true) w1 ->
  Forall (fun c => JS.isWhiteSpace c = true) w2 ->
  JS.trim (normalize (w1 ++ s ++ w2)) = JS.trim (normalize s).
Proof.
  intros H1 H2. unfold normalize, JS.trim. rewrite !removeTabNlCr_app.
  rewrite trimStart_collapse_pad by (apply removeTabNlCr_white, H1).
  rewrite !trim_comm. f_equal.
  apply trimEnd_collapse_pad, removeTabNlCr_white, H2.
Qed.

Lemma createParalel_trim ds depth s h :
  createParalel ds depth (JS.trim s) h = createParalel ds depth s h.
Proof.
  destruct depth as [|d]; [reflexivity|].
  cbn [createParalel]. unfold createParalelBody.
  rewrite map_trim_split_trim by reflexivity. reflexivity.
Qed.

(** X15.  White space before and after an input without parentheses
    is ignored by [emmetToElements]: the call ends in the same way and
    with the same store as on the input itself. *)
Theorem surrounding_white_space_ignored (depth rnd : nat) (w1 s w2 : str) (h : dom) :
  noParen s -> allWhite w1 -> allWhite w2 ->
  emmetToElements depth rnd (w1 ++ s ++ w2) h = emmetToElements depth rnd s h.
Proof.
  intros Hs H1 H2. unfold emmetToElements. cbv zeta.
  assert (Hp : noParen (w1 ++ s ++ w2)).
  { assert (Hw : forall w, allWhite w -> noParen w).
    { intros w Hw. eapply List.Forall_impl; [|exact Hw]. intros c Hc.
      unfold isParen.
      destruct (Ascii.eqb c "("%char) eqn:E1;
        [apply eqb_true_iff in E1; subst c; discriminate Hc|].
      destruct (Ascii.eqb c ")"%char) eqn:E2;
        [apply eqb_true_iff in E2; subst c; discriminate Hc|].
      reflexivity. }
    apply noParen_app. split; [now apply Hw|].
    apply noParen_app. split; [exact Hs|now apply Hw]. }
  rewrite !splitEmmetIntoSections_noGroup_id
    by (apply noParen_noGroup, normalize_noParen; assumption).
  rewrite <- (createParalel_trim _ _ (normalize (w1 ++ s ++ w2))).
  rewrite <- (createParalel_trim _ _ (normalize s)).
  now rewrite trim_normalize_pad.
Qed.

Lemma surrounding_white_space_ignored_witness :
  emmetToElements 1 5 (lit "  " ++ lit "div > p" ++ lit " ") []
  = emmetToElements 1 5 (lit "div > p") [].
Proof.
  apply (surrounding_white_space_ignored 1 5 (lit "  ") (lit "div > p") (lit " ") []).
  - repeat constructor.
  - repeat constructor.
  - repeat constructor.
Defined.

(** ** Where an id is read *)

Lemma leafOf_plain w :
  tidy w = true -> ~ In "{"%char w -> ~ In "["%char w ->
  leafOf w = match tagIdClassStep w with
             | Return (tag, ident, classes) =>
                 Return (leafElement tag ident classes [] [])
             | Throw x => Throw x
             end.
Proof.
  intros Ht H1 H2. unfold leafOf. rewrite (tidy_normalize _ Ht).
  rewrite (innerTextStep_none _ H1).
  unfold attributesStep. cbv zeta. rewrite (lastIndexOf_notin _ _ H2). cbn [Z.eqb negb].
  reflexivity.
Qed.

(** X16.  An id is read only before the first class, and only up to a
    second [#]: in a leaf without text and attributes, what follows the
    first [.] is split into classes even if it holds a [#], and what
    follows a second [#] is dropped. *)
Theorem id_only_before_classes :
  (forall (x y : str) (h : dom),
      tidy (x ++ "."%char :: y) = true ->
      ~ In "{"%char (x ++ "."%char :: y) -> ~ In "["%char (x ++ "."%char :: y) ->
      ~ In "."%char x -> ~ In "#"%char x ->
      simplifiedEmmetToElement (x ++ "."%char :: y) h
      = Return (length h,
                h ++ [mkElement (if JS.truthy (JS.trim x) then JS.trim x else lit "div")
                        None
                        (Some (JS.join [" "%char] (map JS.trim (JS.split "."%char y))))
                        None [] [] None])) /\
  (forall (x i j : str) (h : dom),
      tidy (x ++ "#"%char :: i ++ "#"%char :: j) = true ->
      ~ In "{"%char (x ++ "#"%char :: i ++ "#"%char :: j) ->
      ~ In "["%char (x ++ "#"%char :: i ++ "#"%char :: j) ->
      ~ In "."%char (x ++ "#"%char :: i ++ "#"%char :: j) ->
      ~ In "#"%char x -> ~ In "#"%char i ->
      simplifiedEmmetToElement (x ++ "#"%char :: i ++ "#"%char :: j) h
      = Return (length h,
                h ++ [mkElement (if JS.truthy (JS.trim x) then JS.trim x else lit "div")
                        (if JS.truthy i then Some (JS.trim i) else None)
                        None None [] [] None])) /\
  expandSingle (lit "div.c#i")
  = Return (Some (Node (lit "div") None (Some (lit "c#i")) None [] [])) /\
  expandSingle (lit "a#x#y")
  = Return (Some (Node (lit "a") (Some (lit "x")) None None [] [])).
Proof.
  split; [|split; [|split; reflexivity]].
  - intros x y h Ht H1 H2 Hx1 Hx2.
    rewrite simplifiedEmmetToElement_leafOf, (leafOf_plain _ Ht H1 H2).
    unfold tagIdClassStep. rewrite (split_app _ _ _ Hx1), (split_notin _ _ Hx2).
    cbv zeta. cbn [head]. unfold leafElement.
    destruct (JS.split "."%char y) as [|c cs] eqn:E;
      [now destruct (split_nonempty "."%char y)|].
    reflexivity.
  - intros x i j h Ht H1 H2 Hd Hx Hi.
    rewrite simplifiedEmmetToElement_leafOf, (leafOf_plain _ Ht H1 H2).
    unfold tagIdClassStep. rewrite (split_notin _ _ Hd).
    rewrite (split_app _ _ _ Hx), (split_app _ _ _ Hi).
    cbv zeta. cbn [head map]. unfold leafElement. cbn [length Nat.ltb Nat.leb JS.truthy].
    reflexivity.
Qed.

(** ** The keys of the section map *)

Lemma Grouping_keys segment k s m s' m' :
  Grouping segment k s m s' m' ->
  size m = k ->
  (forall key, is_Some (m !! key) <-> exists j, (j < k)%nat /\ key = tokenOf segment j) ->
  forall key, is_Some (m' !! key)
              <-> exists j, (j < size m')%nat /\ key = tokenOf segment j.
Proof.
  induction 1 as [k s m _|k s m pre inner post s' m' _ Hfresh _ IH];
    intros Hsize Hkeys; [now subst k|].
  apply IH.
  - rewrite map_size_insert_None by exact Hfresh. now rewrite Hsize.
  - intros key. rewrite lookup_insert_is_Some, Hkeys. split.
    + intros [<-|[_ [j [Hj ->]]]]; [exists k; split; [lia|reflexivity]|].
      exists j. split; [lia|reflexivity].
    + intros [j [Hj ->]]. destruct (decide (j = k)) as [->|Hne]; [now left|].
      right. split.
      * intros E. apply token_inj in E. now apply Hne.
      * exists j. split; [lia|reflexivity].
Qed.

(** X17.  The keys under which [mapStringToId] records the sections of
    a call are exactly the placeholder names numbered from zero up to
    the number of sections, without a gap: the segment of the call
    followed by the decimal number. *)
Theorem section_keys_are_placeholders (rnd : nat) (s : str) (key : str) :
  let m := snd (splitEmmetIntoSections (segmentOf rnd) s) in
  is_Some (m !! key)
  <-> exists j, (j < size m)%nat /\ key = segmentOf rnd ++ JS.numberToString j.
Proof.
  intros m.
  pose proof (splitEmmetIntoSections_Grouping (segmentOf rnd) (segmentOf_noParen rnd) s) as G.
  apply (Grouping_keys _ _ _ _ _ _ G).
  - apply map_size_empty.
  - intros key'. rewrite lookup_empty. split.
    + intros [x Hx]. discriminate Hx.
    + intros [j [Hj _]]. lia.
Qed.

(** ** A quoted attribute value with a space *)

Lemma trimEnd_nonwhite_end a b :
  b <> [] -> Forall (fun c => JS.isWhiteSpace c = false) b ->
  JS.trimEnd (a ++ b) = a ++ b.
Proof.
  intros Hne Hb. unfold JS.trimEnd. rewrite rev_app_distr.
  rewrite trimStart_stop.
  - rewrite <- rev_app_distr. apply rev_involutive.
  - intros E. apply Hne. apply (f_equal (@rev ascii)) in E.
    now rewrite rev_involutive in E.
  - apply List.Forall_forall. intros c Hc. apply in_rev in Hc.
    rewrite List.Forall_forall in Hb. now apply Hb.
Qed.

(** X18.  A quoted attribute value cannot hold a space: the attribute
    text is split at every space before the quotes are looked at, so the
    part of the value after the space is a token of its own, and when it
    holds no [=] the leaf expander raises a [TypeError]. *)
Theorem quoted_value_with_space_raises (base name v1 v2 : str) (h : dom) :
  let body := (name ++ "="%char :: "034"%char :: v1) ++ " "%char :: v2 ++ ["034"%char] in
  let w := base ++ "["%char :: body ++ ["]"%char] in
  tidy w = true -> ~ In "{"%char w ->
  ~ In "]"%char base -> ~ In "["%char body -> ~ In "]"%char body ->
  Forall (fun c => JS.isWhiteSpace c = false) v2 -> ~ In "="%char v2 ->
  simplifiedEmmetToElement w h = Throw TypeError.
Proof.
  intros body w Ht Hbrace Hb1 Hb2 Hb3 Hv2 Heq.
  set (tok := v2 ++ ["034"%char]).
  assert (Htok : Forall (fun c => JS.isWhiteSpace c = false) tok).
  { apply Forall_app. split; [exact Hv2|constructor; [reflexivity|constructor]]. }
  assert (Hne : tok <> []) by (unfold tok; destruct v2; discriminate).
  destruct (attributeText_block base body [] Hb2 (fun H => H) Hb1 Hb3) as [Hidx Htext].
  apply (attribute_without_equals w h tok).
  - rewrite (tidy_normalize _ Ht), (innerTextStep_none _ Hbrace). exact Hidx.
  - rewrite (tidy_normalize _ Ht), (innerTextStep_none _ Hbrace). cbn [snd].
    fold (attributeTextOf w). unfold w. rewrite Htext.
    unfold attributeTokens. apply filter_In. split.
    + unfold JS.trim, body.
      rewrite trimStart_keep.
      2:{ destruct (trimStart_suffix (name ++ "="%char :: "034"%char :: v1))
            as [ws [E Hws]].
          intros E0. rewrite E0, app_nil_r in E.
          assert (Hin : In "="%char ws) by (rewrite <- E, in_app_iff; right; now left).
          rewrite List.Forall_forall in Hws. discriminate (Hws _ Hin). }
      change (" "%char :: v2 ++ ["034"%char]) with ([" "%char] ++ tok).
      rewrite app_assoc, (trimEnd_nonwhite_end _ tok Hne Htok).
      rewrite <- app_assoc. cbn [app].
      rewrite split_app_general. apply in_or_app. right.
      rewrite split_notin by (apply nonwhite_notin_space, Htok). now left.
    + rewrite (trim_nonwhite _ Htok). destruct tok; [now contradiction Hne|reflexivity].
  - unfold tok. rewrite in_app_iff. intros [H|[H|[]]]; [now apply Heq|discriminate H].
Qed.

Lemma quoted_value_with_space_raises_witness :
  simplifiedEmmetToElement
    (lit "a" ++ "["%char
       :: ((lit "title" ++ "="%char :: "034"%char :: lit "Hello")
           ++ " "%char :: lit "world" ++ ["034"%char]) ++ ["]"%char]) []
  = Throw TypeError.
Proof.
  apply (quoted_value_with_space_raises (lit "a") (lit "title") (lit "Hello") (lit "world") []).
  - reflexivity.
  - vm_compute. intuition discriminate.
  - vm_compute. intuition discriminate.
  - vm_compute. intuition discriminate.
  - vm_compute. intuition discriminate.
  - repeat constructor.
  - vm_compute. intuition discriminate.
Defined.

(** ** A group as the children of a leaf *)

Lemma splitEmmetIntoSections_prefixed (segment pre inner : str) :
  noParen segment -> noParen pre -> noParen inner ->
  splitEmmetIntoSections segment (pre ++ "("%char :: inner ++ [")"%char])
  = (pre ++ tokenOf segment 0, <[tokenOf segment 0 := inner]> ∅).
Proof.
  intros Hseg Hpre Hi. unfold splitEmmetIntoSections.
  cbn [sectionsLoop].
  assert (Hfg : firstGroup (pre ++ "("%char :: inner ++ [")"%char]) (pre ++ []) inner [])
    by (apply firstGroup_skip; [exact Hpre|apply (firstGroup_head inner [] Hi)]).
  rewrite (firstGroup_regPatternExec _ _ _ _ Hfg).
  unfold mapStringToId. cbn [fst snd]. fold (tokenOf segment 0).
  rewrite (replace_firstGroup _ _ inner [] (tokenOf segment 0) Hfg).
  rewrite !app_nil_r.
  destruct (length (pre ++ "("%char :: inner ++ [")"%char])) as [|fuel]; [reflexivity|].
  cbn [sectionsLoop].
  rewrite noGroup_regPatternExec; [reflexivity|].
  apply noParen_noGroup, noParen_app. split; [exact Hpre|apply token_noParen, Hseg].
Qed.

Lemma level_nil (level : list tree) :
  match level with
  | first :: others => addChildren first [] :: others
  | [] => []
  end = level.
Proof. destruct level; [reflexivity|]. now rewrite addChildren_nil. Qed.

(** X19.  A group as the child of a leaf: when [p] holds no [+], [>],
    parenthesis or underscore and [x] holds no parenthesis or
    underscore, the tree of [p>(x)] is the tree of [p] with the whole
    forest of [x] as its children, in order.  An exception of [p] wins,
    then an exception of [x]. *)
Theorem group_as_children (depth rnd : nat) (p x : str) :
  noParen p -> noParen x ->
  ~ In "+"%char p -> ~ In ">"%char p -> ~ In "_"%char p -> ~ In "_"%char x ->
  let s := p ++ ">"%char :: "("%char :: x ++ [")"%char] in
  (forall tp ts,
      expand (S depth) rnd p = Return (Some [tp]) ->
      expand (S depth) rnd x = Return (Some ts) ->
      expand (S (S depth)) rnd s = Return (Some [addChildren tp ts])) /\
  (forall e, expand (S depth) rnd p = Throw e ->
             expand (S (S depth)) rnd s = Throw e) /\
  (forall tp e, expand (S depth) rnd p = Return tp ->
                expand (S depth) rnd x = Throw e ->
                expand (S (S depth)) rnd s = Throw e).
Proof.
  intros Hp Hx Pp Gp Up Ux s.
  set (tok := tokenOf (segmentOf rnd) 0).
  set (f := JS.trim (normalize p)).
  assert (Hw : Forall (fun c => JS.isWhiteSpace c = false) tok) by apply token_nonwhite.
  assert (Hfree : forall c, plain c = false -> ~ In c tok)
    by (intros c; apply token_free, segmentOf_good).
  assert (Hund : In "_"%char tok).
  { unfold tok, tokenOf, segmentOf. rewrite !in_app_iff. left. left. cbn. tauto. }
  assert (Hnp : forall c, c <> " "%char -> ~ In c p -> ~ In c (normalize p))
    by (intros c; apply normalize_notin).
  assert (Hkey : forall c, ~ In "_"%char c ->
                           (<[tok := normalize x]> (∅ : gmap str str)) !! c = None).
  { intros c Hc. apply lookup_insert_None. split; [apply lookup_empty|].
    intros <-. now apply Hc. }
  assert (Ep : expandT (S depth) rnd p =
               match (if negb (JS.truthy f) then Throw InvalidEmmetString
                      else match leafOf f with
                           | Throw e => Throw e
                           | Return ef => Return (leafTree ef)
                           end) with
               | Return t => Return [t]
               | Throw e => Throw e
               end).
  { rewrite (expandT_chain depth rnd p Hp Pp). unfold createParentalT.
    rewrite split_notin by (apply Hnp; [discriminate|exact Gp]).
    cbn [map]. fold f. destruct (negb (JS.truthy f)); [reflexivity|].
    rewrite resolveT_empty. destruct (leafOf f); [|reflexivity].
    cbn [chainT]. now rewrite addChildren_nil. }
  assert (E : expandT (S (S depth)) rnd s =
              match (if negb (JS.truthy f) then Throw InvalidEmmetString
                     else match leafOf f with
                          | Throw e => Throw e
                          | Return ef =>
                              match expandT (S depth) rnd x with
                              | Throw e => Throw e
                              | Return ts => Return (addChildren (leafTree ef) ts)
                              end
                          end) with
              | Return t => Return [t]
              | Throw e => Throw e
              end).
  { unfold expandT at 1. unfold s.
    rewrite normalize_app by reflexivity.
    change ("("%char :: x ++ [")"%char]) with ([] ++ "("%char :: (x ++ ")"%char :: [])).
    rewrite (normalize_app [] "("%char) by reflexivity.
    rewrite (normalize_app x ")"%char) by reflexivity.
    change (normalize p ++ ">"%char :: normalize [] ++ "("%char :: normalize x
                        ++ ")"%char :: normalize [])
      with (normalize p ++ ">"%char :: "("%char :: normalize x ++ [")"%char]).
    change (normalize p ++ ">"%char :: "("%char :: normalize x ++ [")"%char])
      with (normalize p ++ [">"%char] ++ "("%char :: normalize x ++ [")"%char]).
    rewrite app_assoc.
    rewrite splitEmmetIntoSections_prefixed;
      [|apply segmentOf_noParen
       |apply noParen_app; split; [apply normalize_noParen, Hp|repeat constructor]
       |apply normalize_noParen, Hx].
    fold tok. rewrite <- app_assoc. cbn [app].
    cbn [createParalelT]. unfold createParalelBodyT at 1.
    rewrite split_notin.
    2:{ rewrite in_app_iff. intros [H|[H|H]]; [|discriminate H|].
        - revert H. apply Hnp; [discriminate|exact Pp].
        - revert H. apply Hfree. reflexivity. }
    cbn [map mapOutcome]. unfold createParentalT at 1.
    rewrite map_trim_split_trim by reflexivity.
    rewrite split_app by (apply Hnp; [discriminate|exact Gp]).
    rewrite (split_notin ">"%char tok) by (apply Hfree; reflexivity).
    cbn [map]. fold f. rewrite (trim_nonwhite _ Hw).
    destruct (negb (JS.truthy f)); [reflexivity|].
    assert (Hf : ~ In "_"%char f).
    { unfold f. intros H. apply trim_in in H. revert H.
      apply Hnp; [discriminate|exact Up]. }
    unfold resolveT at 1. rewrite (Hkey f Hf).
    destruct (leafOf f) as [ef|e]; [|reflexivity].
    cbn [chainT]. unfold resolveT at 1. rewrite lookup_insert_eq.
    cbn [createParalelT].
    rewrite (createParalelBodyT_unkeyed _ _ (createParalelT ∅ depth) "_"%char);
      [|reflexivity|exact Hkey|apply normalize_notin; [discriminate|exact Ux]].
    rewrite (expandT_noParen depth rnd x Hx).
    fold (createParalelBodyT ∅ (createParalelT ∅ depth) (normalize x)).
    destruct (createParalelBodyT ∅ (createParalelT ∅ depth) (normalize x))
      as [ts|e]; [|reflexivity].
    rewrite level_nil. reflexivity. }
  split; [|split].
  - intros tp ts H1 H2. apply expand_Return_inv in H1, H2.
    apply expand_Return_inv. rewrite E. rewrite Ep in H1.
    destruct (negb (JS.truthy f)); [discriminate|].
    destruct (leafOf f); [|discriminate].
    injection H1 as <-. rewrite H2. reflexivity.
  - intros e H1. apply expand_Throw_inv in H1. apply expand_Throw_inv.
    rewrite E. rewrite Ep in H1.
    destruct (negb (JS.truthy f)); [exact H1|].
    destruct (leafOf f); [discriminate|exact H1].
  - intros tp e H1 H2. destruct (expand_Return_Some _ _ _ _ H1) as [tp' ->].
    apply expand_Return_inv in H1. apply expand_Throw_inv in H2.
    apply expand_Throw_inv. rewrite E. rewrite Ep in H1.
    destruct (negb (JS.truthy f)); [discriminate|].
    destruct (leafOf f); [|discriminate].
    rewrite H2. reflexivity.
Qed.

Lemma group_as_children_witness :
  expand 2 5 (lit "ul" ++ ">"%char :: "("%char :: lit "li{a}+li{b}" ++ [")"%char])
  = Return (Some [addChildren (Node (lit "ul") None None None [] [])
                    [Node (lit "li") None None (Some (lit "a")) [] [];
                     Node (lit "li") None None (Some (lit "b")) [] []]]).
Proof.
  refine (proj1 (group_as_children 0 5 (lit "ul") (lit "li{a}+li{b}") _ _ _ _ _ _) _ _ _ _).
  - repeat constructor.
  - repeat constructor.
  - vm_compute. intuition discriminate.
  - vm_compute. intuition discriminate.
  - vm_compute. intuition discriminate.
  - vm_compute. intuition discriminate.
  - reflexivity.
  - reflexivity.
Defined.

(** ** Failures of inputs without groups and attributes *)








